(** * minitorch/tensor_ops.py: the strided map, zip and reduce kernels

    A shallow embedding of [src/minitorch/tensor_ops.py].  Python's mutable
    buffers live in a store; the kernels are programs of a small state and
    exception monad over that store.  The store also keeps a trace of the
    buffer reads, buffer writes and scalar-function calls a run performs, so
    that statements such as "written once" or "never read" can be stated. *)

From Stdlib Require Import ZArith Floats Lia.
From stdpp Require Import base tactics option list list_numbers gmap.

(** ** The store *)

(** Python object identities.  Storage buffers (sequences of floats) and
    shape or stride sequences (sequences of ints) are kept in two maps: an
    object of one sort is never an object of the other. *)
Abbreviation loc := positive.

(** What a run does, in order. [EvRead l i]: cell [i] of buffer [l] was read;
    [EvWrite l i v]: [v] was stored in cell [i] of buffer [l]; [EvCall]: the
    scalar function was applied; [EvBroadcast]: [shape_broadcast] was called. *)
Inductive event (V : Type) : Type :=
| EvRead (l : loc) (i : nat)
| EvWrite (l : loc) (i : nat) (v : V)
| EvCall
| EvBroadcast.
Arguments EvRead {V} l i.
Arguments EvWrite {V} l i v.
Arguments EvCall {V}.
Arguments EvBroadcast {V}.

(** Python exceptions the modelled code can raise.  [Dangling] stands for
    the use of an object identity the store does not hold. *)
Inductive exn : Type := IndexError | ShapeMismatch | Dangling.

Record state (V : Type) : Type := State {
  bufs : gmap loc (list V);
  seqs : gmap loc (list Z);
  trace : list (event V)
}.
Arguments State {V} bufs seqs trace.
Arguments bufs {V} s.
Arguments seqs {V} s.
Arguments trace {V} s.

(** A call either returns a value or raises; both leave a store behind. *)
Inductive outcome (V A : Type) : Type :=
| Ret (a : A) (s : state V)
| Raise (e : exn) (s : state V).
Arguments Ret {V A} a s.
Arguments Raise {V A} e s.

Definition state_of {V A} (o : outcome V A) : state V :=
  match o with Ret _ s => s | Raise _ s => s end.

Definition M (V A : Type) : Type := state V → outcome V A.

#[global] Instance M_ret {V} : MRet (M V) := λ A a s, Ret a s.
#[global] Instance M_bind {V} : MBind (M V) := λ A B f m s,
  match m s with
  | Ret a s' => f a s'
  | Raise e s' => Raise e s'
  end.

Definition raise {V A} (e : exn) : M V A := λ s, Raise e s.

Definition from_option {V A} (e : exn) (o : option A) : M V A :=
  match o with Some a => mret a | None => raise e end.

Definition emit {V} (ev : event V) : M V unit :=
  λ s, Ret tt (State (bufs s) (seqs s) (trace s ++ [ev])).

(** ** Python sequences *)

(** [xs[i]] for a Python int [i]: a negative index counts from the end, and
    an index outside [-len, len) raises IndexError. *)
Definition py_index (n : nat) (i : Z) : option nat :=
  if bool_decide (0 ≤ i < Z.of_nat n)%Z then Some (Z.to_nat i)
  else if bool_decide (- Z.of_nat n ≤ i < 0)%Z then Some (Z.to_nat (Z.of_nat n + i))
  else None.

(** [range(lo, hi)] *)
Definition py_range (lo hi : Z) : list Z := seqZ lo (hi - lo).

(** [xs[i]] and [xs[i] = v] on a local list of ints. *)
Definition lst_get {V} (xs : list Z) (i : Z) : M V Z :=
  k ← from_option IndexError (py_index (length xs) i);
  from_option IndexError (xs !! k).

Definition lst_set {V} (xs : list Z) (i : Z) (v : Z) : M V (list Z) :=
  k ← from_option IndexError (py_index (length xs) i);
  mret (<[k := v]> xs).

(** The int sequence (tuple or array) held at [l], and [len(l)], [l[i]]. *)
Definition seq_load {V} (l : loc) : M V (list Z) :=
  λ s, from_option Dangling (seqs s !! l) s.

Definition seq_len {V} (l : loc) : M V nat :=
  xs ← seq_load l; mret (length xs).

Definition seq_get {V} (l : loc) (i : Z) : M V Z :=
  xs ← seq_load l; lst_get xs i.

(** Storage buffers: [l[i]] and [l[i] = v], both logged. *)
Definition buf_load {V} (l : loc) : M V (list V) :=
  λ s, from_option Dangling (bufs s !! l) s.

Definition buf_store {V} (l : loc) (b : list V) : M V unit :=
  λ s, Ret tt (State (<[l := b]> (bufs s)) (seqs s) (trace s)).

Definition buf_get {V} (l : loc) (i : Z) : M V V :=
  b ← buf_load l;
  k ← from_option IndexError (py_index (length b) i);
  v ← from_option IndexError (b !! k);
  emit (EvRead l k);;
  mret v.

Definition buf_set {V} (l : loc) (i : Z) (v : V) : M V unit :=
  b ← buf_load l;
  k ← from_option IndexError (py_index (length b) i);
  buf_store l (<[k := v]> b);;
  emit (EvWrite l k v).

(** [storage[:] = v] *)
Definition buf_fill {V} (l : loc) (v : V) : M V unit :=
  b ← buf_load l;
  buf_store l (replicate (length b) v).

(** Applying the scalar function the kernel was built with. *)
Definition call1 {V} (fn : V → V) (x : V) : M V V :=
  emit EvCall;; mret (fn x).

Definition call2 {V} (fn : V → V → V) (x y : V) : M V V :=
  emit EvCall;; mret (fn x y).

(** [for i in xs: body], with the loop's local list threaded through: the
    body receives the list as the previous iteration left it. *)
Fixpoint for_in {V S} (xs : list Z) (body : Z → S → M V S) (s : S) : M V S :=
  match xs with
  | [] => mret s
  | x :: xs' => s' ← body x s; for_in xs' body s'
  end.

(** ** The index algebra and the tensor objects (tensor_data.py) *)

(** Modelled from the spec: [index_to_position] of minitorch/tensor_data.py,
    which is imported by tensor_ops.py and is not among the sources.  Spec 4.1:
    "returns the sum of coordinate[d] * strides[d]".  The spec pairs a
    coordinate with strides of its own length; on lists of different lengths
    this definition sums over the common prefix. *)
Fixpoint index_to_position (index strides : list Z) : Z :=
  match index, strides with
  | i :: index', s :: strides' => (i * s + index_to_position index' strides')%Z
  | _, _ => 0%Z
  end.

(** Modelled from the spec: [broadcast_index] of minitorch/tensor_data.py, not
    among the sources.  Spec 4.2: right-align [shape] under [big_shape]; an
    aligned dimension of size 1 gives entry 0, an aligned dimension of another
    size gives the big coordinate's entry, and a leading dimension of
    [big_shape] with no aligned dimension gives no entry.  The function fills
    the caller's [out_index], which the kernels allocate with one slot per
    dimension of [big_shape] and from which they then drop the entries equal
    to -1 (tensor_ops.py lines 63-65): the slots with no aligned dimension are
    therefore set to -1 here. *)
Definition broadcast_index (big_index big_shape shape out_index : list Z) : list Z :=
  let n := length big_shape in
  let m := length shape in
  imap (λ j _,
    if decide (j + m < n) then (-1)%Z
    else match shape !! (j + m - n) with
         | Some 1%Z => 0%Z
         | _ => default 0%Z (big_index !! j)
         end) out_index.

(** Modelled from the spec: [shape_broadcast] of minitorch/tensor_data.py, not
    among the sources.  Spec 4.2: right-align the shapes; an aligned pair gives
    the shared value when equal, the other value when one is 1, and fails with
    ShapeMismatch otherwise; unaligned leading dimensions pass through. *)
Fixpoint broadcast_aligned (a b : list Z) : option (list Z) :=
  match a, b with
  | [], _ => Some b
  | _, [] => Some a
  | x :: a', y :: b' =>
    d ← (if decide (x = y) then Some x
         else if decide (x = 1%Z) then Some y
         else if decide (y = 1%Z) then Some x
         else None);
    r ← broadcast_aligned a' b';
    Some (d :: r)
  end.

Definition shape_broadcast (a b : list Z) : option (list Z) :=
  reverse <$> broadcast_aligned (reverse a) (reverse b).

(** Modelled from the spec: the row-major strides of a freshly allocated
    tensor (spec 8: "contiguousStridesOf", "default contiguous strides (3,1)"
    for shape (2,3)). *)
Fixpoint strides_from_shape (shape : list Z) : list Z :=
  match shape with
  | [] => []
  | _ :: rest => foldr Z.mul 1%Z rest :: strides_from_shape rest
  end.

(** Modelled from the spec: the tensor object of the surrounding layer (spec
    6), which owns a storage buffer, a shape and a strides sequence and hands
    them out as a triple. *)
Record tensor : Type := Tensor {
  t_storage : loc;
  t_shape : loc;
  t_strides : loc
}.

Section TensorData.
Context {V : Type}.

Definition alloc_buf (b : list V) : M V loc := λ s,
  let l := fresh (dom (bufs s)) in
  Ret l (State (<[l := b]> (bufs s)) (seqs s) (trace s)).

Definition alloc_seq (xs : list Z) : M V loc := λ s,
  let l := fresh (dom (seqs s)) in
  Ret l (State (bufs s) (<[l := xs]> (seqs s)) (trace s)).

(** [a.shape] *)
Definition shape (a : tensor) : M V (list Z) := seq_load (t_shape a).

(** Modelled from the spec: [a.zeros(shape)], "allocates a fresh zero-filled
    result" (spec 4.3, 4.4, 6) of the given shape, laid out row-major. *)
Definition zeros (zero : V) (shp : list Z) : M V tensor :=
  st ← alloc_buf (replicate (Z.to_nat (foldr Z.mul 1%Z shp)) zero);
  sh ← alloc_seq shp;
  sd ← alloc_seq (strides_from_shape shp);
  mret (Tensor st sh sd).

(** The calls of the helpers from the kernels: the shape and stride
    arguments are objects, read when the helper runs. *)
Definition call_index_to_position (index : list Z) (strides : loc) : M V Z :=
  sd ← seq_load strides;
  mret (index_to_position index sd).

Definition call_broadcast_index (big_index : list Z) (big_shape shp : loc)
    (out_index : list Z) : M V (list Z) :=
  bs ← seq_load big_shape;
  ss ← seq_load shp;
  mret (broadcast_index big_index bs ss out_index).

Definition call_shape_broadcast (a b : list Z) : M V (list Z) :=
  emit EvBroadcast;;
  from_option ShapeMismatch (shape_broadcast a b).

End TensorData.

(** ** tensor_map *)

Section tensor_map.
Context {V : Type}.
Variable fn : V → V.
Variables out out_shape out_strides in_storage in_shape in_strides : loc.
(** [length = len(out_shape)], fixed when [_map] starts. *)
Variable len : nat.

(** [recursive_set(cur_out_index, shape_index)] (lines 44-72).  [rem] is
    [length - shape_index]: the guard [shape_index >= length] of line 57 is
    the case [rem = 0], and the recursive call of line 72 passes
    [shape_index + 1], that is [rem - 1].  The call receives a copy of the
    list, so what the callee stores in it is not seen by the loop. *)
Fixpoint map_recursive_set (rem : nat) (cur_out_index : list Z) (shape_index : nat)
    : M V unit :=
  match rem with
  | O => mret tt
  | S rem' =>
    n ← seq_get out_shape (Z.of_nat shape_index);
    for_in (py_range 0 n) (λ i cur_out_index,
      cur_out_index ← lst_set cur_out_index (Z.of_nat shape_index) i;
      cur_in_index ← call_broadcast_index cur_out_index out_shape in_shape
                       (replicate len 0%Z);
      let cur_in_index := filter (λ i, i ≠ (-1)%Z) cur_in_index in
      in_storage_position ← call_index_to_position cur_in_index in_strides;
      out_storage_position ← call_index_to_position cur_out_index out_strides;
      x ← buf_get in_storage in_storage_position;
      y ← call1 fn x;
      buf_set out out_storage_position y;;
      map_recursive_set rem' cur_out_index (S shape_index);;
      mret cur_out_index) cur_out_index;;
    mret tt
  end.

End tensor_map.

(** [tensor_map(fn)] returns [_map] (lines 41-76). *)
Definition _map {V} (fn : V → V)
    (out out_shape out_strides in_storage in_shape in_strides : loc) : M V unit :=
  len ← seq_len out_shape;
  map_recursive_set fn out out_shape out_strides in_storage in_shape in_strides len
    len (replicate len 0%Z) 0.

Definition tensor_map {V} (fn : V → V) := _map fn.

(** ** tensor_zip *)

Section tensor_zip.
Context {V : Type}.
Variable fn : V → V → V.
Variables out out_shape out_strides : loc.
Variables a_storage a_shape a_strides : loc.
Variables b_storage b_shape b_strides : loc.
Variable len : nat.

(** [recursive_set] of [_zip] (lines 166-200), with [rem] as above. *)
Fixpoint zip_recursive_set (rem : nat) (cur_out_index : list Z) (shape_index : nat)
    : M V unit :=
  match rem with
  | O => mret tt
  | S rem' =>
    n ← seq_get out_shape (Z.of_nat shape_index);
    for_in (py_range 0 n) (λ i cur_out_index,
      cur_out_index ← lst_set cur_out_index (Z.of_nat shape_index) i;
      cur_a_index ← call_broadcast_index cur_out_index out_shape a_shape
                      (replicate len 0%Z);
      let cur_a_index := filter (λ i, i ≠ (-1)%Z) cur_a_index in
      cur_b_index ← call_broadcast_index cur_out_index out_shape b_shape
                      (replicate len 0%Z);
      let cur_b_index := filter (λ i, i ≠ (-1)%Z) cur_b_index in
      a_storage_position ← call_index_to_position cur_a_index a_strides;
      b_storage_position ← call_index_to_position cur_b_index b_strides;
      out_storage_position ← call_index_to_position cur_out_index out_strides;
      x ← buf_get a_storage a_storage_position;
      y ← buf_get b_storage b_storage_position;
      z ← call2 fn x y;
      buf_set out out_storage_position z;;
      zip_recursive_set rem' cur_out_index (S shape_index);;
      mret cur_out_index) cur_out_index;;
    mret tt
  end.

End tensor_zip.

(** [tensor_zip(fn)] returns [_zip] (lines 153-204). *)
Definition _zip {V} (fn : V → V → V)
    (out out_shape out_strides a_storage a_shape a_strides
     b_storage b_shape b_strides : loc) : M V unit :=
  len ← seq_len out_shape;
  zip_recursive_set fn out out_shape out_strides a_storage a_shape a_strides
    b_storage b_shape b_strides len len (replicate len 0%Z) 0.

Definition tensor_zip {V} (fn : V → V → V) := _zip fn.

(** ** tensor_reduce *)

Section tensor_reduce.
Context {V : Type}.
Variable fn : V → V → V.
Variables out out_shape out_strides : loc.
Variables a_storage a_shape a_strides : loc.
Variable reduce_dim : Z.

(** [recursive_set] of [_reduce] (lines 274-309), with [rem] as above: here
    [length = len(a_shape)].  The loop runs over [range(a_shape[0])] at the
    outermost level and over [range(1, a_shape[shape_index])] below it. *)
Fixpoint reduce_recursive_set (rem : nat) (cur_a_index : list Z) (shape_index : nat)
    : M V unit :=
  match rem with
  | O => mret tt
  | S rem' =>
    n ← seq_get a_shape (Z.of_nat shape_index);
    let for_length :=
      if decide (shape_index = 0) then py_range 0 n else py_range 1 n in
    for_in for_length (λ i cur_a_index,
      cur_a_index ← lst_set cur_a_index (Z.of_nat shape_index) i;
      a_storage_position ← call_index_to_position cur_a_index a_strides;
      r ← lst_get cur_a_index reduce_dim;
      (if decide (r = 0%Z) then
         out_storage_position ← call_index_to_position cur_a_index out_strides;
         x ← buf_get a_storage a_storage_position;
         buf_set out out_storage_position x
       else
         cur_out_index ← lst_set cur_a_index reduce_dim 0%Z;
         out_storage_position ← call_index_to_position cur_out_index out_strides;
         acc ← buf_get out out_storage_position;
         x ← buf_get a_storage a_storage_position;
         y ← call2 fn acc x;
         buf_set out out_storage_position y);;
      reduce_recursive_set rem' cur_a_index (S shape_index);;
      mret cur_a_index) cur_a_index;;
    mret tt
  end.

End tensor_reduce.

(** [tensor_reduce(fn)] returns [_reduce] (lines 271-313). *)
Definition _reduce {V} (fn : V → V → V)
    (out out_shape out_strides a_storage a_shape a_strides : loc)
    (reduce_dim : Z) : M V unit :=
  len ← seq_len a_shape;
  reduce_recursive_set fn out out_strides a_storage a_shape a_strides reduce_dim
    len (replicate len 0%Z) 0.

Definition tensor_reduce {V} (fn : V → V → V) := _reduce fn.

(** ** The entry points [map], [zip] and [reduce] (class TensorOps) *)

Module TensorOps.
Section TensorOps.
Context {V : Type}.
(** The float 0.0 of [a.zeros]. *)
Variable zero : V.

(** [map(fn)] returns [ret] (lines 109-117). *)
Definition map (fn : V → V) (a : tensor) (out : option tensor) : M V tensor :=
  let f := tensor_map fn in
  out ← match out with
        | None => sa ← shape a; zeros zero sa
        | Some out => mret out
        end;
  f (t_storage out) (t_shape out) (t_strides out)
    (t_storage a) (t_shape a) (t_strides a);;
  mret out.

(** [zip(fn)] returns [ret] (lines 236-247). *)
Definition zip (fn : V → V → V) (a b : tensor) : M V tensor :=
  let f := tensor_zip fn in
  sa ← shape a;
  sb ← shape b;
  c_shape ← (if decide (sa ≠ sb) then call_shape_broadcast sa sb else mret sa);
  out ← zeros zero c_shape;
  f (t_storage out) (t_shape out) (t_strides out)
    (t_storage a) (t_shape a) (t_strides a)
    (t_storage b) (t_shape b) (t_strides b);;
  mret out.

(** [reduce(fn, start)] returns [ret] (lines 339-352). *)
Definition reduce (fn : V → V → V) (start : V) (a : tensor) (dim : Z) : M V tensor :=
  let f := tensor_reduce fn in
  sa ← shape a;
  out_shape ← lst_set sa dim 1%Z;
  out ← zeros zero out_shape;
  buf_fill (t_storage out) start;;
  f (t_storage out) (t_shape out) (t_strides out)
    (t_storage a) (t_shape a) (t_strides a) dim;;
  mret out.

End TensorOps.
End TensorOps.

(** ** What is observed of a run *)

Section Observations.
Context {V : Type}.

(** The events a run appended to the trace all satisfy [P]. *)
Definition emits (P : event V → Prop) (s s' : state V) : Prop :=
  ∃ evs, trace s' = trace s ++ evs ∧ Forall P evs.

(** Only buffer [out] may differ between the two stores. *)
Definition frame (out : loc) (s s' : state V) : Prop :=
  seqs s' = seqs s ∧ ∀ l, l ≠ out → bufs s' !! l = bufs s !! l.

Definition is_write (l : loc) (k : nat) (ev : event V) : bool :=
  match ev with
  | EvWrite l' k' _ => bool_decide (l' = l) && bool_decide (k' = k)
  | _ => false
  end.

Definition is_read (l : loc) (ev : event V) : bool :=
  match ev with
  | EvRead l' _ => bool_decide (l' = l)
  | _ => false
  end.

Definition is_call (ev : event V) : bool :=
  match ev with EvCall => true | _ => false end.

Definition is_broadcast (ev : event V) : bool :=
  match ev with EvBroadcast => true | _ => false end.

(** How often cell [k] of buffer [l] was written. *)
Definition writes_to (l : loc) (k : nat) (tr : list (event V)) : nat :=
  length (filter (λ ev, is_write l k ev = true) tr).



(** The store and the result of a run, without the trace. *)
Definition observe {A} (o : outcome V A)
    : (A + exn) * gmap loc (list V) * gmap loc (list Z) :=
  match o with
  | Ret a s => (inl a, bufs s, seqs s)
  | Raise e s => (inr e, bufs s, seqs s)
  end.

(** Every run of [m] relates the store it starts in to the store it leaves
    by [R], and raises only exceptions that satisfy [E]. *)
Definition preserves (R : relation (state V)) (E : exn → Prop) {A} (m : M V A)
    : Prop :=
  ∀ s, match m s with Ret _ s' => R s s' | Raise e s' => R s s' ∧ E e end.

(** The two stores hold the same buffers and sequences. *)
Definition same_heap (s s' : state V) : Prop :=
  bufs s' = bufs s ∧ seqs s' = seqs s.

(** A program that only reads: it may extend the trace. *)
Definition reader {A} (m : M V A) : Prop := preserves same_heap (λ _, True) m.

(** Started in stores that hold the same buffers and sequences, the two
    programs end alike: same result or exception, same buffers and
    sequences. *)
Definition sim {A} (m1 m2 : M V A) : Prop :=
  ∀ s1 s2, bufs s1 = bufs s2 → seqs s1 = seqs s2 →
    observe (m1 s1) = observe (m2 s2).

(** Events other than a call of [shape_broadcast]. *)
Definition quiet (ev : event V) : Prop := is_broadcast ev = false.

End Observations.

Definition not_mismatch (e : exn) : Prop := e ≠ ShapeMismatch.

(** The left fold of spec 4.5 and of the docstring of [reduce] (lines
    325-328): [out = start; for x in xs: out = fn(out, x)]. *)
Definition fold_from_seed {V} (fn : V → V → V) (seed : V) (xs : list V) : V :=
  foldl fn seed xs.

(** Coordinates of a shape: one entry per dimension, each within its bound. *)
Definition in_bounds (shape index : list Z) : Prop :=
  Forall2 (λ i n, (0 ≤ i < n)%Z) index shape.

(** The coordinates at which the traversal of [_map] and [_zip] stops, in
    order: at every level of the recursion the loop visits the coordinate
    made of the indices chosen so far, the loop index and zeros, and then
    descends. [pre] holds the indices chosen so far and [shape] the
    dimensions not yet entered. *)
Fixpoint map_visits (pre shape : list Z) : list (list Z) :=
  match shape with
  | [] => []
  | n :: rest =>
    i ← py_range 0 n;
    (pre ++ i :: replicate (length rest) 0%Z) :: map_visits (pre ++ [i]) rest
  end.

(** The number of levels at which a coordinate is visited: one for each
    position after which all entries are zero. *)
Fixpoint nvisits (index : list Z) : nat :=
  match index with
  | [] => 0
  | _ :: rest =>
    (if decide (Forall (λ i, i = 0%Z) rest) then 1 else 0) + nvisits rest
  end.

(** The input coordinate [_map] reads for an output coordinate (lines 63-65). *)
Definition map_in_index (out_shape in_shape index : list Z) : list Z :=
  filter (λ i, i ≠ (-1)%Z)
    (broadcast_index index out_shape in_shape (replicate (length out_shape) 0%Z)).

(** The coordinate of spec 4.2 written entry by entry: the leading entries of
    the big coordinate with no aligned dimension are dropped, an aligned
    dimension of size 1 gives 0 and any other gives the big coordinate's
    entry. *)
Definition broadcast_project (big_index shape : list Z) : list Z :=
  zip_with (λ i d, if decide (d = 1%Z) then 0%Z else i)
    (drop (length big_index - length shape) big_index) shape.

(** Replacing the contents of buffer [out] and extending the trace. *)
Definition upd {V} (out : loc) (s : state V) (o : list V) (evs : list (event V))
    : state V :=
  State (<[out := o]> (bufs s)) (seqs s) (trace s ++ evs).

(** The effect of [_map] cell by cell.  [OSH], [OSTR], [ISH] and [ISTR] are
    the contents of the output and input shape and stride sequences, [a] the
    contents of the input buffer, [N] the length of the output buffer. *)
Section MapCells.
Context {V : Type}.
Variable fn : V → V.
Variables out out_shape out_strides in_storage in_shape in_strides : loc.
Variables OSH OSTR ISH ISTR : list Z.
Variable a : list V.
Variable N : nat.

(** The storage positions of an output coordinate (lines 68-69). *)
Definition map_out_pos (c : list Z) : Z := index_to_position c OSTR.
Definition map_in_pos (c : list Z) : Z :=
  index_to_position (map_in_index OSH ISH c) ISTR.

(** What one pass through lines 63-70 at coordinate [c] does to the output
    buffer, and the events it adds. *)
Definition map_cell_write (o : list V) (c : list Z) : list V :=
  match a !! Z.to_nat (map_in_pos c) with
  | Some x => <[Z.to_nat (map_out_pos c) := fn x]> o
  | None => o
  end.

Definition map_cell_events (c : list Z) : list (event V) :=
  match a !! Z.to_nat (map_in_pos c) with
  | Some x => [EvRead in_storage (Z.to_nat (map_in_pos c)); EvCall;
               EvWrite out (Z.to_nat (map_out_pos c)) (fn x)]
  | None => []
  end.

(** The store holds the arguments of [_map]: the four sequences, the input
    buffer and an output buffer [o] of [N] cells. *)
Definition map_store (s : state V) (o : list V) : Prop :=
  seqs s !! out_shape = Some OSH ∧ seqs s !! out_strides = Some OSTR ∧
  seqs s !! in_shape = Some ISH ∧ seqs s !! in_strides = Some ISTR ∧
  bufs s !! in_storage = Some a ∧ bufs s !! out = Some o ∧ length o = N.

End MapCells.

(** The coordinates at which the traversal of [_reduce] stops, in order:
    as [map_visits], except that below the outermost level the loop starts
    at index 1 (line 291). [outer] says whether the level is the outermost. *)
Fixpoint reduce_visits (outer : bool) (pre shape : list Z) : list (list Z) :=
  match shape with
  | [] => []
  | n :: rest =>
    i ← py_range (if outer then 0%Z else 1%Z) n;
    (pre ++ i :: replicate (length rest) 0%Z) :: reduce_visits false (pre ++ [i]) rest
  end.

(** The coordinates [reduce_visits] holds, said of the coordinate itself:
    after its first entry, no zero entry is followed by a non-zero one (the
    loops below the outermost level start at 1, so an entry 0 is only ever
    one of the zeros the list was created with). *)
Fixpoint zeros_only_trailing (index : list Z) : bool :=
  match index with
  | [] => true
  | j :: rest =>
    if bool_decide (j = 0%Z) then bool_decide (Forall (λ i, i = 0%Z) rest)
    else zeros_only_trailing rest
  end.

Definition reduce_visited (index : list Z) : bool :=
  match index with
  | [] => false
  | _ :: rest => zeros_only_trailing rest
  end.


(** The effect of [_reduce] cell by cell.  [ASH] and [ASTR] are the contents
    of the input shape and strides, [OSTR] of the output strides, [a] of the
    input buffer; [d] is the reduced dimension. *)
Section ReduceCells.
Context {V : Type}.
Variable fn : V → V → V.
Variables out out_strides a_storage a_shape a_strides : loc.
Variables ASH ASTR OSTR : list Z.
Variable a : list V.
Variable N : nat.
Variable d : nat.

(** The storage positions for an input coordinate (lines 296, 300, 304-306). *)
Definition reduce_a_pos (c : list Z) : Z := index_to_position c ASTR.
Definition reduce_out_pos (c : list Z) : Z :=
  index_to_position (<[d := 0%Z]> c) OSTR.

(** What one pass through lines 293-307 at coordinate [c] does to the output
    buffer. *)
Definition reduce_cell_write (o : list V) (c : list Z) : list V :=
  match a !! Z.to_nat (reduce_a_pos c) with
  | Some x =>
    if decide (c !! d = Some 0%Z) then <[Z.to_nat (reduce_out_pos c) := x]> o
    else match o !! Z.to_nat (reduce_out_pos c) with
         | Some acc => <[Z.to_nat (reduce_out_pos c) := fn acc x]> o
         | None => o
         end
  | None => o
  end.

(** The events of that pass: a direct assignment reads the input cell and
    writes; an accumulation reads the output cell, reads the input cell, calls
    [fn] and writes (lines 301 and 307). *)
Definition reduce_cell_events (o : list V) (c : list Z) : list (event V) :=
  match a !! Z.to_nat (reduce_a_pos c) with
  | Some x =>
    if decide (c !! d = Some 0%Z) then
      [EvRead a_storage (Z.to_nat (reduce_a_pos c));
       EvWrite out (Z.to_nat (reduce_out_pos c)) x]
    else match o !! Z.to_nat (reduce_out_pos c) with
         | Some acc =>
           [EvRead out (Z.to_nat (reduce_out_pos c));
            EvRead a_storage (Z.to_nat (reduce_a_pos c));
            EvCall;
            EvWrite out (Z.to_nat (reduce_out_pos c)) (fn acc x)]
         | None => []
         end
  | None => []
  end.

(** The value a cell of the output holds after the passes at the
    coordinates [cs], all of which address it, when it held [v] before. *)
Definition reduce_group_fold (v : option V) (cs : list (list Z)) : option V :=
  foldl (λ v c,
    x ← a !! Z.to_nat (reduce_a_pos c);
    if decide (c !! d = Some 0%Z) then Some x
    else acc ← v; Some (fn acc x)) v cs.

Definition reduce_store (s : state V) (o : list V) : Prop :=
  seqs s !! a_shape = Some ASH ∧ seqs s !! a_strides = Some ASTR ∧
  seqs s !! out_strides = Some OSTR ∧
  bufs s !! a_storage = Some a ∧ bufs s !! out = Some o ∧ length o = N.

End ReduceCells.

(** ** The traversal of [_map] and [_zip], with the visit as a parameter *)

(** [recursive_set] of [_map] (lines 44-72) and of [_zip] (lines 166-200)
    differ only in what they do at a coordinate.  [traverse] is that
    recursion with the visit [cell] left open; [map_cell] is lines 63-70 and
    [zip_cell] lines 184-198.  The kernels are shown to run as
    [traverse map_cell] and [traverse zip_cell]
    ([map_recursive_set_traverse], [zip_recursive_set_traverse]). *)
Section traverse.
Context {V : Type}.
Variable out_shape : loc.
Variable cell : list Z → M V unit.

Fixpoint traverse (rem : nat) (cur_out_index : list Z) (shape_index : nat)
    : M V unit :=
  match rem with
  | O => mret tt
  | S rem' =>
    n ← seq_get out_shape (Z.of_nat shape_index);
    for_in (py_range 0 n) (λ i cur_out_index,
      cur_out_index ← lst_set cur_out_index (Z.of_nat shape_index) i;
      cell cur_out_index;;
      traverse rem' cur_out_index (S shape_index);;
      mret cur_out_index) cur_out_index;;
    mret tt
  end.

End traverse.

Definition map_cell {V} (fn : V → V)
    (out out_shape out_strides in_storage in_shape in_strides : loc) (len : nat)
    (cur_out_index : list Z) : M V unit :=
  cur_in_index ← call_broadcast_index cur_out_index out_shape in_shape
                   (replicate len 0%Z);
  let cur_in_index := filter (λ i, i ≠ (-1)%Z) cur_in_index in
  in_storage_position ← call_index_to_position cur_in_index in_strides;
  out_storage_position ← call_index_to_position cur_out_index out_strides;
  x ← buf_get in_storage in_storage_position;
  y ← call1 fn x;
  buf_set out out_storage_position y.

Definition zip_cell {V} (fn : V → V → V)
    (out out_shape out_strides a_storage a_shape a_strides
     b_storage b_shape b_strides : loc) (len : nat)
    (cur_out_index : list Z) : M V unit :=
  cur_a_index ← call_broadcast_index cur_out_index out_shape a_shape
                  (replicate len 0%Z);
  let cur_a_index := filter (λ i, i ≠ (-1)%Z) cur_a_index in
  cur_b_index ← call_broadcast_index cur_out_index out_shape b_shape
                  (replicate len 0%Z);
  let cur_b_index := filter (λ i, i ≠ (-1)%Z) cur_b_index in
  a_storage_position ← call_index_to_position cur_a_index a_strides;
  b_storage_position ← call_index_to_position cur_b_index b_strides;
  out_storage_position ← call_index_to_position cur_out_index out_strides;
  x ← buf_get a_storage a_storage_position;
  y ← buf_get b_storage b_storage_position;
  z ← call2 fn x y;
  buf_set out out_storage_position z.

(** The effect of one visit on the store, when the visit replaces the
    contents [o] of buffer [out] by [write o c] and adds the events
    [events o c]; and the events of a sequence of visits. *)
Definition cell_step {V} (out : loc) (write : list V → list Z → list V)
    (events : list V → list Z → list (event V)) (c : list Z) (s : state V)
    : state V :=
  match bufs s !! out with
  | Some o => upd out s (write o c) (events o c)
  | None => s
  end.

Fixpoint cells_events {V} (write : list V → list Z → list V)
    (events : list V → list Z → list (event V)) (o : list V)
    (cs : list (list Z)) : list (event V) :=
  match cs with
  | [] => []
  | c :: cs' => events o c ++ cells_events write events (write o c) cs'
  end.

(** The effect of [_zip] cell by cell.  The positions of the two inputs are
    those of [_map]'s input, each with its own shape and strides (lines
    184-197). *)
Section ZipCells.
Context {V : Type}.
Variable fn : V → V → V.
Variables out a_storage b_storage : loc.
Variables OSH OSTR ASH ASTR BSH BSTR : list Z.
Variables a b : list V.

Definition zip_cell_write (o : list V) (c : list Z) : list V :=
  match a !! Z.to_nat (map_in_pos OSH ASH ASTR c),
        b !! Z.to_nat (map_in_pos OSH BSH BSTR c) with
  | Some x, Some y => <[Z.to_nat (map_out_pos OSTR c) := fn x y]> o
  | _, _ => o
  end.

Definition zip_cell_events (c : list Z) : list (event V) :=
  match a !! Z.to_nat (map_in_pos OSH ASH ASTR c),
        b !! Z.to_nat (map_in_pos OSH BSH BSTR c) with
  | Some x, Some y =>
    [EvRead a_storage (Z.to_nat (map_in_pos OSH ASH ASTR c));
     EvRead b_storage (Z.to_nat (map_in_pos OSH BSH BSTR c));
     EvCall;
     EvWrite out (Z.to_nat (map_out_pos OSTR c)) (fn x y)]
  | _, _ => []
  end.

End ZipCells.

(** The store holds the arguments of [_zip]. *)
Definition zip_store {V} (out out_shape out_strides a_storage a_shape a_strides
    b_storage b_shape b_strides : loc) (OSH OSTR ASH ASTR BSH BSTR : list Z)
    (a b : list V) (N : nat) (s : state V) (o : list V) : Prop :=
  seqs s !! out_shape = Some OSH ∧ seqs s !! out_strides = Some OSTR ∧
  seqs s !! a_shape = Some ASH ∧ seqs s !! a_strides = Some ASTR ∧
  seqs s !! b_shape = Some BSH ∧ seqs s !! b_strides = Some BSTR ∧
  bufs s !! a_storage = Some a ∧ bufs s !! b_storage = Some b ∧
  bufs s !! out = Some o ∧ length o = N.

(** The effect of [_map] cell by cell when the output is the input itself
    ([map(fn)(a, out=a)]): the value read is the one the buffer holds when the
    coordinate is visited. *)
Section InPlaceCells.
Context {V : Type}.
Variable fn : V → V.
Variable storage : loc.
Variable STR : list Z.

Definition inplace_cell_write (o : list V) (c : list Z) : list V :=
  match o !! Z.to_nat (index_to_position c STR) with
  | Some x => <[Z.to_nat (index_to_position c STR) := fn x]> o
  | None => o
  end.

Definition inplace_cell_events (o : list V) (c : list Z) : list (event V) :=
  match o !! Z.to_nat (index_to_position c STR) with
  | Some x => [EvRead storage (Z.to_nat (index_to_position c STR)); EvCall;
               EvWrite storage (Z.to_nat (index_to_position c STR)) (fn x)]
  | None => []
  end.

End InPlaceCells.

Definition inplace_store {V} (storage shape strides : loc) (SH STR : list Z)
    (N : nat) (s : state V) (o : list V) : Prop :=
  seqs s !! shape = Some SH ∧ seqs s !! strides = Some STR ∧
  bufs s !! storage = Some o ∧ length o = N.

(** The number of coordinates the traversal of [_map] and [_zip] stops at:
    [n0 + n0*n1 + n0*n1*n2 + ...] for the shape [(n0, n1, n2, ...)], one stop
    per iteration of the loop of line 59 at every level. *)
Definition traversal_steps (shape : list Z) : Z :=
  foldr (λ n acc, n * (1 + acc))%Z 0%Z shape.

(** The store [s'] holds everything the store [s] holds, unchanged. *)
Definition extends {V} (s s' : state V) : Prop :=
  bufs s ⊆ bufs s' ∧ seqs s ⊆ seqs s'.

(** ** The scenarios of spec section 8 *)

(** The shape and the storage of the tensor a call returned. *)
Definition tensor_value {V} (o : outcome V tensor) : option (list Z * list V) :=
  match o with
  | Ret t s =>
    sh ← seqs s !! t_shape t;
    st ← bufs s !! t_storage t;
    Some (sh, st)
  | Raise _ _ => None
  end.

(** The tensor [a] of shape (2,3) with row-major storage 1..6. *)
Definition a_2x3 : tensor := Tensor 1 1 2.
Definition store_2x3 : state float :=
  State {[ 1%positive := [1; 2; 3; 4; 5; 6]%float ]}
        {[ 1%positive := [2; 3]%Z; 2%positive := [3; 1]%Z ]} [].

(** The same tensor next to a zero-filled output buffer of six cells that
    shares its shape and strides, as [map] sets them up. *)
Definition store_map_2x3 : state float :=
  State {[ 1%positive := [1; 2; 3; 4; 5; 6]%float;
           2%positive := replicate 6 0%float ]}
        {[ 1%positive := [2; 3]%Z; 2%positive := [3; 1]%Z ]} [].

(** [a] of shape (2,1) with storage [1,2] and [b] of shape (1,3) with storage
    [10,20,30]. *)
Definition a_2x1 : tensor := Tensor 1 1 2.
Definition b_1x3 : tensor := Tensor 2 3 4.
Definition store_2x1_1x3 : state float :=
  State {[ 1%positive := [1; 2]%float; 2%positive := [10; 20; 30]%float ]}
        {[ 1%positive := [2; 1]%Z; 2%positive := [1; 1]%Z;
           3%positive := [1; 3]%Z; 4%positive := [3; 1]%Z ]} [].

(** A tensor of shape (2,1) with storage [5,7]. *)
Definition store_2x1 : state float :=
  State {[ 1%positive := [5; 7]%float ]}
        {[ 1%positive := [2; 1]%Z; 2%positive := [1; 1]%Z ]} [].

(** A tensor of shape (1,2,2) with row-major storage 1..4. *)
Definition a_1x2x2 : tensor := Tensor 1 1 2.
Definition store_1x2x2 : state float :=
  State {[ 1%positive := [1; 2; 3; 4]%float ]}
        {[ 1%positive := [1; 2; 2]%Z; 2%positive := [4; 2; 1]%Z ]} [].

(** The (2,3) tensor next to an output buffer of two cells holding 9, with
    output shape (2,1) and strides (1,1). *)
Definition store_reduce_2x3 : state float :=
  State {[ 1%positive := [1; 2; 3; 4; 5; 6]%float; 2%positive := [9; 9]%float ]}
        {[ 1%positive := [2; 3]%Z; 2%positive := [3; 1]%Z;
           3%positive := [2; 1]%Z; 4%positive := [1; 1]%Z ]} [].

(** Arguments for the kernels at rank 0: buffer 1 is the one-cell input [5],
    buffer 2 the one-cell output; sequence 1 is the empty shape (and strides)
    of the input, sequence 2 the empty shape (and strides) of the output. *)
Definition store_rank0_out : state float :=
  State {[ 1%positive := [5]%float; 2%positive := [0]%float ]}
        {[ 1%positive := []; 2%positive := [] ]} [].

(** An empty tensor of shape (0,3). *)
Definition store_0x3 : state float :=
  State {[ 1%positive := [] ]}
        {[ 1%positive := [0; 3]%Z; 2%positive := [3; 1]%Z ]} [].

(** An empty tensor of shape (2,0), next to an empty output buffer that
    shares its shape and strides. *)
Definition store_2x0 : state float :=
  State {[ 1%positive := []; 2%positive := [] ]}
        {[ 1%positive := [2; 0]%Z; 2%positive := [0; 1]%Z ]} [].

(** [a] of shape (2,1) and [b] of shape (1,3) as in [store_2x1_1x3], next to
    a zero-filled output buffer of six cells with shape (2,3) (sequence 5)
    and strides (3,1) (sequence 4). *)
Definition store_zip_2x1_1x3 : state float :=
  State {[ 1%positive := [1; 2]%float; 2%positive := [10; 20; 30]%float;
           3%positive := replicate 6 0%float ]}
        {[ 1%positive := [2; 1]%Z; 2%positive := [1; 1]%Z;
           3%positive := [1; 3]%Z; 4%positive := [3; 1]%Z;
           5%positive := [2; 3]%Z ]} [].

(** A tensor of rank 0: shape (), one cell holding 5. *)
Definition a_rank0 : tensor := Tensor 1 1 1.
Definition store_rank0 : state float :=
  State {[ 1%positive := [5]%float ]} {[ 1%positive := [] ]} [].


(** * Proofs *)

(** ** Running the primitives *)

Section Run.
Context {V : Type}.
Implicit Types (s : state V) (l : loc).

Lemma run_bind {A B} (m : M V A) (f : A → M V B) s :
  (m ≫= f) s =
  match m s with Ret a s' => f a s' | Raise e s' => Raise e s' end.
Proof. reflexivity. Qed.

Lemma run_ret {A} (a : A) s : (mret a : M V A) s = Ret a s.
Proof. reflexivity. Qed.

Lemma py_index_nat (n k : nat) : k < n → py_index n (Z.of_nat k) = Some k.
Proof.
  intros Hk. unfold py_index.
  rewrite bool_decide_eq_true_2 by lia. by rewrite Nat2Z.id.
Qed.

Lemma py_index_pos (n : nat) (i : Z) :
  (0 ≤ i < Z.of_nat n)%Z → py_index n i = Some (Z.to_nat i).
Proof. intros Hi. unfold py_index. by rewrite bool_decide_eq_true_2. Qed.

Lemma py_index_lt (n : nat) (i : Z) (k : nat) : py_index n i = Some k → k < n.
Proof.
  unfold py_index. repeat case_bool_decide; intros [= <-]; lia.
Qed.

Lemma run_seq_load l xs s : seqs s !! l = Some xs → seq_load l s = Ret xs s.
Proof. unfold seq_load. by intros ->. Qed.

Lemma run_seq_len l xs s : seqs s !! l = Some xs → seq_len l s = Ret (length xs) s.
Proof. intros H. unfold seq_len. by rewrite run_bind, (run_seq_load _ _ _ H). Qed.

Lemma run_lst_set (xs : list Z) (i v : Z) (k : nat) s :
  py_index (length xs) i = Some k → lst_set xs i v s = Ret (<[k := v]> xs) s.
Proof. intros H. unfold lst_set. by rewrite H. Qed.

Lemma run_lst_get (xs : list Z) (i x : Z) (k : nat) s :
  py_index (length xs) i = Some k → xs !! k = Some x → lst_get xs i s = Ret x s.
Proof. intros H Hx. unfold lst_get. rewrite run_bind, H. simpl. by rewrite Hx. Qed.

Lemma run_seq_get l xs (k : nat) (x : Z) s :
  seqs s !! l = Some xs → xs !! k = Some x →
  seq_get l (Z.of_nat k) s = Ret x s.
Proof.
  intros H Hx. unfold seq_get. rewrite run_bind, (run_seq_load _ _ _ H).
  apply run_lst_get with k; [|done].
  apply py_index_nat. by eapply lookup_lt_Some.
Qed.

Lemma run_call_index_to_position (index : list Z) l sd s :
  seqs s !! l = Some sd →
  call_index_to_position index l s = Ret (index_to_position index sd) s.
Proof.
  intros H. unfold call_index_to_position.
  by rewrite run_bind, (run_seq_load _ _ _ H).
Qed.

Lemma run_call_broadcast_index (big_index out_index : list Z) l1 l2 bs ss s :
  seqs s !! l1 = Some bs → seqs s !! l2 = Some ss →
  call_broadcast_index big_index l1 l2 out_index s
  = Ret (broadcast_index big_index bs ss out_index) s.
Proof.
  intros H1 H2. unfold call_broadcast_index.
  rewrite run_bind, (run_seq_load _ _ _ H1).
  by rewrite run_bind, (run_seq_load _ _ _ H2).
Qed.

Lemma run_buf_get l (b : list V) (i : Z) (x : V) s :
  bufs s !! l = Some b → (0 ≤ i < Z.of_nat (length b))%Z →
  b !! Z.to_nat i = Some x →
  buf_get l i s
  = Ret x (State (bufs s) (seqs s) (trace s ++ [EvRead l (Z.to_nat i)])).
Proof.
  intros Hb Hi Hx. unfold buf_get, buf_load.
  rewrite run_bind, Hb. simpl.
  rewrite run_bind, (py_index_pos _ _ Hi). simpl.
  by rewrite run_bind, Hx.
Qed.

Lemma run_buf_set l (b : list V) (i : Z) (v : V) s :
  bufs s !! l = Some b → (0 ≤ i < Z.of_nat (length b))%Z →
  buf_set l i v s
  = Ret tt (State (<[l := <[Z.to_nat i := v]> b]> (bufs s)) (seqs s)
              (trace s ++ [EvWrite l (Z.to_nat i) v])).
Proof.
  intros Hb Hi. unfold buf_set, buf_load.
  rewrite run_bind, Hb. simpl.
  by rewrite run_bind, (py_index_pos _ _ Hi).
Qed.

Lemma run_call1 (fn : V → V) (x : V) s :
  call1 fn x s = Ret (fn x) (State (bufs s) (seqs s) (trace s ++ [EvCall])).
Proof. reflexivity. Qed.

Lemma run_call2 (fn : V → V → V) (x y : V) s :
  call2 fn x y s = Ret (fn x y) (State (bufs s) (seqs s) (trace s ++ [EvCall])).
Proof. reflexivity. Qed.

Lemma for_in_cons {S} (x : Z) (xs : list Z) (body : Z → S → M V S) (st : S) :
  for_in (x :: xs) body st = (st' ← body x st; for_in xs body st').
Proof. reflexivity. Qed.

End Run.

(** ** Properties every step of a run preserves *)

Section Emits.
Context {V : Type}.

#[global] Instance emits_preorder (P : event V → Prop) : PreOrder (emits P).
Proof.
  split.
  - intros s. exists []. by rewrite app_nil_r.
  - intros s1 s2 s3 (e1 & H1 & F1) (e2 & H2 & F2). exists (e1 ++ e2).
    rewrite H2, H1, app_assoc. split; [done|]. by apply Forall_app.
Qed.

#[global] Instance frame_preorder (out : loc) : PreOrder (frame (V:=V) out).
Proof.
  split.
  - by intros s.
  - intros s1 s2 s3 [H1 G1] [H2 G2]. split; [congruence|].
    intros l Hl. by rewrite G2, G1.
Qed.

End Emits.

Section Preserve.
Context {V : Type}.
(** [R] relates the store a call starts in with the one it leaves; [E] holds
    of the exceptions it may raise. [okev] and [okst] are the events and the
    buffer stores [R] allows. *)
Variable R : relation (state V).
Context `{!PreOrder R}.
Variable E : exn → Prop.
Variable okev : event V → Prop.
Variable okst : loc → Prop.
Hypothesis R_emit : ∀ ev s,
  okev ev → R s (State (bufs s) (seqs s) (trace s ++ [ev])).
Hypothesis R_store : ∀ l b s,
  okst l → R s (State (<[l := b]> (bufs s)) (seqs s) (trace s)).
Hypothesis E_index : E IndexError.
Hypothesis E_dangling : E Dangling.

Lemma preserves_ret {A} (a : A) : preserves R E (mret a).
Proof. intros s. simpl. reflexivity. Qed.

Lemma preserves_bind {A B} (m : M V A) (f : A → M V B) :
  preserves R E m → (∀ a, preserves R E (f a)) → preserves R E (m ≫= f).
Proof.
  intros Hm Hf s. rewrite run_bind. specialize (Hm s).
  destruct (m s) as [a s'|e s']; [|done].
  specialize (Hf a s'). destruct (f a s') as [b s''|e s''].
  - by etrans.
  - destruct Hf. split; [by etrans|done].
Qed.

Lemma preserves_from_option {A} (e : exn) (o : option A) :
  E e → preserves R E (from_option e o).
Proof. intros He s. destruct o; simpl; [reflexivity|]. split; [reflexivity|done]. Qed.

Lemma preserves_emit ev : okev ev → preserves R E (emit ev).
Proof. intros H s. simpl. by apply R_emit. Qed.

Lemma preserves_seq_load l : preserves R E (seq_load l).
Proof. intros s. unfold seq_load. apply preserves_from_option, E_dangling. Qed.

Lemma preserves_buf_load l : preserves R E (buf_load l).
Proof. intros s. unfold buf_load. apply preserves_from_option, E_dangling. Qed.

Lemma preserves_buf_store l b : okst l → preserves R E (buf_store l b).
Proof. intros H s. simpl. by apply R_store. Qed.

Lemma preserves_for_in {S} (xs : list Z) (body : Z → S → M V S) (x : S) :
  (∀ i y, preserves R E (body i y)) → preserves R E (for_in xs body x).
Proof.
  intros Hb. revert x. induction xs as [|i xs IH]; intros x; simpl.
  - apply preserves_ret.
  - apply preserves_bind; [apply Hb|apply IH].
Qed.

Local Ltac pres :=
  repeat first
    [ apply preserves_ret
    | apply preserves_from_option; assumption
    | apply preserves_seq_load
    | apply preserves_buf_load
    | apply preserves_buf_store; assumption
    | apply preserves_emit; solve [auto]
    | apply preserves_for_in; intros
    | apply preserves_bind; [|intros]
    | case_decide ].

Lemma preserves_lst_get xs i : preserves R E (lst_get xs i).
Proof. unfold lst_get. pres. Qed.

Lemma preserves_lst_set xs i v : preserves R E (lst_set xs i v).
Proof. unfold lst_set. pres. Qed.

Lemma preserves_seq_get l i : preserves R E (seq_get l i).
Proof. unfold seq_get. pres. Qed.

Lemma preserves_seq_len l : preserves R E (seq_len l).
Proof. unfold seq_len. pres. Qed.

Lemma preserves_call_index_to_position index l :
  preserves R E (call_index_to_position index l).
Proof. unfold call_index_to_position. pres. Qed.

Lemma preserves_call_broadcast_index bi l1 l2 oi :
  preserves R E (call_broadcast_index bi l1 l2 oi).
Proof. unfold call_broadcast_index. pres. Qed.

Lemma preserves_buf_get l i :
  (∀ k, okev (EvRead l k)) → preserves R E (buf_get l i).
Proof. intros H. unfold buf_get. pres. Qed.

Lemma preserves_buf_set l i v :
  okst l → (∀ k, okev (EvWrite l k v)) → preserves R E (buf_set l i v).
Proof. intros H1 H2. unfold buf_set. pres. Qed.

Lemma preserves_call1 (fn : V → V) x : okev EvCall → preserves R E (call1 fn x).
Proof. intros H. unfold call1. pres. Qed.

Lemma preserves_call2 (fn : V → V → V) x y : okev EvCall → preserves R E (call2 fn x y).
Proof. intros H. unfold call2. pres. Qed.

Local Ltac pres_kernel :=
  repeat first
    [ apply preserves_ret
    | apply preserves_seq_get
    | apply preserves_seq_len
    | apply preserves_lst_get
    | apply preserves_lst_set
    | apply preserves_call_index_to_position
    | apply preserves_call_broadcast_index
    | apply preserves_buf_get; solve [auto]
    | apply preserves_buf_set; solve [auto]
    | apply preserves_call1; assumption
    | apply preserves_call2; assumption
    | apply preserves_for_in; intros
    | apply preserves_bind; [|intros]
    | case_decide
    | solve [auto] ].

Lemma preserves_map fn out out_shape out_strides in_storage in_shape in_strides :
  okst out → okev EvCall →
  (∀ k, okev (EvRead in_storage k)) → (∀ k v, okev (EvWrite out k v)) →
  preserves R E (_map fn out out_shape out_strides in_storage in_shape in_strides).
Proof.
  intros Hst Hcall Hrd Hwr. unfold _map.
  apply preserves_bind; [apply preserves_seq_len|]. intros len.
  cut (∀ rem cur idx, preserves R E
         (map_recursive_set fn out out_shape out_strides in_storage in_shape in_strides len rem cur idx)); [by intros H|].
  intros rem. induction rem as [|rem IH]; intros cur idx; simpl; pres_kernel.
Qed.

Lemma preserves_zip fn out out_shape out_strides a_storage a_shape a_strides
    b_storage b_shape b_strides :
  okst out → okev EvCall →
  (∀ k, okev (EvRead a_storage k)) → (∀ k, okev (EvRead b_storage k)) →
  (∀ k v, okev (EvWrite out k v)) →
  preserves R E (_zip fn out out_shape out_strides a_storage a_shape a_strides
               b_storage b_shape b_strides).
Proof.
  intros Hst Hcall Hra Hrb Hwr. unfold _zip.
  apply preserves_bind; [apply preserves_seq_len|]. intros len.
  cut (∀ rem cur idx, preserves R E
         (zip_recursive_set fn out out_shape out_strides a_storage a_shape a_strides
                b_storage b_shape b_strides len rem cur idx)); [by intros H|].
  intros rem. induction rem as [|rem IH]; intros cur idx; simpl; pres_kernel.
Qed.

Lemma preserves_reduce fn out out_shape out_strides a_storage a_shape a_strides
    reduce_dim :
  okst out → okev EvCall →
  (∀ k, okev (EvRead a_storage k)) → (∀ k, okev (EvRead out k)) →
  (∀ k v, okev (EvWrite out k v)) →
  preserves R E (_reduce fn out out_shape out_strides a_storage a_shape a_strides
               reduce_dim).
Proof.
  intros Hst Hcall Hra Hro Hwr. unfold _reduce.
  apply preserves_bind; [apply preserves_seq_len|]. intros len.
  cut (∀ rem cur idx, preserves R E
         (reduce_recursive_set fn out out_strides a_storage a_shape a_strides
                reduce_dim rem cur idx)); [by intros H|].
  intros rem. induction rem as [|rem IH]; intros cur idx; simpl; pres_kernel.
Qed.

End Preserve.

Lemma preserves_state_of {V A} (R : relation (state V)) (E : exn → Prop)
    (m : M V A) (s : state V) :
  preserves R E m → R s (state_of (m s)).
Proof. intros H. specialize (H s). destruct (m s); simpl; tauto. Qed.

Lemma frame_emit {V} (out : loc) (ev : event V) (s : state V) :
  frame out s (State (bufs s) (seqs s) (trace s ++ [ev])).
Proof. by split. Qed.

Lemma frame_store {V} (out l : loc) (b : list V) (s : state V) :
  l = out → frame out s (State (<[l := b]> (bufs s)) (seqs s) (trace s)).
Proof.
  intros ->. split; [done|]. intros l Hl. simpl. by rewrite lookup_insert_ne.
Qed.

Lemma emits_emit {V} (P : event V → Prop) (ev : event V) (s : state V) :
  P ev → emits P s (State (bufs s) (seqs s) (trace s ++ [ev])).
Proof. intros H. exists [ev]. split; [done|]. by apply Forall_singleton. Qed.

Lemma emits_store {V} (P : event V → Prop) (l : loc) (b : list V) (s : state V) :
  True → emits P s (State (<[l := b]> (bufs s)) (seqs s) (trace s)).
Proof. intros _. exists []. split; [by rewrite app_nil_r|done]. Qed.
(** ** The index projection *)

Lemma broadcast_filter_aligned (shape : list Z) : ∀ (c out : list Z),
  length out = length shape → length c = length shape →
  Forall (λ i, (0 ≤ i)%Z) c →
  filter (λ i, i ≠ (-1)%Z)
    (imap (λ j _, match shape !! j with
                  | Some 1%Z => 0%Z
                  | _ => default 0%Z (c !! j)
                  end) out)
  = zip_with (λ i d, if decide (d = 1%Z) then 0%Z else i) c shape.
Proof.
  induction shape as [|d shape IH]; intros c out Hout Hc Hpos.
  - destruct out; [|done]. by destruct c.
  - destruct out as [|y out]; [done|]. destruct c as [|x c]; [done|].
    apply Forall_cons in Hpos as [Hx Hpos]. simpl in Hout, Hc.
    cbn [imap zip_with lookup list_lookup default from_option].
    rewrite filter_cons_True.
    + f_equal.
      * destruct d as [|[]|]; try done.
      * apply IH; [lia|lia|done].
    + destruct d as [|[]|]; simpl; lia.
Qed.

Lemma broadcast_filter_skip (d : nat) : ∀ (shape c out : list Z),
  length out = d + length shape → length c = d + length shape →
  Forall (λ i, (0 ≤ i)%Z) c →
  filter (λ i, i ≠ (-1)%Z)
    (imap (λ j _, if decide (j < d) then (-1)%Z
                  else match shape !! (j - d) with
                       | Some 1%Z => 0%Z
                       | _ => default 0%Z (c !! j)
                       end) out)
  = zip_with (λ i d, if decide (d = 1%Z) then 0%Z else i) (drop d c) shape.
Proof.
  induction d as [|d IH]; intros shape c out Hout Hc Hpos.
  - rewrite drop_0, <- (broadcast_filter_aligned shape c out) by done.
    f_equal. apply imap_ext. intros j y _. simpl. by rewrite Nat.sub_0_r.
  - destruct out as [|y out]; [done|]. destruct c as [|x c]; [done|].
    apply Forall_cons in Hpos as [Hx Hpos]. simpl in Hout, Hc.
    cbn [imap drop]. rewrite decide_True by lia.
    rewrite filter_cons_False by (intros H; by apply H).
    rewrite <- (IH shape c out) by (done || lia).
    f_equal. apply imap_ext. intros j z _. simpl.
    destruct (decide (j < d)).
    + by rewrite decide_True by lia.
    + by rewrite decide_False by lia.
Qed.

(** On a coordinate of the output shape, what lines 63-65 compute is the
    coordinate of spec 4.2. *)
Lemma map_in_index_project (out_shape in_shape c : list Z) :
  length c = length out_shape → length in_shape ≤ length out_shape →
  Forall (λ i, (0 ≤ i)%Z) c →
  map_in_index out_shape in_shape c = broadcast_project c in_shape.
Proof.
  intros Hc Hle Hpos. unfold map_in_index, broadcast_index, broadcast_project.
  rewrite Hc.
  rewrite <- (broadcast_filter_skip (length out_shape - length in_shape)
                in_shape c (replicate (length out_shape) 0%Z));
    [|rewrite length_replicate; lia|lia|done].
  f_equal. apply imap_ext. intros j y _. simpl.
  destruct (decide (j + length in_shape < length out_shape)).
  - by rewrite decide_True by lia.
  - rewrite decide_False by lia.
    by replace (j + length in_shape - length out_shape)
      with (j - (length out_shape - length in_shape)) by lia.
Qed.

(** ** The coordinates a traversal visits *)

Lemma map_visits_prefix (rest : list Z) : ∀ (pre c : list Z),
  c ∈ map_visits pre rest → ∃ d, c = pre ++ d ∧ length d = length rest.
Proof.
  induction rest as [|n rest IH]; intros pre c Hc; simpl in Hc.
  - by apply elem_of_nil in Hc.
  - apply list_elem_of_bind in Hc as (i & Hc & _).
    apply elem_of_cons in Hc as [->|Hc].
    + eexists. split; [done|]. simpl. by rewrite length_replicate.
    + apply IH in Hc as (d & -> & Hd). exists (i :: d).
      split; [by rewrite <- app_assoc|]. simpl. by rewrite Hd.
Qed.

Lemma map_visits_in_bounds (rest : list Z) : ∀ (pre c : list Z),
  Forall (λ n, (0 < n)%Z) rest →
  c ∈ map_visits pre rest → ∃ d, c = pre ++ d ∧ in_bounds rest d.
Proof.
  induction rest as [|n rest IH]; intros pre c Hpos Hc; simpl in Hc.
  - by apply elem_of_nil in Hc.
  - apply Forall_cons in Hpos as [Hn Hpos].
    apply list_elem_of_bind in Hc as (i & Hc & Hi).
    apply elem_of_seqZ in Hi.
    apply elem_of_cons in Hc as [->|Hc].
    + eexists. split; [done|]. constructor; [lia|].
      clear -Hpos. induction Hpos; simpl; constructor; [lia|done].
    + apply IH in Hc as (d & -> & Hd); [|done]. exists (i :: d).
      split; [by rewrite <- app_assoc|]. constructor; [lia|done].
Qed.

Lemma filter_none {A} (P : A → Prop) `{!∀ x, Decision (P x)} (l : list A) :
  (∀ x, x ∈ l → ¬ P x) → filter P l = [].
Proof.
  induction l as [|x l IH]; intros Hl; [done|].
  rewrite filter_cons_False by (apply Hl; left).
  apply IH. intros y Hy. apply Hl. by right.
Qed.

Lemma filter_bind_single {A} (P : A → Prop) `{!∀ x, Decision (P x)}
    (js : list Z) (j : Z) (f : Z → list A) :
  NoDup js → (∀ i, i ≠ j → filter P (f i) = []) →
  length (filter P (js ≫= f))
  = if decide (j ∈ js) then length (filter P (f j)) else 0.
Proof.
  intros Hnd Hf. induction Hnd as [|i js Hi Hnd IH].
  - by rewrite decide_False by apply not_elem_of_nil.
  - rewrite bind_cons, filter_app, length_app, IH.
    destruct (decide (i = j)) as [->|Hij].
    + rewrite (decide_True (P:=j ∈ j :: js)) by left.
      rewrite decide_False by done. lia.
    + rewrite (Hf i Hij). simpl.
      destruct (decide (j ∈ js)) as [Hj|Hj].
      * by rewrite decide_True by by right.
      * rewrite decide_False; [done|].
        intros [?|?]%elem_of_cons; congruence.
Qed.

Lemma nvisits_bounds (d : list Z) : d ≠ [] → 1 ≤ nvisits d ≤ length d.
Proof.
  induction d as [|j d IH]; [done|]. intros _. simpl nvisits. simpl length.
  destruct d as [|j' d'].
  - rewrite decide_True by constructor. simpl. lia.
  - specialize (IH ltac:(done)). case_decide; lia.
Qed.

(** A coordinate of the shape is visited [nvisits] times. *)
Lemma map_visits_count (rest : list Z) : ∀ (pre d : list Z),
  in_bounds rest d →
  length (filter (λ c, c = pre ++ d) (map_visits pre rest)) = nvisits d.
Proof.
  induction rest as [|n rest IH]; intros pre d Hd.
  - by apply Forall2_nil_inv_r in Hd as ->.
  - apply Forall2_cons_inv_r in Hd as (j & d' & Hj & Hd' & ->).
    simpl map_visits. unfold py_range.
    rewrite (filter_bind_single _ _ j).
    + rewrite decide_True by (apply elem_of_seqZ; lia).
      assert (length d' = length rest) as Hlen by by eapply Forall2_length.
      pose proof (IH (pre ++ [j]) d' Hd') as IH'.
      rewrite <- app_assoc, <- cons_middle in IH'.
      rewrite filter_cons. simpl nvisits.
      destruct (decide (Forall (λ i, i = 0%Z) d')) as [Hz|Hz].
      * rewrite decide_True; [simpl; by rewrite IH'|]. f_equal. f_equal.
        rewrite <- Hlen. clear -Hz. induction Hz; simpl; congruence.
      * rewrite decide_False; [by rewrite IH'|]. intros [= Heq]%app_inv_head.
        apply Hz. rewrite <- Heq. by apply Forall_replicate.
    + apply NoDup_seqZ.
    + intros i Hi. apply filter_none. intros c Hc Heq.
      apply elem_of_cons in Hc as [->|Hc].
      * apply app_inv_head in Heq. congruence.
      * apply map_visits_prefix in Hc as (d & -> & _).
        rewrite <- app_assoc in Heq. apply app_inv_head in Heq.
        simpl in Heq. congruence.
Qed.

Lemma map_visits_elem (rest pre d : list Z) :
  d ≠ [] → in_bounds rest d → pre ++ d ∈ map_visits pre rest.
Proof.
  intros Hne Hd.
  pose proof (map_visits_count rest pre d Hd) as Hcnt.
  pose proof (nvisits_bounds d Hne) as [Hn _].
  destruct (filter (λ c, c = pre ++ d) (map_visits pre rest)) as [|c cs] eqn:Hf.
  - simpl in Hcnt. lia.
  - assert (c ∈ filter (λ c, c = pre ++ d) (map_visits pre rest)) as Hc
      by (rewrite Hf; left).
    apply list_elem_of_filter in Hc as [-> Hc]. done.
Qed.

(** ** Stores and coordinates during a traversal *)

Lemma upd_upd {V} (out : loc) (s : state V) o1 e1 o2 e2 :
  upd out (upd out s o1 e1) o2 e2 = upd out s o2 (e1 ++ e2).
Proof. unfold upd. simpl. by rewrite insert_insert_eq, app_assoc. Qed.

Lemma upd_id {V} (out : loc) (s : state V) o :
  bufs s !! out = Some o → upd out s o [] = s.
Proof.
  intros H. destruct s as [b q t]. unfold upd. simpl in *.
  by rewrite insert_id, app_nil_r.
Qed.

(** [cur[shape_index] = i] on a list whose prefix [pre] has [shape_index]
    entries. *)
Lemma lst_set_middle {V} (pre : list Z) (x j : Z) (t : list Z) (s : state V) :
  lst_set (pre ++ x :: t) (Z.of_nat (length pre)) j s = Ret (pre ++ j :: t) s.
Proof.
  rewrite (run_lst_set _ _ _ (length pre)).
  - by rewrite insert_app_r_alt, Nat.sub_diag.
  - apply py_index_nat. rewrite length_app. simpl. lia.
Qed.

(** The coordinate a level of the traversal stops at is a coordinate of the
    shape, when the dimensions are positive. *)
Lemma in_bounds_visit (shape shp_pre rest pre : list Z) (n j : Z) :
  Forall (λ n, (0 < n)%Z) shape →
  shape = shp_pre ++ n :: rest → in_bounds shp_pre pre → (0 ≤ j < n)%Z →
  in_bounds shape (pre ++ j :: replicate (length rest) 0%Z).
Proof.
  intros Hdims HO Hpre Hj. unfold in_bounds in *. rewrite HO.
  apply Forall2_app; [done|]. constructor; [done|].
  rewrite HO in Hdims. apply Forall_app in Hdims as [_ Hd].
  apply Forall_cons in Hd as [_ Hd].
  clear -Hd. induction rest as [|r rest' IH]; simpl; [constructor|].
  apply Forall_cons in Hd as [Hr Hd]. constructor; [lia|by apply IH].
Qed.

(** ** The run of [_map] on well-formed arguments *)

Section MapRun.
Context {V : Type}.
Variable fn : V → V.
Variables out out_shape out_strides in_storage in_shape in_strides : loc.
Variables OSH OSTR ISH ISTR : list Z.
Variable a : list V.
Variable N : nat.

Local Abbreviation out_pos := (map_out_pos OSTR).
Local Abbreviation in_pos := (map_in_pos OSH ISH ISTR).
Local Abbreviation cell_write := (map_cell_write fn OSH OSTR ISH ISTR a).
Local Abbreviation cell_events := (map_cell_events fn out in_storage OSH OSTR ISH ISTR a).
Local Abbreviation store := (map_store out out_shape out_strides in_storage
                           in_shape in_strides OSH OSTR ISH ISTR a N).
Local Abbreviation updo := (upd out).

Hypothesis Hne : out ≠ in_storage.
Hypothesis Hdims : Forall (λ n, (0 < n)%Z) OSH.
Hypothesis Hopos : ∀ c, in_bounds OSH c → (0 ≤ out_pos c < Z.of_nat N)%Z.
Hypothesis Hipos : ∀ c,
  in_bounds OSH c → (0 ≤ in_pos c < Z.of_nat (length a))%Z.

Lemma map_cell_write_length o c : length (cell_write o c) = length o.
Proof. unfold map_cell_write. case_match; [apply length_insert|done]. Qed.

Lemma map_cells_length cs o : length (foldl cell_write o cs) = length o.
Proof.
  revert o. induction cs as [|c cs IH]; intros o; simpl; [done|].
  by rewrite IH, map_cell_write_length.
Qed.

Lemma map_store_upd s o o' evs :
  store s o → length o' = N → store (updo s o' evs) o'.
Proof.
  intros (?&?&?&?&?&?&?) Hl. unfold map_store, upd. simpl.
  rewrite lookup_insert_eq, lookup_insert_ne by done. done.
Qed.

(** One pass through lines 63-70 at an in-bounds coordinate. *)
Lemma map_cell_run {A} (c : list Z) (k : unit → M V A) s o :
  store s o → in_bounds OSH c →
  (cur_in_index ← call_broadcast_index c out_shape in_shape
                    (replicate (length OSH) 0%Z);
   let cur_in_index := filter (λ i, i ≠ (-1)%Z) cur_in_index in
   in_storage_position ← call_index_to_position cur_in_index in_strides;
   out_storage_position ← call_index_to_position c out_strides;
   x ← buf_get in_storage in_storage_position;
   y ← call1 fn x;
   buf_set out out_storage_position y ≫= k) s
  = k tt (updo s (cell_write o c) (cell_events c)).
Proof.
  intros (Hosh&Hostr&Hish&Histr&Ha&Ho&HN) Hc.
  pose proof (Hopos c Hc) as Hop. pose proof (Hipos c Hc) as Hip.
  destruct (lookup_lt_is_Some_2 a (Z.to_nat (in_pos c))) as [x Hx]; [lia|].
  rewrite run_bind, (run_call_broadcast_index _ _ _ _ _ _ _ Hosh Hish).
  cbv beta iota zeta.
  rewrite run_bind, (run_call_index_to_position _ _ _ _ Histr).
  rewrite run_bind, (run_call_index_to_position _ _ _ _ Hostr).
  cbv beta iota.
  change (index_to_position (filter _ _) ISTR) with (in_pos c).
  change (index_to_position c OSTR) with (out_pos c).
  rewrite run_bind, (run_buf_get _ _ _ _ _ Ha Hip Hx).
  cbv beta iota.
  rewrite run_bind, run_call1. cbv beta iota.
  rewrite run_bind, (run_buf_set _ o) by (simpl; first [done|lia]).
  unfold upd, map_cell_write, map_cell_events. rewrite Hx. simpl.
  by rewrite <- !app_assoc.
Qed.

Lemma map_recursive_set_run (rest : list Z) :
  ∀ (shp_pre pre : list Z) s o,
  OSH = shp_pre ++ rest → in_bounds shp_pre pre → store s o →
  map_recursive_set fn out out_shape out_strides in_storage in_shape in_strides
    (length OSH) (length rest) (pre ++ replicate (length rest) 0%Z) (length pre) s
  = Ret tt (updo s (foldl cell_write o (map_visits pre rest))
                  (map_visits pre rest ≫= cell_events)).
Proof.
  induction rest as [|n rest IH]; intros shp_pre pre s o HO Hpre Hs.
  - simpl. rewrite upd_id; [done|]. by destruct Hs as (?&?&?&?&?&?&?).
  - assert (length pre = length shp_pre) as Hlen by by eapply Forall2_length.
    assert (OSH !! length pre = Some n) as Hn.
    { rewrite HO, Hlen. by apply list_lookup_middle. }
    cbn [length map_recursive_set].
    destruct Hs as (Hosh&Hostr&Hish&Histr&Ha&Ho&HN).
    rewrite run_bind, (run_seq_get _ _ _ _ _ Hosh Hn). cbv beta iota.
    rewrite run_bind.
    match goal with |- context [for_in _ ?b _ _] => set (body := b) end.
    set (block := λ i : Z,
      (pre ++ i :: replicate (length rest) 0%Z) :: map_visits (pre ++ [i]) rest).
    assert (∀ js x s o, Forall (λ j, (0 ≤ j < n)%Z) js → store s o →
      ∃ x', for_in js body (pre ++ x :: replicate (length rest) 0%Z) s
        = Ret (pre ++ x' :: replicate (length rest) 0%Z)
            (updo s (foldl cell_write o (js ≫= block))
               ((js ≫= block) ≫= cell_events))) as Hloop.
    { clear s o Hosh Hostr Hish Histr Ha Ho HN.
      induction js as [|j js IHjs]; intros x s o Hjs Hs.
      - exists x. simpl. rewrite upd_id; [done|]. by destruct Hs as (?&?&?&?&?&?&?).
      - apply Forall_cons in Hjs as [Hj Hjs].
        pose proof (in_bounds_visit _ _ _ _ _ _ Hdims HO Hpre Hj) as Hc.
        rewrite for_in_cons, run_bind. unfold body at 1.
        rewrite run_bind, (lst_set_middle pre). cbv beta iota.
        rewrite (map_cell_run _ _ _ _ Hs Hc). cbv beta.
        assert (store
          (updo s (cell_write o (pre ++ j :: replicate (length rest) 0%Z))
             (cell_events (pre ++ j :: replicate (length rest) 0%Z)))
          (cell_write o (pre ++ j :: replicate (length rest) 0%Z))) as Hs1.
        { apply map_store_upd with o; [done|]. rewrite map_cell_write_length.
          by destruct Hs as (?&?&?&?&?&?&?). }
        rewrite run_bind.
        assert (OSH = (shp_pre ++ [n]) ++ rest) as HO' by by rewrite <- app_assoc.
        assert (in_bounds (shp_pre ++ [n]) (pre ++ [j])) as Hpre'.
        { apply Forall2_app; [done|]. by constructor. }
        pose proof (IH _ _ _ _ HO' Hpre' Hs1) as IH1.
        rewrite <- app_assoc, <- cons_middle, length_app, Nat.add_1_r in IH1.
        rewrite IH1.
        cbv beta iota. rewrite run_ret. cbv beta iota.
        rewrite upd_upd.
        edestruct (IHjs j) as [x' Hx']; [done| |].
        { apply map_store_upd with (o:=o); [done|].
          rewrite map_cells_length, map_cell_write_length. by destruct Hs as (?&?&?&?&?&?&?). }
        exists x'. rewrite Hx', upd_upd. f_equal. f_equal.
        + rewrite bind_cons, foldl_app. done.
        + rewrite bind_cons, bind_app. unfold block. cbv beta. by rewrite bind_cons. }
    destruct (Hloop (py_range 0 n) 0%Z s o) as [x' Hx'].
    { unfold py_range. apply Forall_seqZ. intros j Hj. lia. }
    { done. }
    change (replicate (S (length rest)) 0%Z) with (0%Z :: replicate (length rest) 0%Z).
    rewrite Hx'. done.
Qed.

Lemma map_run s o :
  store s o →
  _map fn out out_shape out_strides in_storage in_shape in_strides s
  = Ret tt (updo s (foldl cell_write o (map_visits [] OSH))
                  (map_visits [] OSH ≫= cell_events)).
Proof.
  intros Hs. unfold _map.
  rewrite run_bind, (run_seq_len _ OSH) by by destruct Hs.
  cbv beta iota.
  apply (map_recursive_set_run OSH [] []); [done|constructor|done].
Qed.

Hypothesis Hinj : ∀ c c',
  in_bounds OSH c → in_bounds OSH c' → out_pos c = out_pos c' → c = c'.

Lemma map_cells_lookup (cs : list (list Z)) (o : list V) (c : list Z) (x : V) :
  Forall (in_bounds OSH) cs → in_bounds OSH c → c ∈ cs → length o = N →
  a !! Z.to_nat (in_pos c) = Some x →
  foldl cell_write o cs !! Z.to_nat (out_pos c) = Some (fn x).
Proof.
  intros Hcs Hc Hin Ho Hx. revert Hcs Hin.
  induction cs as [|c' cs IH] using rev_ind; intros Hcs Hin.
  - by apply elem_of_nil in Hin.
  - apply Forall_app in Hcs as [Hcs Hc']. apply Forall_inv in Hc'.
    rewrite foldl_app. simpl. unfold map_cell_write at 1.
    destruct (lookup_lt_is_Some_2 a (Z.to_nat (in_pos c'))) as [x' Hx'].
    { pose proof (Hipos c' Hc'). lia. }
    rewrite Hx'.
    destruct (decide (c' = c)) as [->|Hcc].
    + rewrite Hx in Hx'. injection Hx' as <-.
      apply list_lookup_insert_eq. rewrite map_cells_length, Ho.
      pose proof (Hopos c Hc). lia.
    + rewrite list_lookup_insert_ne.
      * apply IH; [done|]. apply elem_of_app in Hin as [?|Hin]; [done|].
        apply list_elem_of_singleton in Hin. congruence.
      * intros Heq. apply Hcc, Hinj; [done..|].
        pose proof (Hopos c Hc). pose proof (Hopos c' Hc'). lia.
Qed.

Lemma map_events_writes (cs : list (list Z)) (c : list Z) :
  Forall (in_bounds OSH) cs → in_bounds OSH c →
  writes_to out (Z.to_nat (out_pos c)) (cs ≫= cell_events)
  = length (filter (λ c', c' = c) cs).
Proof.
  intros Hcs Hc. unfold writes_to.
  induction Hcs as [|c' cs Hc' Hcs IH]; [done|].
  rewrite bind_cons, filter_app, length_app, IH, filter_cons.
  unfold map_cell_events.
  destruct (lookup_lt_is_Some_2 a (Z.to_nat (in_pos c'))) as [x' Hx'].
  { pose proof (Hipos c' Hc'). lia. }
  rewrite Hx'.
  rewrite filter_cons_False by (simpl; done).
  rewrite filter_cons_False by (simpl; done).
  rewrite filter_cons. simpl is_write.
  rewrite bool_decide_eq_true_2 by done. simpl andb.
  destruct (decide (c' = c)) as [->|Hcc].
  - rewrite decide_True; [done|]. by apply bool_decide_eq_true_2.
  - rewrite decide_False; [done|]. intros Heq%bool_decide_eq_true_1.
    apply Hcc, Hinj; [done..|].
    pose proof (Hopos c Hc). pose proof (Hopos c' Hc'). lia.
Qed.

Lemma map_events_values (cs : list (list Z)) (c : list Z) (x v : V) :
  Forall (in_bounds OSH) cs → in_bounds OSH c →
  a !! Z.to_nat (in_pos c) = Some x →
  EvWrite out (Z.to_nat (out_pos c)) v ∈ cs ≫= cell_events → v = fn x.
Proof.
  intros Hcs Hc Hx Hev.
  apply list_elem_of_bind in Hev as (c' & Hev & Hc'in).
  rewrite Forall_forall in Hcs. specialize (Hcs c' Hc'in).
  unfold map_cell_events in Hev.
  destruct (a !! Z.to_nat (in_pos c')) as [x'|] eqn:Hx';
    [|by apply elem_of_nil in Hev].
  repeat (apply elem_of_cons in Hev as [Hev|Hev]; try discriminate).
  - injection Hev as Hk ->.
    assert (c' = c) as ->.
    { apply Hinj; [done..|].
      pose proof (Hopos c Hc). pose proof (Hopos c' Hcs). lia. }
    congruence.
  - by apply elem_of_nil in Hev.
Qed.

Lemma map_events_no_read (cs : list (list Z)) :
  Forall (λ ev, is_read out ev = false) (cs ≫= cell_events).
Proof.
  induction cs as [|c cs IH]; [constructor|].
  rewrite bind_cons. apply Forall_app. split; [|done].
  unfold map_cell_events. case_match; [|constructor].
  repeat constructor. simpl. by apply bool_decide_eq_false_2.
Qed.

End MapRun.

(** ** The map kernel, cell by cell *)

(** C3 (as amended).  Let [_map] run on an output of rank at least 1 whose
    dimensions are positive, with an output buffer distinct from the input
    buffer, where every output coordinate addresses a cell of the output
    buffer and its projection a cell of the input buffer, and distinct output
    coordinates address distinct cells.  Then the kernel returns, and for
    every coordinate [c] of the output shape the output cell at
    [index_to_position c out_strides] holds [fn] of the input cell at
    [index_to_position (broadcast of c) in_strides]; that cell was written
    [nvisits c] times, once for each level of the recursion below which the
    coordinate is all zeros (at least once, at most rank times), each time
    with that same value; and no cell of the output buffer was read. *)
Theorem map_kernel_cells {V} (fn : V → V)
    (out out_shape out_strides in_storage in_shape in_strides : loc)
    (OSH OSTR ISH ISTR : list Z) (a o : list V) (s : state V) :
  out ≠ in_storage →
  seqs s !! out_shape = Some OSH → seqs s !! out_strides = Some OSTR →
  seqs s !! in_shape = Some ISH → seqs s !! in_strides = Some ISTR →
  bufs s !! in_storage = Some a → bufs s !! out = Some o →
  Forall (λ n, (0 < n)%Z) OSH →
  (∀ c, in_bounds OSH c → (0 ≤ map_out_pos OSTR c < Z.of_nat (length o))%Z) →
  (∀ c, in_bounds OSH c →
        (0 ≤ map_in_pos OSH ISH ISTR c < Z.of_nat (length a))%Z) →
  (∀ c c', in_bounds OSH c → in_bounds OSH c' →
           map_out_pos OSTR c = map_out_pos OSTR c' → c = c') →
  ∃ o' evs,
    _map fn out out_shape out_strides in_storage in_shape in_strides s
    = Ret tt (State (<[out := o']> (bufs s)) (seqs s) (trace s ++ evs)) ∧
    Forall (λ ev, is_read out ev = false) evs ∧
    ∀ c, c ≠ [] → in_bounds OSH c →
      ∃ x, a !! Z.to_nat (map_in_pos OSH ISH ISTR c) = Some x ∧
           o' !! Z.to_nat (map_out_pos OSTR c) = Some (fn x) ∧
           writes_to out (Z.to_nat (map_out_pos OSTR c)) evs = nvisits c ∧
           1 ≤ nvisits c ≤ length OSH ∧
           ∀ v, EvWrite out (Z.to_nat (map_out_pos OSTR c)) v ∈ evs → v = fn x.
Proof.
  intros Hne Hosh Hostr Hish Histr Ha Ho Hdims Hopos Hipos Hinj.
  set (cs := map_visits [] OSH).
  exists (foldl (map_cell_write fn OSH OSTR ISH ISTR a) o cs),
    (cs ≫= map_cell_events fn out in_storage OSH OSTR ISH ISTR a).
  assert (Forall (in_bounds OSH) cs) as Hcs.
  { apply Forall_forall. intros c Hc.
    by apply map_visits_in_bounds in Hc as (d & -> & Hd). }
  split; [|split].
  - apply (map_run fn out out_shape out_strides in_storage in_shape in_strides
             OSH OSTR ISH ISTR a (length o)); done.
  - by apply map_events_no_read.
  - intros c Hc0 Hc.
    destruct (lookup_lt_is_Some_2 a (Z.to_nat (map_in_pos OSH ISH ISTR c)))
      as [x Hx].
    { pose proof (Hipos c Hc). lia. }
    exists x. split; [done|]. split; [|split; [|split]].
    + apply (map_cells_lookup fn out in_storage OSH OSTR ISH ISTR a (length o));
        try done.
      by apply (map_visits_elem OSH []).
    + rewrite (map_events_writes fn out in_storage OSH OSTR ISH ISTR a (length o))
        by done.
      apply (map_visits_count OSH [] c Hc).
    + pose proof (nvisits_bounds c Hc0) as [? ?]. split; [done|].
      apply Forall2_length in Hc. lia.
    + intros v Hv.
      by apply (map_events_values fn out in_storage OSH OSTR ISH ISTR a (length o)
                  Hne Hopos Hinj cs c x v).
Qed.

(** ** Frame of the three kernels *)

(** C7.  Whatever the arguments, and whether the call returns or raises,
    [_map], [_zip] and [_reduce] leave every shape and stride sequence of the
    store as it was, and every storage buffer other than [out] as it was: an
    input buffer that is not [out] itself is unchanged. *)
Theorem kernels_mutate_only_out {V} (s : state V)
    (out out_shape out_strides a_storage a_shape a_strides
     b_storage b_shape b_strides : loc) (reduce_dim : Z) :
  (∀ fn, frame out s (state_of
     (_map fn out out_shape out_strides a_storage a_shape a_strides s))) ∧
  (∀ fn, frame out s (state_of
     (_zip fn out out_shape out_strides a_storage a_shape a_strides
        b_storage b_shape b_strides s))) ∧
  (∀ fn, frame out s (state_of
     (_reduce fn out out_shape out_strides a_storage a_shape a_strides
        reduce_dim s))).
Proof.
  split; [|split]; intros fn;
    apply (preserves_state_of (frame out) (λ _, True));
    [ eapply (preserves_map (frame out) _ (λ _, True) (λ l, l = out))
    | eapply (preserves_zip (frame out) _ (λ _, True) (λ l, l = out))
    | eapply (preserves_reduce (frame out) _ (λ _, True) (λ l, l = out)) ];
    eauto using frame_emit, frame_store.
Qed.

(** The arguments of the scenario "shape (2,3), storage 1..6, [fn = x*2]"
    satisfy the hypotheses of [map_kernel_cells]. *)
Local Ltac inv_bounds :=
  repeat match goal with
  | H : in_bounds _ _ |- _ => unfold in_bounds in H
  | H : Forall2 _ _ (_ :: _) |- _ => apply Forall2_cons_inv_r in H as (?&?&?&?&->)
  | H : Forall2 _ _ [] |- _ => apply Forall2_nil_inv_r in H as ->
  end; cbv beta in *.

Lemma map_kernel_cells_2x3 :
  ∃ o' evs,
    _map (λ x, x * 2)%float 2 1 2 1 1 2 store_map_2x3
    = Ret tt (State (<[2%positive := o']> (bufs store_map_2x3))
                (seqs store_map_2x3) (trace store_map_2x3 ++ evs)) ∧
    Forall (λ ev, is_read 2 ev = false) evs ∧
    ∀ c, c ≠ [] → in_bounds [2; 3]%Z c →
      ∃ x, [1; 2; 3; 4; 5; 6]%float
             !! Z.to_nat (map_in_pos [2; 3]%Z [2; 3]%Z [3; 1]%Z c) = Some x ∧
           o' !! Z.to_nat (map_out_pos [3; 1]%Z c) = Some (x * 2)%float ∧
           writes_to 2 (Z.to_nat (map_out_pos [3; 1]%Z c)) evs = nvisits c ∧
           1 ≤ nvisits c ≤ length [2; 3]%Z ∧
           ∀ v, EvWrite 2%positive (Z.to_nat (map_out_pos [3; 1]%Z c)) v ∈ evs →
                v = (x * 2)%float.
Proof.
  apply (map_kernel_cells (λ x, x * 2)%float 2 1 2 1 1 2
           [2; 3]%Z [3; 1]%Z [2; 3]%Z [3; 1]%Z
           [1; 2; 3; 4; 5; 6]%float (replicate 6 0%float) store_map_2x3).
  - done.
  - reflexivity.
  - reflexivity.
  - reflexivity.
  - reflexivity.
  - reflexivity.
  - reflexivity.
  - repeat constructor.
  - intros c Hc. inv_bounds. cbn. lia.
  - intros c Hc. inv_bounds. unfold map_in_pos, map_in_index. cbn.
    repeat (case_decide; try lia); cbn; lia.
  - intros c c' Hc Hc'. inv_bounds. cbn. intros Heq.
    f_equal; [|f_equal]; lia.
Defined.

(** C3 as stated fails: in the map scenario of spec section 8 the output
    cell of coordinate (0,0), at position 0, is written twice, not once (and
    the result is the one the spec gives). *)
Lemma map_2x3_writes_cell_twice :
  tensor_value (TensorOps.map 0%float (λ x, x * 2)%float a_2x3 None store_2x3)
  = Some ([2; 3]%Z, [2; 4; 6; 8; 10; 12]%float) ∧
  match TensorOps.map 0%float (λ x, x * 2)%float a_2x3 None store_2x3 with
  | Ret out s' =>
    writes_to (t_storage out) (Z.to_nat (index_to_position [0; 0]%Z [3; 1]%Z))
      (trace s') = 2
  | Raise _ _ => False
  end.
Proof. split; vm_compute; reflexivity. Qed.

(** ** The concrete scenarios *)

(** C5.  Reducing the tensor of shape (2,3) with storage [1,2,3,4,5,6] over
    dimension 1 with [fn = add] and seed 0.0 returns a tensor of shape (2,1)
    with storage [6,15]. *)
Theorem reduce_2x3_dim1_sum :
  tensor_value (TensorOps.reduce 0%float PrimFloat.add 0%float a_2x3 1 store_2x3)
  = Some ([2; 1]%Z, [6; 15]%float).
Proof. vm_compute. reflexivity. Qed.

(** C6.  Zipping [a] of shape (2,1), storage [1,2], with [b] of shape (1,3),
    storage [10,20,30], under [fn = add] returns a tensor of shape (2,3) with
    row-major storage [11,21,31,12,22,32]. *)
Theorem zip_2x1_1x3_add :
  tensor_value (TensorOps.zip 0%float PrimFloat.add a_2x1 b_1x3 store_2x1_1x3)
  = Some ([2; 3]%Z, [11; 21; 31; 12; 22; 32]%float).
Proof. vm_compute. reflexivity. Qed.

(** C1 fails on the code.  With [fn = add] and seed 10.0 the reduce of the
    (2,3) tensor over dimension 1 returns [6,15]: the seed the entry point
    stored in the output is overwritten by the first element of each row
    (lines 298-301), where the fold from the seed gives [16,25]. *)
Theorem reduce_ignores_seed :
  tensor_value (TensorOps.reduce 0%float PrimFloat.add 10%float a_2x3 1 store_2x3)
  = Some ([2; 1]%Z, [6; 15]%float) ∧
  fold_from_seed PrimFloat.add 10%float [1; 2; 3]%float = 16%float ∧
  fold_from_seed PrimFloat.add 10%float [4; 5; 6]%float = 25%float.
Proof. repeat split; vm_compute; reflexivity. Qed.

(** For rank 3 the kernel also skips cells, even with the neutral seed:
    below the outermost level the loop starts at index 1 (line 291), so the
    coordinate (0,0,1) of the (1,2,2) tensor with storage [1,2,3,4] is never
    visited.  Reducing over dimension 1 returns [4,4], where the fold gives
    [1+3, 2+4] = [4,6]. *)
Lemma reduce_rank3_skips_cells :
  tensor_value
    (TensorOps.reduce 0%float PrimFloat.add 0%float a_1x2x2 1 store_1x2x2)
  = Some ([1; 1; 2]%Z, [4; 4]%float) ∧
  fold_from_seed PrimFloat.add 0%float [2; 4]%float = 6%float.
Proof. split; vm_compute; reflexivity. Qed.

(** C2 fails on the code.  Reducing the tensor of shape (2,1) with storage
    [5,7] over dimension 1, of size 1, with [fn = add] and seed 1.0 returns
    the input [5,7] unchanged and never calls [fn], where [fn(seed, x)] gives
    [6,8]. *)
Theorem reduce_size1_copies_input :
  tensor_value (TensorOps.reduce 0%float PrimFloat.add 1%float a_2x1 1 store_2x1)
  = Some ([2; 1]%Z, [5; 7]%float) ∧
  filter (λ ev, is_call ev = true)
    (trace (state_of
       (TensorOps.reduce 0%float PrimFloat.add 1%float a_2x1 1 store_2x1))) = [] ∧
  PrimFloat.add 1 5 = 6%float ∧ PrimFloat.add 1 7 = 8%float.
Proof. repeat split; vm_compute; reflexivity. Qed.

(** ** Rank 0 *)

(** C9.  A kernel invoked with an output shape of rank 0 returns at once and
    leaves the store, trace included, as it was: no cell is written and [fn]
    is not called.  [_map] and [_zip] bound their traversal by the output
    shape (lines 42 and 164).  [_reduce] bounds it by the shape of the input
    (line 272), which has the rank of the output shape by the contract of the
    kernel (docstring, lines 254-255: the output shape is the input shape
    except for the size of the reduced dimension). *)
Theorem kernels_rank0_return {V} (s : state V) (out_shape : loc)
    (OSH : list Z) :
  seqs s !! out_shape = Some OSH → length OSH = 0 →
  (∀ fn out out_strides in_storage in_shape in_strides,
     _map fn out out_shape out_strides in_storage in_shape in_strides s
     = Ret tt s) ∧
  (∀ fn out out_strides a_storage a_shape a_strides b_storage b_shape b_strides,
     _zip fn out out_shape out_strides a_storage a_shape a_strides
       b_storage b_shape b_strides s = Ret tt s) ∧
  (∀ fn out out_strides a_storage a_shape a_strides reduce_dim ASH,
     seqs s !! a_shape = Some ASH → length ASH = length OSH →
     _reduce fn out out_shape out_strides a_storage a_shape a_strides
       reduce_dim s = Ret tt s).
Proof.
  intros Hosh Hrank. split; [|split].
  - intros. unfold _map. rewrite run_bind, (run_seq_len _ _ _ Hosh).
    cbv beta iota. by rewrite Hrank.
  - intros. unfold _zip. rewrite run_bind, (run_seq_len _ _ _ Hosh).
    cbv beta iota. by rewrite Hrank.
  - intros fn out out_strides a_storage a_shape a_strides reduce_dim ASH
      Hash Hsame.
    unfold _reduce. rewrite run_bind, (run_seq_len _ _ _ Hash).
    cbv beta iota. by rewrite Hsame, Hrank.
Qed.

(** A rank-0 output next to a rank-0 input satisfies the hypotheses, those of
    the contract of [_reduce] included. *)
Lemma kernels_rank0_return_example :
  (∀ fn out out_strides in_storage in_shape in_strides,
     _map fn out 2 out_strides in_storage in_shape in_strides store_rank0_out
     = Ret tt store_rank0_out) ∧
  (∀ fn out out_strides a_storage a_shape a_strides b_storage b_shape b_strides,
     _zip fn out 2 out_strides a_storage a_shape a_strides
       b_storage b_shape b_strides store_rank0_out = Ret tt store_rank0_out) ∧
  (∀ fn out out_strides a_storage a_strides reduce_dim,
     _reduce fn out 2 out_strides a_storage 1 a_strides reduce_dim
       store_rank0_out = Ret tt store_rank0_out).
Proof.
  destruct (kernels_rank0_return store_rank0_out 2 []) as (Hmap & Hzip & Hred);
    [reflexivity|reflexivity|].
  split; [exact Hmap|]. split; [exact Hzip|].
  intros fn out out_strides a_storage a_strides reduce_dim.
  apply (Hred fn out out_strides a_storage 1%positive a_strides reduce_dim []);
    reflexivity.
Defined.

(** ** The entry points *)

Section Entry.
Context {V : Type}.

Lemma run_alloc_buf (b : list V) (s : state V) :
  alloc_buf b s
  = Ret (fresh (dom (bufs s)))
      (State (<[fresh (dom (bufs s)) := b]> (bufs s)) (seqs s) (trace s)).
Proof. reflexivity. Qed.

Lemma run_alloc_seq (xs : list Z) (s : state V) :
  alloc_seq xs s
  = Ret (fresh (dom (seqs s)))
      (State (bufs s) (<[fresh (dom (seqs s)) := xs]> (seqs s)) (trace s)).
Proof. reflexivity. Qed.

Lemma fresh_lookup_None {A} (m : gmap loc A) : m !! fresh (dom m) = None.
Proof. apply not_elem_of_dom, is_fresh. Qed.

End Entry.

(** C8.  When [a]'s shape is [sh] and [0 <= dim < len(sh)], the entry point
    [reduce] reaches the call of the kernel in a store [s1] in which the
    output tensor [out] it passes has the shape [sh] with entry [dim] set to
    1 (and so the rank of [a]) and a storage whose cells all hold [start];
    the output storage is a new buffer and nothing has been traced yet. *)
Theorem reduce_prepares_output {V} (zero : V) (fn : V → V → V) (start : V)
    (a : tensor) (dim : Z) (s : state V) (sh : list Z) :
  seqs s !! t_shape a = Some sh → (0 ≤ dim < Z.of_nat (length sh))%Z →
  ∃ out s1,
    TensorOps.reduce zero fn start a dim s
    = (tensor_reduce fn (t_storage out) (t_shape out) (t_strides out)
         (t_storage a) (t_shape a) (t_strides a) dim;; mret out) s1 ∧
    seqs s1 !! t_shape out = Some (<[Z.to_nat dim := 1%Z]> sh) ∧
    length (<[Z.to_nat dim := 1%Z]> sh) = length sh ∧
    bufs s1 !! t_storage out
    = Some (replicate
              (Z.to_nat (foldr Z.mul 1%Z (<[Z.to_nat dim := 1%Z]> sh))) start) ∧
    bufs s !! t_storage out = None ∧ trace s1 = trace s.
Proof.
  intros Hsh Hdim. unfold TensorOps.reduce, shape.
  rewrite run_bind, (run_seq_load _ _ _ Hsh). cbv beta iota zeta.
  rewrite run_bind, (run_lst_set _ _ _ (Z.to_nat dim)) by by apply py_index_pos.
  cbv beta iota. unfold zeros.
  rewrite run_bind, run_bind, run_alloc_buf. cbv beta iota.
  rewrite run_bind, run_alloc_seq. cbv beta iota.
  rewrite run_bind, run_alloc_seq. cbv beta iota.
  rewrite run_ret. cbv beta iota.
  rewrite run_bind. unfold buf_fill, buf_load. rewrite !run_bind.
  simpl. rewrite lookup_insert_eq. simpl.
  set (l1 := fresh (dom (seqs s))).
  set (l2 := fresh (dom (<[l1 := <[Z.to_nat dim := 1%Z]> sh]> (seqs s)))).
  assert (l2 ≠ l1) as Hl.
  { intros Heq.
    apply (is_fresh (dom (<[l1 := <[Z.to_nat dim := 1%Z]> sh]> (seqs s)))).
    fold l2. rewrite Heq. apply elem_of_dom. rewrite lookup_insert_eq.
    by eexists. }
  exists (Tensor (fresh (dom (bufs s))) l1 l2). eexists.
  split; [reflexivity|]. simpl.
  rewrite lookup_insert_ne, !lookup_insert_eq by done.
  rewrite length_replicate. repeat split.
  - apply length_insert.
  - apply fresh_lookup_None.
Qed.

Lemma reduce_prepares_output_2x3 :
  ∃ out s1,
    TensorOps.reduce 0%float PrimFloat.add 7%float a_2x3 1 store_2x3
    = (tensor_reduce PrimFloat.add (t_storage out) (t_shape out) (t_strides out)
         (t_storage a_2x3) (t_shape a_2x3) (t_strides a_2x3) 1;; mret out) s1 ∧
    seqs s1 !! t_shape out = Some (<[Z.to_nat 1 := 1%Z]> [2; 3]%Z) ∧
    length (<[Z.to_nat 1 := 1%Z]> [2; 3]%Z) = length [2; 3]%Z ∧
    bufs s1 !! t_storage out
    = Some (replicate
              (Z.to_nat (foldr Z.mul 1%Z (<[Z.to_nat 1 := 1%Z]> [2; 3]%Z)))
              7%float) ∧
    bufs store_2x3 !! t_storage out = None ∧ trace s1 = trace store_2x3.
Proof.
  apply (reduce_prepares_output 0%float PrimFloat.add 7%float a_2x3 1 store_2x3
           [2; 3]%Z); [reflexivity|simpl; lia].
Defined.

(** ** [zip] on operands of equal shape *)

Section ZipEqual.
Context {V : Type}.

Lemma quiet_alloc_buf (b : list V) :
  preserves (emits quiet) not_mismatch (alloc_buf b).
Proof. intros s. simpl. exists []. by rewrite app_nil_r. Qed.

Lemma quiet_alloc_seq (xs : list Z) :
  preserves (emits quiet) not_mismatch (alloc_seq (V:=V) xs).
Proof. intros s. simpl. exists []. by rewrite app_nil_r. Qed.

Lemma quiet_zeros (zero : V) (shp : list Z) :
  preserves (emits quiet) not_mismatch (zeros zero shp).
Proof.
  unfold zeros.
  repeat first [ apply preserves_ret | apply quiet_alloc_buf
               | apply quiet_alloc_seq | apply preserves_bind; [|intros] ].
Qed.

Lemma quiet_zip (fn : V → V → V) out out_shape out_strides a_storage a_shape
    a_strides b_storage b_shape b_strides :
  preserves (emits quiet) not_mismatch
    (_zip fn out out_shape out_strides a_storage a_shape a_strides
       b_storage b_shape b_strides).
Proof.
  apply (preserves_zip (emits quiet) not_mismatch quiet (λ _, True));
    try done.
  - intros ev s. apply emits_emit.
  - intros l b s. apply emits_store.
Qed.

End ZipEqual.

(** C10.  When [a] and [b] have the same shape, the entry point [zip] does
    not call [shape_broadcast] (no such call is traced) and does not raise
    ShapeMismatch: it allocates the output with [a]'s shape. *)
Theorem zip_equal_shapes_no_broadcast {V} (zero : V) (fn : V → V → V)
    (a b : tensor) (s : state V) (sh : list Z) :
  seqs s !! t_shape a = Some sh → seqs s !! t_shape b = Some sh →
  (∀ s', TensorOps.zip zero fn a b s ≠ Raise ShapeMismatch s') ∧
  (∃ evs, trace (state_of (TensorOps.zip zero fn a b s)) = trace s ++ evs ∧
          Forall (λ ev, is_broadcast ev = false) evs) ∧
  TensorOps.zip zero fn a b s
  = (out ← zeros zero sh;
     tensor_zip fn (t_storage out) (t_shape out) (t_strides out)
       (t_storage a) (t_shape a) (t_strides a)
       (t_storage b) (t_shape b) (t_strides b);;
     mret out) s.
Proof.
  intros Ha Hb.
  assert (TensorOps.zip zero fn a b s
    = (out ← zeros zero sh;
       tensor_zip fn (t_storage out) (t_shape out) (t_strides out)
         (t_storage a) (t_shape a) (t_strides a)
         (t_storage b) (t_shape b) (t_strides b);;
       mret out) s) as Hrun.
  { unfold TensorOps.zip, shape.
    rewrite run_bind, (run_seq_load _ _ _ Ha). cbv beta iota zeta.
    rewrite run_bind, (run_seq_load _ _ _ Hb). cbv beta iota.
    rewrite decide_False by (intros H; by apply H).
    by rewrite run_bind, run_ret. }
  assert (preserves (emits quiet) not_mismatch
    (out ← zeros zero sh;
     tensor_zip fn (t_storage out) (t_shape out) (t_strides out)
       (t_storage a) (t_shape a) (t_strides a)
       (t_storage b) (t_shape b) (t_strides b);;
     mret out)) as Hp.
  { apply (preserves_bind (emits quiet) not_mismatch); [apply quiet_zeros|].
    intros out.
    apply (preserves_bind (emits quiet) not_mismatch); [apply quiet_zip|].
    intros _. apply (preserves_ret (emits quiet) not_mismatch). }
  specialize (Hp s). rewrite <- Hrun in Hp.
  split; [|split; [|done]].
  - intros s' Heq. rewrite Heq in Hp. by destruct Hp as [_ Hp].
  - destruct (TensorOps.zip zero fn a b s); simpl; [done|]. by destruct Hp.
Qed.

Lemma zip_equal_shapes_example :
  (∀ s', TensorOps.zip 0%float PrimFloat.add a_2x3 a_2x3 store_2x3
         ≠ Raise ShapeMismatch s') ∧
  (∃ evs,
     trace (state_of (TensorOps.zip 0%float PrimFloat.add a_2x3 a_2x3 store_2x3))
     = trace store_2x3 ++ evs ∧
     Forall (λ ev, is_broadcast ev = false) evs) ∧
  TensorOps.zip 0%float PrimFloat.add a_2x3 a_2x3 store_2x3
  = (out ← zeros 0%float [2; 3]%Z;
     tensor_zip PrimFloat.add (t_storage out) (t_shape out) (t_strides out)
       (t_storage a_2x3) (t_shape a_2x3) (t_strides a_2x3)
       (t_storage a_2x3) (t_shape a_2x3) (t_strides a_2x3);;
     mret out) store_2x3.
Proof.
  apply (zip_equal_shapes_no_broadcast 0%float PrimFloat.add a_2x3 a_2x3
           store_2x3 [2; 3]%Z); reflexivity.
Defined.

(** ** Runs that agree up to the trace *)

Section Sim.
Context {V : Type}.

#[global] Instance same_heap_preorder : PreOrder (same_heap (V:=V)).
Proof.
  split; [by intros s|].
  intros s1 s2 s3 [? ?] [? ?]. split; congruence.
Qed.

Lemma sim_ret {A} (a : A) : sim (V:=V) (mret a) (mret a).
Proof. intros s1 s2 Hb Hs. simpl. by rewrite Hb, Hs. Qed.

Lemma sim_raise {A} (e : exn) : sim (V:=V) (raise (A:=A) e) (raise e).
Proof. intros s1 s2 Hb Hs. simpl. by rewrite Hb, Hs. Qed.

Lemma sim_bind {A B} (m1 m2 : M V A) (f1 f2 : A → M V B) :
  sim (V:=V) m1 m2 → (∀ a, sim (V:=V) (f1 a) (f2 a)) → sim (V:=V) (m1 ≫= f1) (m2 ≫= f2).
Proof.
  intros Hm Hf s1 s2 Hb Hs. rewrite !run_bind.
  specialize (Hm s1 s2 Hb Hs).
  destruct (m1 s1) as [a1 s1'|e1 s1'], (m2 s2) as [a2 s2'|e2 s2'];
    simpl in Hm; try congruence.
  - injection Hm as -> Hb' Hs'. by apply Hf.
  - injection Hm as -> Hb' Hs'. simpl. by rewrite Hb', Hs'.
Qed.

Lemma sim_for_in {S} (xs : list Z) (b1 b2 : Z → S → M V S) (x : S) :
  (∀ i y, sim (V:=V) (b1 i y) (b2 i y)) → sim (V:=V) (for_in xs b1 x) (for_in xs b2 x).
Proof.
  intros Hb. revert x. induction xs as [|i xs IH]; intros x; simpl.
  - apply sim_ret.
  - apply sim_bind; [apply Hb|apply IH].
Qed.

Lemma sim_from_option {A} (e : exn) (o : option A) :
  sim (V:=V) (from_option e o) (from_option e o).
Proof. destruct o; [apply sim_ret|apply sim_raise]. Qed.

Lemma sim_seq_load l : sim (V:=V) (seq_load l) (seq_load l).
Proof.
  intros s1 s2 Hb Hs. unfold seq_load. rewrite Hs.
  by apply sim_from_option.
Qed.

Lemma sim_buf_load l : sim (V:=V) (buf_load l) (buf_load l).
Proof.
  intros s1 s2 Hb Hs. unfold buf_load. rewrite Hb.
  by apply sim_from_option.
Qed.

Lemma sim_buf_store l (b : list V) : sim (V:=V) (buf_store l b) (buf_store l b).
Proof. intros s1 s2 Hb Hs. simpl. by rewrite Hb, Hs. Qed.

Lemma sim_emit (ev1 ev2 : event V) : sim (V:=V) (emit ev1) (emit ev2).
Proof. intros s1 s2 Hb Hs. simpl. by rewrite Hb, Hs. Qed.

Lemma sim_alloc_buf (b : list V) : sim (V:=V) (alloc_buf b) (alloc_buf b).
Proof. intros s1 s2 Hb Hs. simpl. by rewrite Hb, Hs. Qed.

Lemma sim_alloc_seq (xs : list Z) : sim (V:=V) (alloc_seq (V:=V) xs) (alloc_seq xs).
Proof. intros s1 s2 Hb Hs. simpl. by rewrite Hb, Hs. Qed.

Local Ltac sim_same :=
  repeat first
    [ apply sim_ret
    | apply sim_from_option
    | apply sim_seq_load
    | apply sim_buf_load
    | apply sim_buf_store
    | apply sim_emit
    | apply sim_alloc_buf
    | apply sim_alloc_seq
    | apply sim_bind; [|intros] ].

Lemma sim_seq_get l i : sim (V:=V) (seq_get l i) (seq_get l i).
Proof. unfold seq_get, lst_get. sim_same. Qed.

Lemma sim_seq_len l : sim (V:=V) (seq_len l) (seq_len l).
Proof. unfold seq_len. sim_same. Qed.

Lemma sim_lst_set xs i v : sim (V:=V) (lst_set xs i v) (lst_set xs i v).
Proof. unfold lst_set. sim_same. Qed.

Lemma sim_zeros (zero : V) shp : sim (V:=V) (zeros zero shp) (zeros zero shp).
Proof. unfold zeros. sim_same. Qed.

Lemma sim_call_index_to_position index l :
  sim (V:=V) (call_index_to_position index l) (call_index_to_position index l).
Proof. unfold call_index_to_position. sim_same. Qed.

Lemma sim_call_broadcast_index bi l1 l2 oi :
  sim (V:=V) (call_broadcast_index bi l1 l2 oi) (call_broadcast_index bi l1 l2 oi).
Proof. unfold call_broadcast_index. sim_same. Qed.

Lemma sim_buf_get l i : sim (V:=V) (buf_get l i) (buf_get l i).
Proof. unfold buf_get. sim_same. Qed.

Lemma sim_buf_set l i (v : V) : sim (V:=V) (buf_set l i v) (buf_set l i v).
Proof. unfold buf_set. sim_same. Qed.

Lemma sim_call_diag (fn : V → V → V) (x : V) :
  sim (V:=V) (call2 fn x x) (call1 (λ x, fn x x) x).
Proof. unfold call1, call2. sim_same. Qed.

(** Reading twice gives what reading once gives. *)
Lemma sim_read_twice {A B} (m : M V A) (k1 : A → A → M V B) (k2 : A → M V B) :
  reader m → sim (V:=V) m m → (∀ x, sim (V:=V) (k1 x x) (k2 x)) →
  sim (V:=V) (x ← m; y ← m; k1 x y) (x ← m; k2 x).
Proof.
  intros Hr Hm Hk s1 s2 Hb Hs. rewrite !run_bind.
  pose proof (Hm s1 s2 Hb Hs) as H12. pose proof (Hr s1) as Hr1.
  destruct (m s1) as [x s1'|e s1'] eqn:E1, (m s2) as [x2 s2'|e2 s2'] eqn:E2;
    simpl in H12; try congruence.
  - injection H12 as -> Hb' Hs'. destruct Hr1 as [Hb1 Hs1].
    rewrite run_bind.
    pose proof (Hm s1' s1 Hb1 Hs1) as H11. rewrite E1 in H11.
    destruct (m s1') as [y s1''|e s1''] eqn:E1'; simpl in H11; try congruence.
    injection H11 as -> Hb'' Hs''. apply Hk; congruence.
  - injection H12 as -> Hb' Hs'. simpl. by rewrite Hb', Hs'.
Qed.

End Sim.

(** ** [zip] of a tensor with itself *)

Section ZipSelf.
Context {V : Type}.
Variable fn : V → V → V.
Variables out out_shape out_strides a_storage a_shape a_strides : loc.
Variable len : nat.

Lemma reader_call_broadcast_index bi l1 l2 oi :
  reader (V:=V) (call_broadcast_index bi l1 l2 oi).
Proof. unfold reader. apply preserves_call_broadcast_index; [apply _|done]. Qed.

Lemma reader_call_index_to_position index l :
  reader (V:=V) (call_index_to_position index l).
Proof. unfold reader. apply preserves_call_index_to_position; [apply _|done]. Qed.

Lemma reader_buf_get l i : reader (V:=V) (buf_get l i).
Proof.
  unfold reader.
  apply (preserves_buf_get same_heap (λ _, True) (λ _, True)); try done.
Qed.

Lemma zip_self_recursive_set (rem : nat) : ∀ (cur : list Z) (idx : nat),
  sim (zip_recursive_set fn out out_shape out_strides a_storage a_shape
         a_strides a_storage a_shape a_strides len rem cur idx)
      (map_recursive_set (λ x, fn x x) out out_shape out_strides a_storage
         a_shape a_strides len rem cur idx).
Proof.
  induction rem as [|rem IH]; intros cur idx; simpl.
  - apply sim_ret.
  - apply sim_bind; [apply sim_seq_get|]. intros n.
    apply sim_bind; [|intros; apply sim_ret].
    apply sim_for_in. intros i cur'.
    apply sim_bind; [apply sim_lst_set|]. intros cur''.
    apply sim_read_twice;
      [apply reader_call_broadcast_index|apply sim_call_broadcast_index|].
    intros ci.
    apply sim_read_twice;
      [apply reader_call_index_to_position|apply sim_call_index_to_position|].
    intros ap.
    apply sim_bind; [apply sim_call_index_to_position|]. intros op.
    apply sim_read_twice; [apply reader_buf_get|apply sim_buf_get|].
    intros x.
    apply sim_bind; [apply sim_call_diag|]. intros z.
    apply sim_bind; [apply sim_buf_set|]. intros _.
    apply sim_bind; [apply IH|]. intros _. apply sim_ret.
Qed.

End ZipSelf.

Lemma zip_self_kernel {V} (fn : V → V → V)
    (out out_shape out_strides a_storage a_shape a_strides : loc) :
  sim (_zip fn out out_shape out_strides a_storage a_shape a_strides
         a_storage a_shape a_strides)
      (_map (λ x, fn x x) out out_shape out_strides a_storage a_shape a_strides).
Proof.
  unfold _zip, _map. apply sim_bind; [apply sim_seq_len|]. intros len.
  apply zip_self_recursive_set.
Qed.

(** C4.  For every binary [fn], every tensor [a] and every store, zipping
    [a] with itself and mapping [x -> fn(x, x)] over [a] end alike: they
    return the same tensor (of the same shape, with the same value in every
    cell) in stores holding the same buffers and sequences, or raise the same
    exception. *)
Theorem zip_self_is_map_diag {V} (zero : V) (fn : V → V → V) (a : tensor)
    (s : state V) :
  observe (TensorOps.zip zero fn a a s)
  = observe (TensorOps.map zero (λ x, fn x x) a None s) ∧
  tensor_value (TensorOps.zip zero fn a a s)
  = tensor_value (TensorOps.map zero (λ x, fn x x) a None s).
Proof.
  assert (observe (TensorOps.zip zero fn a a s)
          = observe (TensorOps.map zero (λ x, fn x x) a None s)) as Hobs.
  { unfold TensorOps.zip, TensorOps.map, shape.
    rewrite !run_bind. unfold seq_load at 1 3.
    destruct (seqs s !! t_shape a) as [sh|] eqn:Hsh; simpl from_option.
    - rewrite run_ret. cbv beta iota.
      rewrite run_bind, (run_seq_load _ _ _ Hsh). cbv beta iota.
      rewrite decide_False by (intros H; by apply H).
      rewrite run_bind, run_ret. cbv beta iota.
      rewrite <- !run_bind.
      apply sim_bind; [apply sim_zeros| |done..]. intros out.
      apply sim_bind; [apply zip_self_kernel|]. intros _. apply sim_ret.
    - done. }
  split; [done|].
  destruct (TensorOps.zip zero fn a a s), (TensorOps.map zero _ a None s);
    simpl in *; try done.
  injection Hobs as -> -> ->. done.
Qed.

(** Zipping the (2,3) tensor with itself under [add] and mapping
    [x -> x + x] over it: both calls return, with storage [2,4,6,8,10,12]. *)
Example zip_self_2x3 :
  tensor_value (TensorOps.zip 0%float PrimFloat.add a_2x3 a_2x3 store_2x3)
  = Some ([2; 3]%Z, [2; 4; 6; 8; 10; 12]%float) ∧
  tensor_value
    (TensorOps.map 0%float (λ x, PrimFloat.add x x) a_2x3 None store_2x3)
  = Some ([2; 3]%Z, [2; 4; 6; 8; 10; 12]%float).
Proof. split; vm_compute; reflexivity. Qed.

(** ** The events of a sequence of visits *)

Lemma cells_fold {V} (out : loc) (write : list V → list Z → list V)
    (events : list V → list Z → list (event V)) (cs : list (list Z)) :
  ∀ (s : state V) (o : list V) (evs : list (event V)),
  foldl (λ s c, cell_step out write events c s) (upd out s o evs) cs
  = upd out s (foldl write o cs) (evs ++ cells_events write events o cs).
Proof.
  induction cs as [|c cs IH]; intros s o evs; simpl.
  - by rewrite app_nil_r.
  - unfold cell_step at 2. simpl. rewrite lookup_insert_eq, upd_upd, IH.
    by rewrite app_assoc.
Qed.

Lemma cells_events_const {V} (write : list V → list Z → list V)
    (events : list Z → list (event V)) (cs : list (list Z)) (o : list V) :
  cells_events write (λ _, events) o cs = cs ≫= events.
Proof.
  revert o. induction cs as [|c cs IH]; intros o; simpl; [done|].
  by rewrite IH.
Qed.

Lemma cells_events_app {V} (write : list V → list Z → list V)
    (events : list V → list Z → list (event V)) (cs1 cs2 : list (list Z)) :
  ∀ o, cells_events write events o (cs1 ++ cs2)
       = cells_events write events o cs1
         ++ cells_events write events (foldl write o cs1) cs2.
Proof.
  induction cs1 as [|c cs1 IH]; intros o; simpl; [done|].
  by rewrite IH, app_assoc.
Qed.

Section ReadsOf.
Context {V : Type}.





End ReadsOf.

(** ** The run of [_reduce] on well-formed arguments *)

Section ReduceRun.
Context {V : Type}.
Variable fn : V → V → V.
Variables out out_strides a_storage a_shape a_strides : loc.
Variables ASH ASTR OSTR : list Z.
Variable a : list V.
Variable N : nat.
Variable d : nat.

Local Abbreviation a_pos := (reduce_a_pos ASTR).
Local Abbreviation out_pos := (reduce_out_pos OSTR d).
Local Abbreviation cell_write := (reduce_cell_write fn ASTR OSTR a d).
Local Abbreviation cell_events :=
  (reduce_cell_events fn out a_storage ASTR OSTR a d).
Local Abbreviation group_fold := (reduce_group_fold fn ASTR a d).
Local Abbreviation store := (reduce_store out out_strides a_storage a_shape
                               a_strides ASH ASTR OSTR a N).
Local Abbreviation updo := (upd out).

Hypothesis Hne : out ≠ a_storage.
Hypothesis Hd : d < length ASH.
Hypothesis Hdims : Forall (λ n, (0 < n)%Z) ASH.
Hypothesis Hapos : ∀ c, in_bounds ASH c → (0 ≤ a_pos c < Z.of_nat (length a))%Z.
Hypothesis Hopos : ∀ c, in_bounds ASH c → (0 ≤ out_pos c < Z.of_nat N)%Z.

Lemma reduce_cell_write_length o c : length (cell_write o c) = length o.
Proof.
  unfold reduce_cell_write. repeat case_match; by rewrite ?length_insert.
Qed.

Lemma reduce_cells_length cs o : length (foldl cell_write o cs) = length o.
Proof.
  revert o. induction cs as [|c cs IH]; intros o; simpl; [done|].
  by rewrite IH, reduce_cell_write_length.
Qed.

Lemma reduce_store_upd s o o' evs :
  store s o → length o' = N → store (updo s o' evs) o'.
Proof.
  intros (?&?&?&?&?&?) Hl. unfold reduce_store, upd. simpl.
  rewrite lookup_insert_eq, lookup_insert_ne by done. done.
Qed.

(** One pass through lines 296-307 at an in-bounds coordinate. *)
Lemma reduce_cell_run (c : list Z) s o :
  store s o → in_bounds ASH c →
  ∀ A (k : unit → M V A),
  (a_storage_position ← call_index_to_position c a_strides;
   r ← lst_get c (Z.of_nat d);
   (if decide (r = 0%Z) then
      out_storage_position ← call_index_to_position c out_strides;
      x ← buf_get a_storage a_storage_position;
      buf_set out out_storage_position x
    else
      cur_out_index ← lst_set c (Z.of_nat d) 0%Z;
      out_storage_position ← call_index_to_position cur_out_index out_strides;
      acc ← buf_get out out_storage_position;
      x ← buf_get a_storage a_storage_position;
      y ← call2 fn acc x;
      buf_set out out_storage_position y) ≫= k) s
  = k tt (updo s (cell_write o c) (cell_events o c)).
Proof.
  intros (Hash&Hastr&Hostr&Ha&Ho&HN) Hc.
  pose proof (Hapos c Hc) as Hap. pose proof (Hopos c Hc) as Hop.
  assert (length c = length ASH) as Hlen by by eapply Forall2_length.
  destruct (lookup_lt_is_Some_2 a (Z.to_nat (a_pos c))) as [x Hx]; [lia|].
  destruct (lookup_lt_is_Some_2 c d) as [r Hr]; [lia|].
  destruct (lookup_lt_is_Some_2 o (Z.to_nat (out_pos c))) as [acc Hacc]; [lia|].
  assert (py_index (length c) (Z.of_nat d) = Some d) as Hpy
    by (apply py_index_nat; lia).
  unfold reduce_cell_write, reduce_cell_events. rewrite Hx.
  destruct (decide (r = 0%Z)) as [->|Hr0].
  - rewrite !decide_True by done.
    intros A k.
    rewrite run_bind, (run_call_index_to_position _ _ _ _ Hastr). cbv beta iota.
    rewrite run_bind, (run_lst_get _ _ _ _ _ Hpy Hr). cbv beta iota.
    rewrite decide_True by done.
    rewrite run_bind, run_bind, (run_call_index_to_position _ _ _ _ Hostr).
    cbv beta iota.
    assert (index_to_position c OSTR = out_pos c) as ->.
    { unfold reduce_out_pos. by rewrite list_insert_id. }
    change (index_to_position c ASTR) with (a_pos c).
    rewrite run_bind, (run_buf_get _ _ _ _ _ Ha Hap Hx). cbv beta iota.
    rewrite (run_buf_set _ o) by (simpl; first [done|lia]).
    cbv beta iota. unfold upd. simpl. rewrite <- app_assoc. reflexivity.
  - rewrite !decide_False by congruence. rewrite Hacc.
    intros A k.
    rewrite run_bind, (run_call_index_to_position _ _ _ _ Hastr). cbv beta iota.
    rewrite run_bind, (run_lst_get _ _ _ _ _ Hpy Hr). cbv beta iota.
    rewrite decide_False by done.
    rewrite run_bind, run_bind, (run_lst_set _ _ _ _ _ Hpy). cbv beta iota.
    rewrite run_bind, (run_call_index_to_position _ _ _ _ Hostr).
    cbv beta iota.
    change (index_to_position (<[d:=0%Z]> c) OSTR) with (out_pos c).
    change (index_to_position c ASTR) with (a_pos c).
    rewrite run_bind, (run_buf_get _ _ _ _ _ Ho) by (first [done|lia]).
    cbv beta iota.
    rewrite run_bind, (run_buf_get _ a _ x) by (simpl; first [done|lia]).
    cbv beta iota.
    rewrite run_bind, run_call2. cbv beta iota.
    rewrite (run_buf_set _ o) by (simpl; first [done|lia]).
    cbv beta iota. unfold upd. simpl. rewrite <- !app_assoc. reflexivity.
Qed.

Lemma reduce_recursive_set_run (rest : list Z) :
  ∀ (shp_pre pre : list Z) s o,
  ASH = shp_pre ++ rest → in_bounds shp_pre pre → store s o →
  reduce_recursive_set fn out out_strides a_storage a_shape a_strides
    (Z.of_nat d) (length rest) (pre ++ replicate (length rest) 0%Z)
    (length pre) s
  = Ret tt (updo s
      (foldl cell_write o (reduce_visits (bool_decide (length pre = 0)) pre rest))
      (cells_events cell_write cell_events o
         (reduce_visits (bool_decide (length pre = 0)) pre rest))).
Proof.
  induction rest as [|n rest IH]; intros shp_pre pre s o HO Hpre Hs.
  - simpl. rewrite upd_id; [done|]. by destruct Hs as (?&?&?&?&?&?).
  - assert (length pre = length shp_pre) as Hlen by by eapply Forall2_length.
    assert (ASH !! length pre = Some n) as Hn.
    { rewrite HO, Hlen. by apply list_lookup_middle. }
    cbn [length reduce_recursive_set].
    assert (seqs s !! a_shape = Some ASH) as Hash by by destruct Hs.
    rewrite run_bind, (run_seq_get _ _ _ _ _ Hash Hn). cbv beta iota zeta.
    rewrite run_bind.
    match goal with |- context [for_in ?r ?b _ _] =>
      set (body := b); set (js0 := r) end.
    set (block := λ i : Z,
      (pre ++ i :: replicate (length rest) 0%Z)
        :: reduce_visits false (pre ++ [i]) rest).
    assert (∀ js x s o, Forall (λ j, (0 ≤ j < n)%Z) js → store s o →
      ∃ x', for_in js body (pre ++ x :: replicate (length rest) 0%Z) s
        = Ret (pre ++ x' :: replicate (length rest) 0%Z)
            (updo s (foldl cell_write o (js ≫= block))
               (cells_events cell_write cell_events o (js ≫= block)))) as Hloop.
    { clear s o Hs Hash js0.
      induction js as [|j js IHjs]; intros x s o Hjs Hs.
      - exists x. simpl. rewrite upd_id; [done|].
        by destruct Hs as (?&?&?&?&?&?).
      - apply Forall_cons in Hjs as [Hj Hjs].
        pose proof (in_bounds_visit _ _ _ _ _ _ Hdims HO Hpre Hj) as Hc.
        pose proof (reduce_cell_run _ _ _ Hs Hc) as Hcell.
        rewrite for_in_cons, run_bind. unfold body at 1.
        rewrite run_bind, (lst_set_middle pre). cbv beta iota.
        rewrite Hcell. cbv beta.
        assert (store
          (updo s (cell_write o (pre ++ j :: replicate (length rest) 0%Z))
             (cell_events o (pre ++ j :: replicate (length rest) 0%Z)))
          (cell_write o (pre ++ j :: replicate (length rest) 0%Z))) as Hs1.
        { apply reduce_store_upd with o; [done..|].
          rewrite reduce_cell_write_length. by destruct Hs as (?&?&?&?&?&?). }
        rewrite run_bind.
        assert (ASH = (shp_pre ++ [n]) ++ rest) as HO' by by rewrite <- app_assoc.
        assert (in_bounds (shp_pre ++ [n]) (pre ++ [j])) as Hpre'.
        { apply Forall2_app; [done|]. by constructor. }
        pose proof (IH _ _ _ _ HO' Hpre' Hs1) as IH1.
        rewrite <- app_assoc, <- cons_middle, length_app, Nat.add_1_r in IH1.
        rewrite bool_decide_eq_false_2 in IH1 by lia.
        rewrite IH1. cbv beta iota. rewrite run_ret. cbv beta iota.
        rewrite upd_upd.
        edestruct (IHjs j) as (x' & Hx'); [done| |].
        { apply reduce_store_upd with (o:=o); [done..|].
          rewrite reduce_cells_length, reduce_cell_write_length.
          by destruct Hs as (?&?&?&?&?&?). }
        exists x'. rewrite Hx', upd_upd. f_equal. f_equal.
        + rewrite bind_cons, foldl_app. done.
        + rewrite bind_cons, cells_events_app. subst block.
          cbn [cells_events foldl]. done. }
    destruct (Hloop js0 0%Z s o) as (x' & Hx').
    { subst js0. case_decide; unfold py_range; apply Forall_seqZ; intros j Hj; lia. }
    { done. }
    change (replicate (S (length rest)) 0%Z)
      with (0%Z :: replicate (length rest) 0%Z).
    rewrite Hx'. cbv beta iota. rewrite run_ret.
    simpl reduce_visits. subst js0 block.
    destruct (decide (length pre = 0)) as [H0|H0].
    + by rewrite bool_decide_eq_true_2.
    + by rewrite bool_decide_eq_false_2.
Qed.

Lemma reduce_run (out_shape : loc) s o :
  store s o →
  _reduce fn out out_shape out_strides a_storage a_shape a_strides (Z.of_nat d) s
  = Ret tt (updo s (foldl cell_write o (reduce_visits true [] ASH))
              (cells_events cell_write cell_events o (reduce_visits true [] ASH))).
Proof.
  intros Hs. unfold _reduce.
  rewrite run_bind, (run_seq_len _ ASH) by by destruct Hs.
  cbv beta iota.
  apply (reduce_recursive_set_run ASH [] []); [done|constructor|done].
Qed.

(** Coordinates that address the same output cell differ at most in the
    reduced dimension. *)
Hypothesis Hinj : ∀ c c', in_bounds ASH c → in_bounds ASH c' →
  out_pos c = out_pos c' → <[d := 0%Z]> c = <[d := 0%Z]> c'.

Lemma reduce_cells_group (cs : list (list Z)) : ∀ (o : list V) (g : list Z),
  Forall (in_bounds ASH) cs → in_bounds ASH g → g !! d = Some 0%Z →
  length o = N →
  foldl cell_write o cs !! Z.to_nat (out_pos g)
  = group_fold (o !! Z.to_nat (out_pos g))
      (filter (λ c, <[d := 0%Z]> c = g) cs).
Proof.
  induction cs as [|c cs IH]; intros o g Hcs Hg Hg0 Ho; [done|].
  apply Forall_cons in Hcs as [Hc Hcs].
  pose proof (Hapos c Hc) as Hap. pose proof (Hopos c Hc) as Hop.
  pose proof (Hopos g Hg) as Hopg.
  destruct (lookup_lt_is_Some_2 a (Z.to_nat (a_pos c))) as [x Hx]; [lia|].
  simpl foldl. rewrite IH by (rewrite ?reduce_cell_write_length; done).
  rewrite filter_cons.
  destruct (decide (<[d := 0%Z]> c = g)) as [Hin|Hout].
  - assert (out_pos c = out_pos g) as Hpos.
    { unfold reduce_out_pos. rewrite Hin. by rewrite (list_insert_id g). }
    simpl. f_equal. rewrite Hx. simpl.
    unfold reduce_cell_write. rewrite Hx, Hpos.
    destruct (lookup_lt_is_Some_2 o (Z.to_nat (out_pos g))) as [acc Hacc];
      [lia|].
    rewrite Hacc. case_decide.
    + apply list_lookup_insert_eq. lia.
    + simpl. apply list_lookup_insert_eq. lia.
  - f_equal. unfold reduce_cell_write. rewrite Hx.
    assert (Z.to_nat (out_pos c) ≠ Z.to_nat (out_pos g)) as Hpos.
    { intros Heq. apply Hout. rewrite (Hinj c g) by (done || lia).
      by apply list_insert_id. }
    repeat case_match; by rewrite ?list_lookup_insert_ne.
Qed.

(** The passes of one group in index order fold [fn] from the element at
    index 0. *)
Lemma reduce_group_fold_range (g : list Z) (n : Z) (js : list Z) :
  in_bounds ASH g → ASH !! d = Some n →
  Forall (λ i, (1 ≤ i < n)%Z) js → ∀ acc : V,
  ∃ xs, mapM (λ i, a !! Z.to_nat (a_pos (<[d := i]> g))) js = Some xs ∧
        group_fold (Some acc) ((λ i, <[d := i]> g) <$> js)
        = Some (foldl fn acc xs).
Proof.
  intros Hg Hn Hjs. induction Hjs as [|j js Hj Hjs IH]; intros acc.
  - by exists [].
  - assert (in_bounds ASH (<[d := j]> g)) as Hc.
    { unfold in_bounds. rewrite <- (list_insert_id ASH d n) by done.
      apply Forall2_insert; [done|lia]. }
    pose proof (Hapos _ Hc) as Hap.
    destruct (lookup_lt_is_Some_2 a (Z.to_nat (a_pos (<[d := j]> g))))
      as [x Hx]; [lia|].
    destruct (IH (fn acc x)) as (xs & Hxs & Hfold).
    exists (x :: xs). split.
    + simpl. rewrite Hx. simpl. by rewrite Hxs.
    + rewrite fmap_cons. simpl. rewrite Hx. simpl.
      rewrite decide_False.
      * simpl. exact Hfold.
      * rewrite list_lookup_insert_eq by (apply Forall2_length in Hg; lia).
        intros [= ->]. lia.
Qed.

(** Distinct coordinates address distinct input cells. *)
Hypothesis Hainj : ∀ c c',
  in_bounds ASH c → in_bounds ASH c' → a_pos c = a_pos c' → c = c'.


End ReduceRun.

(** ** The coordinates [_reduce] visits, for ranks 1 and 2 *)

Lemma filter_bind {A B} (P : B → Prop) `{!∀ x, Decision (P x)}
    (f : A → list B) (l : list A) :
  filter P (l ≫= f) = l ≫= (λ x, filter P (f x)).
Proof.
  induction l as [|x l IH]; [done|].
  by rewrite !bind_cons, filter_app, IH.
Qed.

Lemma filter_fmap {A B} (P : B → Prop) `{!∀ x, Decision (P x)}
    (f : A → B) (l : list A) :
  filter P (f <$> l) = f <$> filter (P ∘ f) l.
Proof.
  induction l as [|x l IH]; [done|].
  rewrite fmap_cons, !filter_cons, IH. simpl. by case_decide.
Qed.

Lemma filter_all {A} (P : A → Prop) `{!∀ x, Decision (P x)} (l : list A) :
  Forall P l → filter P l = l.
Proof.
  induction 1 as [|x l Hx Hl IH]; [done|].
  by rewrite filter_cons_True, IH.
Qed.

Lemma filter_eq_NoDup {A} `{EqDecision A} (l : list A) (x : A) :
  NoDup l → x ∈ l → filter (λ y, y = x) l = [x].
Proof.
  intros Hnd. induction Hnd as [|y l Hy Hnd IH]; intros Hx.
  - by apply elem_of_nil in Hx.
  - rewrite filter_cons. destruct (decide (y = x)) as [->|Hne].
    + f_equal. apply filter_none. intros z Hz ->. done.
    + apply IH. apply elem_of_cons in Hx as [?|?]; [congruence|done].
Qed.

Lemma bind_single {A B} `{EqDecision A} (l : list A) (x : A) (f : A → list B) :
  NoDup l → x ∈ l →
  l ≫= (λ y, if decide (y = x) then f x else []) = f x.
Proof.
  intros Hnd. induction Hnd as [|y l Hy Hnd IH]; intros Hx.
  - by apply elem_of_nil in Hx.
  - rewrite bind_cons. destruct (decide (y = x)) as [->|Hne].
    + rewrite <- (app_nil_r (f x)) at 2. f_equal.
      clear IH Hx Hnd. induction l as [|z l IH]; [done|].
      rewrite bind_cons, decide_False.
      * apply IH. intros ?. apply Hy. by right.
      * intros ->. apply Hy. by left.
    + simpl. apply IH. apply elem_of_cons in Hx as [?|?]; [congruence|done].
Qed.

Lemma py_range_cons (n : Z) : (0 < n)%Z → py_range 0 n = 0%Z :: py_range 1 n.
Proof.
  intros Hn. unfold py_range. rewrite seqZ_cons by lia.
  f_equal. f_equal; lia.
Qed.

(** For rank 2 the traversal visits every coordinate once, row by row. *)
Lemma reduce_visits_rank2 (n0 n1 : Z) :
  (0 < n1)%Z →
  reduce_visits true [] [n0; n1]
  = i0 ← py_range 0 n0; (λ i1, [i0; i1]) <$> py_range 0 n1.
Proof.
  intros Hn1. simpl reduce_visits.
  apply list_bind_ext; [|done]. intros i0.
  rewrite (py_range_cons n1) by done. rewrite fmap_cons. reflexivity.
Qed.

Lemma reduce_visits_rank1 (n0 : Z) :
  reduce_visits true [] [n0] = (λ i0, [i0]) <$> py_range 0 n0.
Proof.
  reflexivity.
Qed.

(** For ranks 1 and 2, the visited coordinates that differ from [g] at most
    in dimension [d] are visited in the order of their index in [d]. *)
Lemma reduce_visits_group (shape g : list Z) (d : nat) (n : Z) :
  1 ≤ length shape ≤ 2 → Forall (λ n, (0 < n)%Z) shape →
  in_bounds shape g → g !! d = Some 0%Z → shape !! d = Some n →
  filter (λ c, <[d := 0%Z]> c = g) (reduce_visits true [] shape)
  = (λ i, <[d := i]> g) <$> py_range 0 n.
Proof.
  intros Hrank Hdims Hg Hg0 Hn.
  destruct shape as [|n0 [|n1 [|]]]; simpl in Hrank; try lia.
  - (* rank 1 *)
    apply Forall2_cons_inv_r in Hg as (g0 & ? & Hb0 & ->%Forall2_nil_inv_r & ->).
    destruct d as [|d]; [|done]. simpl in Hg0, Hn.
    injection Hg0 as ->. injection Hn as ->.
    rewrite reduce_visits_rank1, filter_fmap. rewrite filter_all; [done|].
    by apply Forall_forall.
  - (* rank 2 *)
    apply Forall2_cons_inv_r in Hg as (g0 & ? & Hb0 & Hg & ->).
    apply Forall2_cons_inv_r in Hg as (g1 & ? & Hb1 & ->%Forall2_nil_inv_r & ->).
    apply Forall_cons in Hdims as [Hn0 Hdims].
    apply Forall_cons in Hdims as [Hn1 _].
    rewrite reduce_visits_rank2, filter_bind by done.
    destruct d as [|[|d]]; [| |done]; simpl in Hg0, Hn;
      injection Hg0 as ->; injection Hn as ->.
    + (* d = 0: one coordinate of each row *)
      simpl. generalize (py_range 0 n). intros l.
      induction l as [|i0 l IH]; [done|].
      rewrite bind_cons, fmap_cons, IH. f_equal.
      rewrite filter_fmap.
      rewrite (list_filter_iff _ (λ i1, i1 = g1)).
      * rewrite filter_eq_NoDup; [done|apply NoDup_seqZ|].
        apply elem_of_seqZ. lia.
      * intros i1. simpl. split; [by intros [= ->]|by intros ->].
    + (* d = 1: the row of [g] *)
      simpl.
      rewrite (list_bind_ext _
        (λ i0, if decide (i0 = g0) then (λ i1, [g0; i1]) <$> py_range 0 n else [])
        _ (py_range 0 n0)); [|intros i0|done].
      * rewrite (bind_single _ g0 (λ _, (λ i1, [g0; i1]) <$> py_range 0 n));
          [done|apply NoDup_seqZ|].
        apply elem_of_seqZ. lia.
      * rewrite filter_fmap. destruct (decide (i0 = g0)) as [->|Hne].
        -- rewrite filter_all; [done|]. by apply Forall_forall.
        -- rewrite filter_none; [done|]. intros i1 _. simpl. congruence.
Qed.

Lemma reduce_visits_in_bounds (rest : list Z) : ∀ (outer : bool) (pre c : list Z),
  Forall (λ n, (0 < n)%Z) rest →
  c ∈ reduce_visits outer pre rest → ∃ d, c = pre ++ d ∧ in_bounds rest d.
Proof.
  induction rest as [|n rest IH]; intros outer pre c Hpos Hc; simpl in Hc.
  - by apply elem_of_nil in Hc.
  - apply Forall_cons in Hpos as [Hn Hpos].
    apply list_elem_of_bind in Hc as (i & Hc & Hi).
    apply elem_of_seqZ in Hi.
    assert (0 ≤ i < n)%Z as Hi' by (destruct outer; lia).
    apply elem_of_cons in Hc as [->|Hc].
    + eexists. split; [done|]. constructor; [done|].
      clear -Hpos. induction Hpos; simpl; constructor; [lia|done].
    + apply IH in Hc as (d & -> & Hd); [|done]. exists (i :: d).
      split; [by rewrite <- app_assoc|]. by constructor.
Qed.

(** ** What [_reduce] computes for ranks 1 and 2 *)

Lemma reduce_fold_cells {V} (fn : V → V → V)
    (out out_shape out_strides a_storage a_shape a_strides : loc)
    (ASH ASTR OSTR : list Z) (a o : list V) (s : state V) (d : nat) (n : Z) :
  out ≠ a_storage →
  seqs s !! a_shape = Some ASH → seqs s !! a_strides = Some ASTR →
  seqs s !! out_strides = Some OSTR →
  bufs s !! a_storage = Some a → bufs s !! out = Some o →
  1 ≤ length ASH ≤ 2 → Forall (λ n, (0 < n)%Z) ASH → ASH !! d = Some n →
  (∀ c, in_bounds ASH c →
        (0 ≤ reduce_a_pos ASTR c < Z.of_nat (length a))%Z) →
  (∀ c, in_bounds ASH c →
        (0 ≤ reduce_out_pos OSTR d c < Z.of_nat (length o))%Z) →
  (∀ c c', in_bounds ASH c → in_bounds ASH c' →
           reduce_out_pos OSTR d c = reduce_out_pos OSTR d c' →
           <[d := 0%Z]> c = <[d := 0%Z]> c') →
  ∃ o' evs,
    _reduce fn out out_shape out_strides a_storage a_shape a_strides
      (Z.of_nat d) s
    = Ret tt (State (<[out := o']> (bufs s)) (seqs s) (trace s ++ evs)) ∧
    ∀ g, in_bounds ASH g → g !! d = Some 0%Z →
      ∃ x0 xs,
        a !! Z.to_nat (reduce_a_pos ASTR g) = Some x0 ∧
        mapM (λ i, a !! Z.to_nat (reduce_a_pos ASTR (<[d := i]> g)))
          (py_range 1 n) = Some xs ∧
        o' !! Z.to_nat (reduce_out_pos OSTR d g) = Some (foldl fn x0 xs).
Proof.
  intros Hne Hash Hastr Hostr Ha Ho Hrank Hdims Hn Hapos Hopos Hinj.
  assert (d < length ASH) as Hd by by eapply lookup_lt_Some.
  assert (0 < n)%Z as Hn0.
  { rewrite Forall_forall in Hdims. apply Hdims.
    by eapply list_elem_of_lookup_2. }
  eexists _, _. split.
  { apply (reduce_run fn out out_strides a_storage a_shape a_strides
             ASH ASTR OSTR a (length o) d Hne Hd Hdims Hapos Hopos
             out_shape s o). done. }
  intros g Hg Hg0.
  assert (Forall (in_bounds ASH) (reduce_visits true [] ASH)) as Hcs.
  { apply Forall_forall. intros c Hc.
    by apply reduce_visits_in_bounds in Hc as (c' & -> & Hc'). }
  rewrite (reduce_cells_group fn out a_storage ASH ASTR OSTR a (length o) d
             Hne Hd Hapos Hopos Hinj) by done.
  rewrite (reduce_visits_group ASH g d n) by done.
  rewrite (py_range_cons n), fmap_cons by done.
  rewrite (list_insert_id g d 0%Z) by done.
  pose proof (Hapos g Hg) as Hap.
  destruct (lookup_lt_is_Some_2 a (Z.to_nat (reduce_a_pos ASTR g)))
    as [x0 Hx0]; [lia|].
  destruct (reduce_group_fold_range fn out a_storage ASH ASTR a d Hne Hd Hapos
              g n (py_range 1 n) Hg Hn) with (acc := x0) as (xs & Hxs & Hfold).
  { unfold py_range. apply Forall_seqZ. intros j Hj. lia. }
  exists x0, xs. split; [done|]. split; [done|].
  unfold reduce_group_fold in *. simpl foldl. rewrite Hx0. simpl.
  rewrite decide_True by done. exact Hfold.
Qed.

(** X1.  Let [_reduce] run on an input of rank 1 or 2 with positive dimensions
    and a reduced dimension [d] of size [n], with an output buffer distinct
    from the input buffer, where every input coordinate addresses a cell of
    the input buffer and, with its entry [d] set to 0, a cell of the output
    buffer, and coordinates that address the same output cell differ at most
    in entry [d].  Then the kernel returns, and the output cell of every
    coordinate [g] with [g[d] = 0] holds the left fold of [fn] over the input
    elements at indices 1, ..., n-1 of dimension [d], started from the
    element at index 0: whatever the output buffer held before the call (the
    seed) has no part in the result. *)
Theorem reduce_kernel_fold {V} (fn : V → V → V)
    (out out_shape out_strides a_storage a_shape a_strides : loc)
    (ASH ASTR OSTR : list Z) (a o : list V) (s : state V) (d : nat) (n : Z) :
  out ≠ a_storage →
  seqs s !! a_shape = Some ASH → seqs s !! a_strides = Some ASTR →
  seqs s !! out_strides = Some OSTR →
  bufs s !! a_storage = Some a → bufs s !! out = Some o →
  1 ≤ length ASH ≤ 2 → Forall (λ n, (0 < n)%Z) ASH → ASH !! d = Some n →
  (∀ c, in_bounds ASH c →
        (0 ≤ reduce_a_pos ASTR c < Z.of_nat (length a))%Z) →
  (∀ c, in_bounds ASH c →
        (0 ≤ reduce_out_pos OSTR d c < Z.of_nat (length o))%Z) →
  (∀ c c', in_bounds ASH c → in_bounds ASH c' →
           reduce_out_pos OSTR d c = reduce_out_pos OSTR d c' →
           <[d := 0%Z]> c = <[d := 0%Z]> c') →
  ∃ o' evs,
    _reduce fn out out_shape out_strides a_storage a_shape a_strides
      (Z.of_nat d) s
    = Ret tt (State (<[out := o']> (bufs s)) (seqs s) (trace s ++ evs)) ∧
    ∀ g, in_bounds ASH g → g !! d = Some 0%Z →
      ∃ x0 xs,
        a !! Z.to_nat (reduce_a_pos ASTR g) = Some x0 ∧
        mapM (λ i, a !! Z.to_nat (reduce_a_pos ASTR (<[d := i]> g)))
          (py_range 1 n) = Some xs ∧
        o' !! Z.to_nat (reduce_out_pos OSTR d g) = Some (foldl fn x0 xs).
Proof.
  intros Hne Hash Hastr Hostr Ha Ho Hrank Hdims Hn Hapos Hopos Hinj.
  by apply (reduce_fold_cells fn out out_shape out_strides a_storage a_shape
              a_strides ASH ASTR OSTR a o s d n).
Qed.

(** The arguments of the reduce scenario of spec section 8 satisfy the
    hypotheses of [reduce_kernel_fold]. *)
Example reduce_kernel_fold_2x3 :
  ∃ o' evs,
    _reduce PrimFloat.add 2 3 4 1 1 2 (Z.of_nat 1) store_reduce_2x3
    = Ret tt (State (<[2%positive := o']> (bufs store_reduce_2x3))
                (seqs store_reduce_2x3) (trace store_reduce_2x3 ++ evs)) ∧
    ∀ g, in_bounds [2; 3]%Z g → g !! 1 = Some 0%Z →
      ∃ x0 xs,
        [1; 2; 3; 4; 5; 6]%float !! Z.to_nat (reduce_a_pos [3; 1]%Z g) = Some x0 ∧
        mapM (λ i, [1; 2; 3; 4; 5; 6]%float
                     !! Z.to_nat (reduce_a_pos [3; 1]%Z (<[1 := i]> g)))
          (py_range 1 3) = Some xs ∧
        o' !! Z.to_nat (reduce_out_pos [1; 1]%Z 1 g)
        = Some (foldl PrimFloat.add x0 xs).
Proof.
  apply (reduce_kernel_fold PrimFloat.add 2 3 4 1 1 2
           [2; 3]%Z [3; 1]%Z [1; 1]%Z [1; 2; 3; 4; 5; 6]%float [9; 9]%float
           store_reduce_2x3 1 3).
  - done.
  - reflexivity.
  - reflexivity.
  - reflexivity.
  - reflexivity.
  - reflexivity.
  - simpl. lia.
  - repeat constructor.
  - reflexivity.
  - intros c Hc. inv_bounds. cbn. lia.
  - intros c Hc. inv_bounds. cbn. lia.
  - intros c c' Hc Hc'. inv_bounds. cbn. intros Heq. f_equal. lia.
Defined.

(** * More of the kernels and the entry points *)

(** ** Runs that agree step by step *)

Section RunExt.
Context {V : Type}.

Lemma bind_ext_run {A B} (m : M V A) (f g : A → M V B) (s : state V) :
  (∀ a s', m s = Ret a s' → f a s' = g a s') → (m ≫= f) s = (m ≫= g) s.
Proof. intros H. rewrite !run_bind. destruct (m s); [by apply H|done]. Qed.

Lemma for_in_ext_inv {S} (I : S → Prop) (xs : list Z) (b1 b2 : Z → S → M V S) :
  (∀ i st s, I st → b1 i st s = b2 i st s) →
  (∀ i st s st' s', I st → b2 i st s = Ret st' s' → I st') →
  ∀ st s, I st → for_in xs b1 st s = for_in xs b2 st s.
Proof.
  intros Hb Hi. induction xs as [|i xs IH]; intros st s Hst; [done|].
  rewrite !for_in_cons, !run_bind, Hb by done.
  destruct (b2 i st s) as [st' s'|e s'] eqn:E; [|done].
  apply IH. by eapply Hi.
Qed.

Lemma lst_set_ret_length (xs : list Z) (i v : Z) (s s' : state V) (xs' : list Z) :
  lst_set xs i v s = Ret xs' s' → length xs' = length xs.
Proof.
  unfold lst_set. rewrite run_bind.
  destruct (py_index (length xs) i); simpl; [|done].
  intros [= <- _]. apply length_insert.
Qed.

Lemma lst_get_wrap (xs : list Z) (d1 d2 : Z) :
  py_index (length xs) d1 = py_index (length xs) d2 →
  lst_get (V:=V) xs d1 = lst_get xs d2.
Proof. intros H. unfold lst_get. by rewrite H. Qed.

Lemma lst_set_wrap (xs : list Z) (d1 d2 v : Z) :
  py_index (length xs) d1 = py_index (length xs) d2 →
  lst_set (V:=V) xs d1 v = lst_set xs d2 v.
Proof. intros H. unfold lst_set. by rewrite H. Qed.

Lemma bind_assoc_run {A B C} (m : M V A) (f : A → M V B) (g : B → M V C)
    (s : state V) :
  ((m ≫= f) ≫= g) s = (m ≫= λ a, f a ≫= g) s.
Proof. rewrite !run_bind. by destruct (m s). Qed.

Lemma for_in_ext {S} (xs : list Z) (b1 b2 : Z → S → M V S) :
  (∀ i st s, b1 i st s = b2 i st s) →
  ∀ st s, for_in xs b1 st s = for_in xs b2 st s.
Proof.
  intros Hb st s.
  apply (for_in_ext_inv (λ _, True)); [by intros|done|done].
Qed.

End RunExt.

(** ** The dimension argument of [reduce] *)

Lemma py_index_wrap (n : nat) (d : Z) :
  (0 ≤ d < Z.of_nat n)%Z → py_index n (d - Z.of_nat n) = py_index n d.
Proof.
  intros Hd. unfold py_index.
  rewrite (bool_decide_eq_false_2 (0 ≤ d - Z.of_nat n < Z.of_nat n)%Z) by lia.
  rewrite (bool_decide_eq_true_2 (- Z.of_nat n ≤ d - Z.of_nat n < 0)%Z) by lia.
  rewrite bool_decide_eq_true_2 by lia. f_equal. lia.
Qed.

Lemma py_index_None (n : nat) (i : Z) :
  ¬ (- Z.of_nat n ≤ i < Z.of_nat n)%Z → py_index n i = None.
Proof.
  intros H. unfold py_index.
  rewrite !bool_decide_eq_false_2 by lia. done.
Qed.

Lemma fresh_ne {A} (m : gmap loc A) (l : loc) : is_Some (m !! l) → fresh (dom m) ≠ l.
Proof.
  intros H Heq. apply (is_fresh (dom m)). rewrite Heq. by apply elem_of_dom.
Qed.

Section ReduceDim.
Context {V : Type}.

Lemma reduce_recursive_set_wrap (fn : V → V → V)
    (out out_strides a_storage a_shape a_strides : loc) (d1 d2 : Z) (L : nat) :
  py_index L d1 = py_index L d2 →
  ∀ (rem : nat) (cur : list Z) (idx : nat) (s : state V), length cur = L →
  reduce_recursive_set fn out out_strides a_storage a_shape a_strides d1 rem cur idx s
  = reduce_recursive_set fn out out_strides a_storage a_shape a_strides d2 rem cur idx s.
Proof.
  intros Hpy. induction rem as [|rem IH]; intros cur idx s Hcur; [done|].
  cbn [reduce_recursive_set].
  apply bind_ext_run. intros n s1 _. cbv zeta.
  rewrite !run_bind.
  rewrite (for_in_ext_inv (λ st, length st = L) _ _
    (λ i cur_a_index,
       cur_a_index ← lst_set cur_a_index (Z.of_nat idx) i;
       a_storage_position ← call_index_to_position cur_a_index a_strides;
       r ← lst_get cur_a_index d2;
       (if decide (r = 0%Z) then
          out_storage_position ← call_index_to_position cur_a_index out_strides;
          x ← buf_get a_storage a_storage_position;
          buf_set out out_storage_position x
        else
          cur_out_index ← lst_set cur_a_index d2 0%Z;
          out_storage_position ← call_index_to_position cur_out_index out_strides;
          acc ← buf_get out out_storage_position;
          x ← buf_get a_storage a_storage_position;
          y ← call2 fn acc x;
          buf_set out out_storage_position y);;
       reduce_recursive_set fn out out_strides a_storage a_shape a_strides d2
         rem cur_a_index (S idx);;
       mret cur_a_index)); [done| | |done].
  - intros i st s2 Hst.
    apply bind_ext_run. intros cur' s3 Hset.
    apply lst_set_ret_length in Hset. rewrite Hst in Hset.
    apply bind_ext_run. intros p s4 _.
    rewrite (lst_get_wrap cur' d1 d2) by by rewrite Hset.
    apply bind_ext_run. intros r s5 _.
    rewrite (lst_set_wrap cur' d1 d2) by by rewrite Hset.
    apply bind_ext_run. intros _ s6 _.
    by rewrite !run_bind, IH.
  - intros i st s2 st' s' Hst Hrun.
    rewrite run_bind in Hrun.
    destruct (lst_set st (Z.of_nat idx) i s2) as [cur' s3|] eqn:Hset; [|done].
    apply lst_set_ret_length in Hset.
    repeat (rewrite run_bind in Hrun;
            match type of Hrun with
            | match ?m with _ => _ end = _ => destruct m; [|done]
            end).
    rewrite run_ret in Hrun. injection Hrun as <- _. congruence.
Qed.

Lemma run_zeros (zero : V) (shp : list Z) (s : state V) :
  zeros zero shp s
  = Ret (Tensor (fresh (dom (bufs s))) (fresh (dom (seqs s)))
           (fresh (dom (<[fresh (dom (seqs s)) := shp]> (seqs s)))))
      (State (<[fresh (dom (bufs s)) :=
                  replicate (Z.to_nat (foldr Z.mul 1%Z shp)) zero]> (bufs s))
         (<[fresh (dom (<[fresh (dom (seqs s)) := shp]> (seqs s))) :=
              strides_from_shape shp]>
            (<[fresh (dom (seqs s)) := shp]> (seqs s)))
         (trace s)).
Proof. reflexivity. Qed.

Lemma reduce_wrap (fn : V → V → V)
    (out out_shape out_strides a_storage a_shape a_strides : loc) (d1 d2 : Z)
    (s : state V) :
  (∀ xs, seqs s !! a_shape = Some xs →
         py_index (length xs) d1 = py_index (length xs) d2) →
  _reduce fn out out_shape out_strides a_storage a_shape a_strides d1 s
  = _reduce fn out out_shape out_strides a_storage a_shape a_strides d2 s.
Proof.
  intros Hpy. unfold _reduce. apply bind_ext_run. intros len s' Hlen.
  unfold seq_len, seq_load in Hlen. rewrite run_bind in Hlen.
  destruct (seqs s !! a_shape) as [xs|] eqn:Hxs; [|done].
  simpl in Hlen. injection Hlen as <- <-.
  apply (reduce_recursive_set_wrap _ _ _ _ _ _ _ _ (length xs)); [by apply Hpy|].
  apply length_replicate.
Qed.

End ReduceDim.

(** X12.  A negative [dim] counts from the end, as Python's list indexing
    does in [out_shape[dim] = 1] (line 343) and in [cur_a_index[reduce_dim]]
    (lines 298 and 305): for a tensor of rank [r] and [0 <= d < r], the call
    [reduce(fn, start)(a, d - r)] ends exactly as [reduce(fn, start)(a, d)]
    does, with the same result or exception, the same store and the same
    trace. *)
Theorem reduce_negative_dim {V} (zero : V) (fn : V → V → V) (start : V)
    (a : tensor) (s : state V) (sh : list Z) (d : Z) :
  seqs s !! t_shape a = Some sh → (0 ≤ d < Z.of_nat (length sh))%Z →
  TensorOps.reduce zero fn start a (d - Z.of_nat (length sh)) s
  = TensorOps.reduce zero fn start a d s.
Proof.
  intros Hsh Hd. unfold TensorOps.reduce, shape.
  rewrite !run_bind, (run_seq_load _ _ _ Hsh). cbv beta iota zeta.
  rewrite (lst_set_wrap sh _ d) by by apply py_index_wrap.
  apply bind_ext_run. intros osh s1 Hset.
  assert (s1 = s) as ->.
  { unfold lst_set in Hset. rewrite run_bind in Hset.
    destruct (py_index (length sh) d); simpl in Hset; [|done].
    by injection Hset. }
  apply bind_ext_run. intros out s2 Hz. rewrite run_zeros in Hz.
  injection Hz as <- <-.
  apply bind_ext_run. intros [] s3 Hfill.
  unfold buf_fill, buf_load in Hfill. rewrite !run_bind in Hfill. simpl in Hfill.
  rewrite lookup_insert_eq in Hfill. simpl in Hfill. injection Hfill as <-.
  rewrite !run_bind. unfold tensor_reduce. rewrite (reduce_wrap fn _ _ _ _ _ _ _ d); [done|].
  simpl. intros xs Hxs.
  rewrite !lookup_insert_ne in Hxs.
  - rewrite Hsh in Hxs. injection Hxs as <-. by apply py_index_wrap.
  - intros Heq. pose proof (is_fresh (dom (seqs s))) as Hf.
    rewrite Heq in Hf. apply Hf, elem_of_dom. by eexists.
  - intros Heq.
    pose proof (is_fresh (dom (<[fresh (dom (seqs s)) := osh]> (seqs s)))) as Hf.
    rewrite Heq in Hf. apply Hf, elem_of_dom.
    rewrite lookup_insert_ne; [by eexists|].
    intros Heq'. pose proof (is_fresh (dom (seqs s))) as Hf'.
    rewrite Heq' in Hf'. apply Hf', elem_of_dom. by eexists.
Qed.

Lemma reduce_negative_dim_2x3 :
  TensorOps.reduce 0%float PrimFloat.add 0%float a_2x3
    (1 - Z.of_nat (length [2; 3]%Z)) store_2x3
  = TensorOps.reduce 0%float PrimFloat.add 0%float a_2x3 1 store_2x3.
Proof.
  apply (reduce_negative_dim 0%float PrimFloat.add 0%float a_2x3 store_2x3
           [2; 3]%Z 1); [reflexivity|simpl; lia].
Defined.

(** X13.  A [dim] outside [-r, r) for a tensor of rank [r] makes the entry
    point [reduce] raise IndexError at [out_shape[dim] = 1] (line 343), before
    anything is allocated: the store is left as it was.  The kernel called
    directly with such a [reduce_dim], on an input whose first dimension is
    positive, raises IndexError at the first coordinate (line 298), before any
    cell is read or written. *)
Theorem reduce_dim_out_of_range {V} (zero : V) (fn : V → V → V) (start : V)
    (a : tensor) (s : state V) (sh : list Z) (dim : Z) :
  seqs s !! t_shape a = Some sh →
  ¬ (- Z.of_nat (length sh) ≤ dim < Z.of_nat (length sh))%Z →
  TensorOps.reduce zero fn start a dim s = Raise IndexError s ∧
  ∀ out out_shape out_strides n rest strides,
    sh = n :: rest → (0 < n)%Z → seqs s !! t_strides a = Some strides →
    _reduce fn out out_shape out_strides (t_storage a) (t_shape a) (t_strides a)
      dim s = Raise IndexError s.
Proof.
  intros Hsh Hdim. split.
  - unfold TensorOps.reduce, shape.
    rewrite run_bind, (run_seq_load _ _ _ Hsh). cbv beta iota zeta.
    rewrite run_bind. unfold lst_set. rewrite run_bind.
    by rewrite py_index_None.
  - intros out out_shape out_strides n rest strides -> Hn Hstr.
    unfold _reduce. rewrite run_bind, (run_seq_len _ _ _ Hsh). cbv beta iota.
    cbn [length reduce_recursive_set].
    rewrite run_bind, (run_seq_get _ _ 0 n _ Hsh) by done. cbv beta iota zeta.
    rewrite decide_True by done. rewrite py_range_cons by done.
    rewrite run_bind, for_in_cons, run_bind, run_bind.
    rewrite (run_lst_set _ _ _ 0) by (apply (py_index_nat _ 0); simpl; lia).
    cbv beta iota.
    rewrite run_bind, (run_call_index_to_position _ _ _ _ Hstr). cbv beta iota.
    rewrite run_bind. unfold lst_get. rewrite run_bind.
    rewrite length_insert. simpl length. rewrite length_replicate.
    simpl in Hdim. by rewrite py_index_None.
Qed.

Lemma reduce_dim_out_of_range_2x3 :
  TensorOps.reduce 0%float PrimFloat.add 0%float a_2x3 2 store_2x3
  = Raise IndexError store_2x3 ∧
  ∀ out out_shape out_strides n rest strides,
    [2; 3]%Z = n :: rest → (0 < n)%Z →
    seqs store_2x3 !! t_strides a_2x3 = Some strides →
    _reduce PrimFloat.add out out_shape out_strides
      (t_storage a_2x3) (t_shape a_2x3) (t_strides a_2x3) 2 store_2x3
    = Raise IndexError store_2x3.
Proof.
  apply (reduce_dim_out_of_range 0%float PrimFloat.add 0%float a_2x3 store_2x3
           [2; 3]%Z 2); [reflexivity|simpl; lia].
Defined.

(** ** Empty tensors *)

Lemma py_range_nil (lo hi : Z) : (hi ≤ lo)%Z → py_range lo hi = [].
Proof.
  intros H. unfold py_range, seqZ.
  by replace (Z.to_nat (hi - lo)) with 0 by lia.
Qed.

(** X14.  When the first dimension of the shape that bounds the traversal
    (the output shape for [_map] and [_zip], the input shape for [_reduce]) is
    0 or negative, the loop of the outermost level has no iteration: the
    kernel returns at once and leaves the store, trace included, as it
    was. *)
Theorem kernels_empty_first_dim {V} (s : state V) (shp : loc) (n : Z)
    (rest : list Z) :
  seqs s !! shp = Some (n :: rest) → (n ≤ 0)%Z →
  (∀ fn out out_strides in_storage in_shape in_strides,
     _map fn out shp out_strides in_storage in_shape in_strides s = Ret tt s) ∧
  (∀ fn out out_strides a_storage a_shape a_strides b_storage b_shape b_strides,
     _zip fn out shp out_strides a_storage a_shape a_strides
       b_storage b_shape b_strides s = Ret tt s) ∧
  (∀ fn out out_shape out_strides a_storage a_strides reduce_dim,
     _reduce fn out out_shape out_strides a_storage shp a_strides reduce_dim s
     = Ret tt s).
Proof.
  intros Hshp Hn. repeat split; intros; unfold _map, _zip, _reduce;
    rewrite run_bind, (run_seq_len _ _ _ Hshp); cbv beta iota;
    cbn [length map_recursive_set zip_recursive_set reduce_recursive_set];
    rewrite run_bind, (run_seq_get _ _ 0 n _ Hshp) by done; cbv beta iota zeta;
    rewrite ?decide_True by done; by rewrite py_range_nil by lia.
Qed.

Lemma kernels_empty_first_dim_0x3 :
  (∀ fn out out_strides in_storage in_shape in_strides,
     _map fn out 1 out_strides in_storage in_shape in_strides store_0x3
     = Ret tt store_0x3) ∧
  (∀ fn out out_strides a_storage a_shape a_strides b_storage b_shape b_strides,
     _zip fn out 1 out_strides a_storage a_shape a_strides
       b_storage b_shape b_strides store_0x3 = Ret tt store_0x3) ∧
  (∀ fn out out_shape out_strides a_storage a_strides reduce_dim,
     _reduce fn out out_shape out_strides a_storage 1 a_strides reduce_dim
       store_0x3 = Ret tt store_0x3).
Proof.
  apply (kernels_empty_first_dim store_0x3 1 0 [3]%Z); [reflexivity|lia].
Defined.

Lemma run_buf_get_empty {V} (l : loc) (i : Z) (s : state V) :
  bufs s !! l = Some [] → buf_get l i s = Raise IndexError s.
Proof.
  intros H. unfold buf_get, buf_load. rewrite run_bind, H. simpl.
  rewrite run_bind. unfold py_index. simpl.
  by rewrite !bool_decide_eq_false_2 by lia.
Qed.

(** X15.  A zero dimension below the first does not stop the traversal: the
    outermost loop still visits the coordinate (0, 0, ...).  With a first
    dimension that is positive and an input buffer that holds no cell (as for
    the shape (2,0)), each of the three kernels raises IndexError at that
    first visit and leaves the store as it was: when it reads the input
    (lines 70, 198, 301), or, for [_reduce] with a [reduce_dim] that is no
    index of the coordinate, already at the test of line 298. *)
Theorem kernels_empty_storage_raise {V} (s : state V)
    (shp out out_strides a_storage a_shape a_strides : loc)
    (n : Z) (rest ASH ASTR OSTR : list Z) :
  seqs s !! shp = Some (n :: rest) → (0 < n)%Z →
  seqs s !! a_shape = Some ASH → seqs s !! a_strides = Some ASTR →
  seqs s !! out_strides = Some OSTR →
  bufs s !! a_storage = Some [] →
  (∀ fn, _map fn out shp out_strides a_storage a_shape a_strides s
         = Raise IndexError s) ∧
  (∀ fn b_storage b_shape b_strides BSH BSTR,
     seqs s !! b_shape = Some BSH → seqs s !! b_strides = Some BSTR →
     _zip fn out shp out_strides a_storage a_shape a_strides
       b_storage b_shape b_strides s = Raise IndexError s) ∧
  (∀ fn out_shape reduce_dim,
     _reduce fn out out_shape out_strides a_storage shp a_strides reduce_dim s
     = Raise IndexError s).
Proof.
  intros Hshp Hn Hash Hastr Hostr Ha.
  assert (∀ i, @lst_set V (replicate (S (length rest)) 0%Z) (Z.of_nat 0) i s
             = Ret (i :: replicate (length rest) 0%Z) s) as Hset.
  { intros i. exact (lst_set_middle [] 0%Z i _ s). }
  split; [|split].
  - intros fn. unfold _map.
    rewrite run_bind, (run_seq_len _ _ _ Hshp). cbv beta iota.
    cbn [length map_recursive_set].
    rewrite run_bind, (run_seq_get _ _ 0 n _ Hshp) by done. cbv beta iota.
    rewrite py_range_cons by done.
    rewrite run_bind, for_in_cons, run_bind, run_bind, Hset. cbv beta iota.
    rewrite run_bind, (run_call_broadcast_index _ _ _ _ _ _ _ Hshp Hash).
    cbv beta iota zeta.
    rewrite run_bind, (run_call_index_to_position _ _ _ _ Hastr).
    rewrite run_bind, (run_call_index_to_position _ _ _ _ Hostr).
    cbv beta iota.
    by rewrite run_bind, run_buf_get_empty.
  - intros fn b_storage b_shape b_strides BSH BSTR Hbsh Hbstr. unfold _zip.
    rewrite run_bind, (run_seq_len _ _ _ Hshp). cbv beta iota.
    cbn [length zip_recursive_set].
    rewrite run_bind, (run_seq_get _ _ 0 n _ Hshp) by done. cbv beta iota.
    rewrite py_range_cons by done.
    rewrite run_bind, for_in_cons, run_bind, run_bind, Hset. cbv beta iota.
    rewrite run_bind, (run_call_broadcast_index _ _ _ _ _ _ _ Hshp Hash).
    cbv beta iota zeta.
    rewrite run_bind, (run_call_broadcast_index _ _ _ _ _ _ _ Hshp Hbsh).
    cbv beta iota zeta.
    rewrite run_bind, (run_call_index_to_position _ _ _ _ Hastr).
    rewrite run_bind, (run_call_index_to_position _ _ _ _ Hbstr).
    rewrite run_bind, (run_call_index_to_position _ _ _ _ Hostr).
    cbv beta iota.
    by rewrite run_bind, run_buf_get_empty.
  - intros fn out_shape reduce_dim. unfold _reduce.
    rewrite run_bind, (run_seq_len _ _ _ Hshp). cbv beta iota.
    cbn [length reduce_recursive_set].
    rewrite run_bind, (run_seq_get _ _ 0 n _ Hshp) by done. cbv beta iota zeta.
    rewrite decide_True by done. rewrite py_range_cons by done.
    rewrite run_bind, for_in_cons, run_bind, run_bind, Hset. cbv beta iota.
    rewrite run_bind, (run_call_index_to_position _ _ _ _ Hastr). cbv beta iota.
    rewrite run_bind.
    destruct (py_index (length (0%Z :: replicate (length rest) 0%Z)) reduce_dim)
      as [k|] eqn:Hk.
    2:{ unfold lst_get. by rewrite run_bind, Hk. }
    rewrite (run_lst_get _ _ 0%Z k) by
      (try done; apply py_index_lt in Hk;
       change (0%Z :: replicate (length rest) 0%Z)
         with (replicate (S (length rest)) 0%Z);
       apply lookup_replicate_2; simpl in Hk; by rewrite length_replicate in Hk).
    cbv beta iota. rewrite decide_True by done.
    rewrite run_bind, run_bind, (run_call_index_to_position _ _ _ _ Hostr).
    cbv beta iota.
    by rewrite run_bind, run_buf_get_empty.
Qed.

Lemma kernels_empty_storage_raise_2x0 :
  (∀ fn, _map fn 2 1 2 1 1 2 store_2x0 = Raise IndexError store_2x0) ∧
  (∀ fn b_storage b_shape b_strides BSH BSTR,
     seqs store_2x0 !! b_shape = Some BSH →
     seqs store_2x0 !! b_strides = Some BSTR →
     _zip fn 2 1 2 1 1 2 b_storage b_shape b_strides store_2x0
     = Raise IndexError store_2x0) ∧
  (∀ fn out_shape reduce_dim,
     _reduce fn 2 out_shape 2 1 1 2 reduce_dim store_2x0
     = Raise IndexError store_2x0).
Proof.
  apply (kernels_empty_storage_raise store_2x0 1 2 2 1 1 2 2 [0]%Z
           [2; 0]%Z [0; 1]%Z [0; 1]%Z); (reflexivity || lia).
Defined.

(** ** The output buffer of [_map] and [_zip] is only written *)

(** X11.  Whatever the arguments, and whether the call returns or raises: when
    the output buffer is not one of the input buffers, no run of [_map] or of
    [_zip] reads a cell of the output buffer. *)
Theorem map_zip_never_read_out {V} (s : state V)
    (out out_shape out_strides a_storage a_shape a_strides
     b_storage b_shape b_strides : loc) :
  out ≠ a_storage → out ≠ b_storage →
  (∀ fn, ∃ evs,
     trace (state_of
       (_map fn out out_shape out_strides a_storage a_shape a_strides s))
     = trace s ++ evs ∧ Forall (λ ev, is_read out ev = false) evs) ∧
  (∀ fn, ∃ evs,
     trace (state_of
       (_zip fn out out_shape out_strides a_storage a_shape a_strides
          b_storage b_shape b_strides s))
     = trace s ++ evs ∧ Forall (λ ev, is_read out ev = false) evs).
Proof.
  intros Ha Hb.
  split; intros fn;
    apply (preserves_state_of (emits (λ ev, is_read out ev = false)) (λ _, True));
    [ eapply (preserves_map _ (λ _, True) (λ ev, is_read out ev = false)
                (λ _, True))
    | eapply (preserves_zip _ (λ _, True) (λ ev, is_read out ev = false)
                (λ _, True)) ];
    try done; try (intros; apply emits_emit; done);
    try (intros; apply emits_store; done);
    intros k; simpl; by apply bool_decide_eq_false_2.
Qed.

Lemma map_zip_never_read_out_2x3 :
  (∀ fn, ∃ evs,
     trace (state_of (_map fn 2 1 2 1 1 2 store_map_2x3))
     = trace store_map_2x3 ++ evs ∧ Forall (λ ev, is_read 2 ev = false) evs) ∧
  (∀ fn, ∃ evs,
     trace (state_of (_zip fn 2 1 2 1 1 2 1 1 2 store_map_2x3))
     = trace store_map_2x3 ++ evs ∧ Forall (λ ev, is_read 2 ev = false) evs).
Proof.
  apply (map_zip_never_read_out store_map_2x3 2 1 2 1 1 2 1 1 2); done.
Defined.

(** ** The entry points only allocate *)

Section Pure.
Context {V : Type}.
Implicit Types s : state V.

Lemma extends_refl s : extends s s.
Proof. by split. Qed.

Lemma extends_zeros (zero : V) (shp : list Z) s :
  extends s (state_of (zeros zero shp s)).
Proof.
  rewrite run_zeros. split; simpl.
  - apply insert_subseteq, fresh_lookup_None.
  - etrans; [|apply insert_subseteq, fresh_lookup_None].
    apply insert_subseteq, fresh_lookup_None.
Qed.

Lemma extends_frame (out : loc) s s1 s2 :
  bufs s !! out = None → extends s s1 → frame out s1 s2 → extends s s2.
Proof.
  intros Hout [Hb Hs] [Hs' Hb']. split.
  - apply map_subseteq_spec. intros l x Hl.
    rewrite Hb' by congruence.
    by eapply lookup_weaken.
  - by rewrite Hs'.
Qed.

Lemma extends_fill (out : loc) (b : list V) s s1 :
  bufs s !! out = None → extends s s1 →
  extends s (State (<[out := b]> (bufs s1)) (seqs s1) (trace s1)).
Proof.
  intros Hout [Hb Hs]. split; simpl; [|done].
  by apply insert_subseteq_r.
Qed.

Lemma frame_map (fn : V → V) out out_shape out_strides in_storage in_shape
    in_strides s :
  frame out s (state_of
    (_map fn out out_shape out_strides in_storage in_shape in_strides s)).
Proof.
  apply (preserves_state_of (frame out) (λ _, True)).
  eapply (preserves_map (frame out) _ (λ _, True) (λ l, l = out));
    eauto using frame_emit, frame_store.
Qed.

Lemma frame_zip (fn : V → V → V) out out_shape out_strides a_storage a_shape
    a_strides b_storage b_shape b_strides s :
  frame out s (state_of
    (_zip fn out out_shape out_strides a_storage a_shape a_strides
       b_storage b_shape b_strides s)).
Proof.
  apply (preserves_state_of (frame out) (λ _, True)).
  eapply (preserves_zip (frame out) _ (λ _, True) (λ l, l = out));
    eauto using frame_emit, frame_store.
Qed.

Lemma frame_reduce (fn : V → V → V) out out_shape out_strides a_storage a_shape
    a_strides reduce_dim s :
  frame out s (state_of
    (_reduce fn out out_shape out_strides a_storage a_shape a_strides
       reduce_dim s)).
Proof.
  apply (preserves_state_of (frame out) (λ _, True)).
  eapply (preserves_reduce (frame out) _ (λ _, True) (λ l, l = out));
    eauto using frame_emit, frame_store.
Qed.

(** The outcome of [m;; mret x] leaves the store [m] leaves. *)
Lemma pure_after {A} (m : M V unit) (x : A) (P : A → state V → Prop)
    (Q : state V → Prop) s :
  Q (state_of (m s)) → (∀ s', m s = Ret tt s' → P x s') →
  match (m;; mret x) s with Ret y s' => Q s' ∧ P y s' | Raise _ s' => Q s' end.
Proof.
  intros HQ HP. rewrite run_bind.
  destruct (m s) as [[] s'|e s']; simpl in *; [|done].
  split; [done|by apply HP].
Qed.

End Pure.

(** X10.  Whatever the store and the tensors, and whether the call returns or
    raises: [map(fn)(a)] (without [out]), [zip(fn)(a, b)] and
    [reduce(fn, start)(a, dim)] leave every buffer and every shape or stride
    sequence that the store held before the call as it was; what they write
    is new.  When they return, the storage of the tensor they return is a
    buffer the store did not hold before. *)
Theorem entry_points_only_allocate {V} (zero : V) (a b : tensor) (s : state V) :
  (∀ fn,
     match TensorOps.map zero fn a None s with
     | Ret out s' => extends s s' ∧ bufs s !! t_storage out = None
     | Raise _ s' => extends s s'
     end) ∧
  (∀ fn,
     match TensorOps.zip zero fn a b s with
     | Ret out s' => extends s s' ∧ bufs s !! t_storage out = None
     | Raise _ s' => extends s s'
     end) ∧
  (∀ fn start dim,
     match TensorOps.reduce zero fn start a dim s with
     | Ret out s' => extends s s' ∧ bufs s !! t_storage out = None
     | Raise _ s' => extends s s'
     end).
Proof.
  split; [|split].
  - intros fn. unfold TensorOps.map, shape.
    rewrite run_bind, run_bind. unfold seq_load at 1.
    destruct (seqs s !! t_shape a) as [sh|]; simpl from_option;
      [|apply extends_refl].
    rewrite run_ret. cbv beta iota. rewrite run_zeros. cbv beta iota.
    apply (pure_after _ _ (λ out _, bufs s !! t_storage out = None));
      [|intros; apply fresh_lookup_None].
    eapply extends_frame; [apply fresh_lookup_None| |apply frame_map].
    exact (extends_zeros zero sh s).
  - intros fn. unfold TensorOps.zip, shape.
    rewrite run_bind. unfold seq_load at 1.
    destruct (seqs s !! t_shape a) as [sa|]; simpl from_option;
      [|apply extends_refl].
    rewrite run_ret. cbv beta iota. rewrite run_bind. unfold seq_load at 1.
    destruct (seqs s !! t_shape b) as [sb|]; simpl from_option;
      [|apply extends_refl].
    rewrite run_ret. cbv beta iota. rewrite run_bind.
    assert (∃ evs, ∀ c_shape s1,
      (if decide (sa ≠ sb) then call_shape_broadcast sa sb else mret sa) s
      = Ret c_shape s1 → s1 = State (bufs s) (seqs s) (trace s ++ evs)) as [evs Hc].
    { case_decide.
      - exists [EvBroadcast]. intros c s1. unfold call_shape_broadcast.
        rewrite run_bind. simpl. destruct (shape_broadcast sa sb); simpl; [|done].
        by intros [= _ <-].
      - exists []. intros c s1 [= _ <-]. rewrite app_nil_r. by destruct s. }
    destruct ((if decide (sa ≠ sb) then call_shape_broadcast sa sb else mret sa) s)
      as [c_shape s1|e s1] eqn:Hcs.
    + rewrite (Hc _ _ eq_refl). clear Hc Hcs s1.
      set (s1 := State (bufs s) (seqs s) (trace s ++ evs)).
      assert (extends s s1) as Hs1 by by split.
      rewrite run_bind, run_zeros. cbv beta iota.
      apply (pure_after _ _ (λ out _, bufs s !! t_storage out = None));
        [|intros; apply (fresh_lookup_None (bufs s))].
      eapply extends_frame; [apply (fresh_lookup_None (bufs s))| |apply frame_zip].
      destruct Hs1 as [Hb1 Hq1].
      destruct (extends_zeros zero c_shape s1) as [Hb2 Hq2].
      split; [exact Hb2|exact Hq2].
    + clear Hc.
      revert Hcs. case_decide; [|done]. unfold call_shape_broadcast.
      rewrite run_bind. simpl. destruct (shape_broadcast sa sb); simpl; [done|].
      intros [= _ <-]. by split.
  - intros fn start dim. unfold TensorOps.reduce, shape.
    rewrite run_bind. unfold seq_load at 1.
    destruct (seqs s !! t_shape a) as [sa|]; simpl from_option;
      [|apply extends_refl].
    rewrite run_ret. cbv beta iota zeta. rewrite run_bind.
    unfold lst_set. rewrite run_bind.
    destruct (py_index (length sa) dim) as [k|]; simpl from_option;
      [|apply extends_refl].
    rewrite run_ret. cbv beta iota. rewrite run_ret. cbv beta iota.
    rewrite run_bind, run_zeros. cbv beta iota.
    rewrite run_bind. unfold buf_fill, buf_load. rewrite !run_bind. simpl.
    rewrite lookup_insert_eq. simpl.
    apply (pure_after _ _ (λ out _, bufs s !! t_storage out = None));
      [|intros; apply (fresh_lookup_None (bufs s))].
    eapply extends_frame; [apply (fresh_lookup_None (bufs s))| |apply frame_reduce].
    apply (extends_fill _ _ s (state_of (zeros zero (<[k:=1%Z]> sa) s)));
      [apply fresh_lookup_None|apply extends_zeros].
Qed.

(** ** Rank 0 at the entry points *)

Lemma zeros_rank0 {V} (zero : V) (s : state V) :
  ∃ out s1,
    zeros zero [] s = Ret out s1 ∧
    seqs s1 !! t_shape out = Some [] ∧
    bufs s1 !! t_storage out = Some [zero].
Proof.
  rewrite run_zeros. eexists _, _. split; [reflexivity|]. simpl. split.
  - rewrite lookup_insert_ne, lookup_insert_eq; [done|].
    apply fresh_ne. rewrite lookup_insert_eq. by eexists.
  - by rewrite lookup_insert_eq.
Qed.

(** X17.  On tensors of rank 0 (shape [()], one cell) the result of the entry
    points does not depend on [fn]: [map(fn)(a)] and [zip(fn)(a, b)] return a
    tensor of rank 0 whose one cell holds the 0.0 that [a.zeros] put there,
    because the kernels return at once (lines 57 and 179);
    [reduce(fn, start)(a, dim)] raises IndexError for every [dim], at
    [out_shape[dim] = 1] (line 343), and leaves the store as it was. *)
Theorem entry_points_rank0 {V} (zero : V) (a b : tensor) (s : state V) :
  seqs s !! t_shape a = Some [] → seqs s !! t_shape b = Some [] →
  (∀ fn, tensor_value (TensorOps.map zero fn a None s) = Some ([], [zero])) ∧
  (∀ fn, tensor_value (TensorOps.zip zero fn a b s) = Some ([], [zero])) ∧
  (∀ fn start dim,
     TensorOps.reduce zero fn start a dim s = Raise IndexError s).
Proof.
  intros Ha Hb.
  destruct (zeros_rank0 zero s) as (out & s1 & Hz & Hsh & Hst).
  split; [|split].
  - intros fn. unfold TensorOps.map, shape.
    rewrite run_bind, run_bind, (run_seq_load _ _ _ Ha). cbv beta iota.
    rewrite Hz. cbv beta iota. unfold tensor_map, _map.
    rewrite run_bind, run_bind, (run_seq_len _ _ _ Hsh). cbv beta iota.
    simpl. by rewrite Hsh, Hst.
  - intros fn. unfold TensorOps.zip, shape.
    rewrite run_bind, (run_seq_load _ _ _ Ha). cbv beta iota zeta.
    rewrite run_bind, (run_seq_load _ _ _ Hb). cbv beta iota.
    rewrite decide_False by (intros H; by apply H).
    rewrite run_bind, run_ret. cbv beta iota.
    rewrite run_bind, Hz. cbv beta iota. unfold tensor_zip, _zip.
    rewrite run_bind, run_bind, (run_seq_len _ _ _ Hsh). cbv beta iota.
    simpl. by rewrite Hsh, Hst.
  - intros fn start dim. unfold TensorOps.reduce, shape.
    rewrite run_bind, (run_seq_load _ _ _ Ha). cbv beta iota zeta.
    rewrite run_bind. unfold lst_set. rewrite run_bind.
    rewrite py_index_None; [done|]. simpl. lia.
Qed.

Lemma entry_points_rank0_scalar :
  (∀ fn, tensor_value (TensorOps.map 0%float fn a_rank0 None store_rank0)
         = Some ([], [0%float])) ∧
  (∀ fn, tensor_value
           (TensorOps.zip 0%float fn a_rank0 a_rank0 store_rank0)
         = Some ([], [0%float])) ∧
  (∀ fn start dim,
     TensorOps.reduce 0%float fn start a_rank0 dim store_rank0
     = Raise IndexError store_rank0).
Proof.
  apply (entry_points_rank0 0%float a_rank0 a_rank0 store_rank0);
    reflexivity.
Defined.

(** ** Row-major strides *)

Lemma contiguous_pos_bounds (sh c : list Z) :
  in_bounds sh c →
  (0 ≤ index_to_position c (strides_from_shape sh) < foldr Z.mul 1 sh)%Z.
Proof.
  intros H. induction H as [|i n c sh Hi Hc IH]; simpl; [lia|].
  nia.
Qed.

Lemma contiguous_pos_inj (sh c c' : list Z) :
  in_bounds sh c → in_bounds sh c' →
  index_to_position c (strides_from_shape sh)
  = index_to_position c' (strides_from_shape sh) → c = c'.
Proof.
  intros H. revert c'. induction H as [|i n c sh Hi Hc IH]; intros c' Hc' Heq.
  - by apply Forall2_nil_inv_r in Hc' as ->.
  - apply Forall2_cons_inv_r in Hc' as (i' & c'' & Hi' & Hc'' & ->).
    simpl in Heq.
    pose proof (contiguous_pos_bounds sh c Hc).
    pose proof (contiguous_pos_bounds sh c'' Hc'').
    assert (i = i') as -> by nia.
    f_equal. apply IH; [done|lia].
Qed.

Lemma broadcast_project_id (sh c : list Z) :
  in_bounds sh c → broadcast_project c sh = c.
Proof.
  intros H. unfold broadcast_project.
  rewrite (Forall2_length _ _ _ H), Nat.sub_diag, drop_0.
  induction H as [|i n c sh Hi Hc IH]; simpl; [done|].
  rewrite IH. f_equal. case_decide; lia.
Qed.

Lemma map_in_index_id (sh c : list Z) :
  in_bounds sh c → map_in_index sh sh c = c.
Proof.
  intros H. rewrite map_in_index_project.
  - by apply broadcast_project_id.
  - by eapply Forall2_length.
  - done.
  - clear -H. induction H; constructor; [lia|done].
Qed.

Lemma contiguous_pos_surj (sh : list Z) :
  Forall (λ n, (0 < n)%Z) sh →
  ∀ k, (0 ≤ k < foldr Z.mul 1 sh)%Z →
  ∃ c, in_bounds sh c ∧ index_to_position c (strides_from_shape sh) = k.
Proof.
  induction 1 as [|n sh Hn Hdims IH]; intros k Hk; simpl in Hk.
  - exists []. split; [constructor|]. simpl. lia.
  - assert (0 < foldr Z.mul 1 sh)%Z as HP by nia.
    destruct (IH (k mod foldr Z.mul 1 sh)%Z) as (c & Hc & Hpos).
    { by apply Z.mod_pos_bound. }
    exists ((k / foldr Z.mul 1 sh)%Z :: c). split.
    + constructor; [|done]. split.
      * apply Z.div_pos; lia.
      * apply Z.div_lt_upper_bound; lia.
    + simpl. rewrite Hpos.
      pose proof (Z.div_mod k (foldr Z.mul 1%Z sh)). lia.
Qed.

Lemma in_bounds_nonempty (sh c : list Z) : sh ≠ [] → in_bounds sh c → c ≠ [].
Proof. intros Hsh Hc ->. apply Forall2_nil_inv_l in Hc. done. Qed.

Lemma in_bounds_nonneg (sh c : list Z) :
  in_bounds sh c → Forall (λ i, (0 ≤ i)%Z) c.
Proof. intros H. induction H; constructor; [lia|done]. Qed.

Lemma map_in_pos_project (sc sa sta c : list Z) :
  in_bounds sc c → length sa ≤ length sc →
  map_in_pos sc sa sta c = index_to_position (broadcast_project c sa) sta.
Proof.
  intros Hc Hlen. unfold map_in_pos. rewrite map_in_index_project; [done| |done|].
  - by eapply Forall2_length.
  - by eapply in_bounds_nonneg.
Qed.

Lemma map_visits_all_in_bounds (shape : list Z) :
  Forall (λ n, (0 < n)%Z) shape →
  Forall (in_bounds shape) (map_visits [] shape).
Proof.
  intros Hdims. apply Forall_forall. intros c Hc.
  by apply map_visits_in_bounds in Hc as (d & -> & Hd).
Qed.

(** ** [map] at the entry point *)

Lemma map_entry_cells {V} (zero : V) (fn : V → V) (a : tensor)
    (s : state V) (sh st : list Z) (av : list V) :
  seqs s !! t_shape a = Some sh → seqs s !! t_strides a = Some st →
  bufs s !! t_storage a = Some av →
  Forall (λ n, (0 < n)%Z) sh →
  (∀ c, in_bounds sh c → (0 ≤ index_to_position c st < Z.of_nat (length av))%Z) →
  ∃ out s' o',
    TensorOps.map zero fn a None s = Ret out s' ∧
    bufs s !! t_storage out = None ∧
    bufs s' !! t_storage a = Some av ∧
    seqs s' !! t_shape out = Some sh ∧
    seqs s' !! t_strides out = Some (strides_from_shape sh) ∧
    bufs s' !! t_storage out = Some o' ∧
    length o' = Z.to_nat (foldr Z.mul 1%Z sh) ∧
    ∀ c, c ≠ [] → in_bounds sh c →
      ∃ x, av !! Z.to_nat (index_to_position c st) = Some x ∧
           o' !! Z.to_nat (index_to_position c (strides_from_shape sh))
           = Some (fn x).
Proof.
  intros Hsh Hst Hav Hdims Hpos.
  unfold TensorOps.map, shape.
  rewrite run_bind, run_bind, (run_seq_load _ _ _ Hsh). cbv beta iota.
  rewrite run_zeros. cbv beta iota.
  set (l0 := fresh (dom (bufs s))).
  set (l1 := fresh (dom (seqs s))).
  set (l2 := fresh (dom (<[l1 := sh]> (seqs s)))).
  set (o := replicate (Z.to_nat (foldr Z.mul 1%Z sh)) zero).
  set (s1 := State (<[l0 := o]> (bufs s))
               (<[l2 := strides_from_shape sh]> (<[l1 := sh]> (seqs s))) (trace s)).
  assert (l0 ≠ t_storage a) as Hl0 by (apply fresh_ne; by eexists).
  assert (l1 ≠ t_shape a) as Hl1 by (apply fresh_ne; by eexists).
  assert (l1 ≠ t_strides a) as Hl1' by (apply fresh_ne; by eexists).
  assert (l2 ≠ l1) as Hl21.
  { apply fresh_ne. rewrite lookup_insert_eq. by eexists. }
  assert (l2 ≠ t_shape a) as Hl2.
  { apply fresh_ne. rewrite lookup_insert_ne by done. by eexists. }
  assert (l2 ≠ t_strides a) as Hl2'.
  { apply fresh_ne. rewrite lookup_insert_ne by done. by eexists. }
  assert (map_store l0 l1 l2 (t_storage a) (t_shape a) (t_strides a)
            sh (strides_from_shape sh) sh st av (length o) s1 o) as Hstore.
  { unfold map_store, s1. simpl.
    rewrite lookup_insert_eq.
    rewrite (lookup_insert_ne _ l2 l1), lookup_insert_eq by done.
    rewrite !(lookup_insert_ne _ _ (t_shape a)) by done.
    rewrite !(lookup_insert_ne _ _ (t_strides a)) by done.
    rewrite (lookup_insert_ne _ l0) by done. by rewrite lookup_insert_eq. }
  assert (∀ c, in_bounds sh c →
    (0 ≤ map_out_pos (strides_from_shape sh) c < Z.of_nat (length o))%Z) as Hopos.
  { intros c Hc. unfold map_out_pos, o. rewrite length_replicate.
    pose proof (contiguous_pos_bounds sh c Hc). lia. }
  assert (∀ c, in_bounds sh c →
    (0 ≤ map_in_pos sh sh st c < Z.of_nat (length av))%Z) as Hipos.
  { intros c Hc. unfold map_in_pos. rewrite map_in_index_id by done.
    by apply Hpos. }
  rewrite run_bind. unfold tensor_map. cbn [t_storage t_shape t_strides].
  rewrite (map_run fn l0 l1 l2 (t_storage a) (t_shape a) (t_strides a)
             sh (strides_from_shape sh) sh st av (length o) Hl0 Hdims Hopos
             Hipos s1 o Hstore).
  cbv beta iota. rewrite run_ret.
  eexists _, _, _. split; [reflexivity|]. unfold upd, s1. simpl.
  split; [apply fresh_lookup_None|].
  split; [by rewrite !lookup_insert_ne by done|].
  split; [by rewrite lookup_insert_ne, lookup_insert_eq by done|].
  split; [by rewrite lookup_insert_eq|].
  split; [apply lookup_insert_eq|]. split.
  { rewrite (map_cells_length fn sh (strides_from_shape sh) sh st av).
    apply length_replicate. }
  intros c Hc0 Hc.
  destruct (lookup_lt_is_Some_2 av (Z.to_nat (index_to_position c st)))
    as [x Hx].
  { pose proof (Hpos c Hc). lia. }
  exists x. split; [done|].
  apply (map_cells_lookup fn l0 (t_storage a) sh (strides_from_shape sh) sh st
           av (length o)); try done.
  - intros c1 c2 H1 H2. by apply contiguous_pos_inj.
  - apply Forall_forall. intros c' Hc'.
    by apply map_visits_in_bounds in Hc' as (d & -> & Hd).
  - by apply (map_visits_elem sh []).
  - unfold map_in_pos. by rewrite map_in_index_id.
Qed.

(** X5.  Let [a] be a tensor with positive dimensions whose every coordinate
    addresses a cell of its storage (whatever its strides).  Then [map(fn)(a)]
    returns a tensor with a new storage, of [a]'s shape and with row-major
    strides, with one cell per coordinate, that holds [fn(a[c])] at every
    coordinate [c] of rank at least 1; [a]'s storage is as it was.  (The one
    cell of a tensor of rank 0 is not visited.) *)
Theorem map_returns_fn_of_cells {V} (zero : V) (fn : V → V) (a : tensor)
    (s : state V) (sh st : list Z) (av : list V) :
  seqs s !! t_shape a = Some sh → seqs s !! t_strides a = Some st →
  bufs s !! t_storage a = Some av →
  Forall (λ n, (0 < n)%Z) sh →
  (∀ c, in_bounds sh c → (0 ≤ index_to_position c st < Z.of_nat (length av))%Z) →
  ∃ out s' o',
    TensorOps.map zero fn a None s = Ret out s' ∧
    bufs s !! t_storage out = None ∧
    bufs s' !! t_storage a = Some av ∧
    seqs s' !! t_shape out = Some sh ∧
    seqs s' !! t_strides out = Some (strides_from_shape sh) ∧
    bufs s' !! t_storage out = Some o' ∧
    length o' = Z.to_nat (foldr Z.mul 1%Z sh) ∧
    ∀ c, c ≠ [] → in_bounds sh c →
      ∃ x, av !! Z.to_nat (index_to_position c st) = Some x ∧
           o' !! Z.to_nat (index_to_position c (strides_from_shape sh))
           = Some (fn x).
Proof.
  intros Hsh Hst Hav Hdims Hpos.
  by apply map_entry_cells.
Qed.

Lemma map_returns_fn_of_cells_2x3 :
  ∃ out s' o',
    TensorOps.map 0%float (λ x, x * 2)%float a_2x3 None store_2x3 = Ret out s' ∧
    bufs store_2x3 !! t_storage out = None ∧
    bufs s' !! t_storage a_2x3 = Some [1; 2; 3; 4; 5; 6]%float ∧
    seqs s' !! t_shape out = Some [2; 3]%Z ∧
    seqs s' !! t_strides out = Some (strides_from_shape [2; 3]%Z) ∧
    bufs s' !! t_storage out = Some o' ∧
    length o' = Z.to_nat (foldr Z.mul 1%Z [2; 3]%Z) ∧
    ∀ c, c ≠ [] → in_bounds [2; 3]%Z c →
      ∃ x, [1; 2; 3; 4; 5; 6]%float !! Z.to_nat (index_to_position c [3; 1]%Z)
           = Some x ∧
           o' !! Z.to_nat (index_to_position c (strides_from_shape [2; 3]%Z))
           = Some (x * 2)%float.
Proof.
  apply (map_returns_fn_of_cells 0%float (λ x, x * 2)%float a_2x3 store_2x3
           [2; 3]%Z [3; 1]%Z [1; 2; 3; 4; 5; 6]%float).
  - reflexivity.
  - reflexivity.
  - reflexivity.
  - repeat constructor.
  - intros c Hc. inv_bounds. cbn. lia.
Defined.

(** X6.  Mapping [f] and then [g] gives what mapping their composition
    gives: for a tensor [a] as above, [map(g)(map(f)(a))] and
    [map(g . f)(a)] return tensors of the same shape whose storages hold the
    same values, cell for cell. *)
Theorem map_fusion {V} (zero : V) (f g : V → V) (a : tensor)
    (s : state V) (sh st : list Z) (av : list V) :
  seqs s !! t_shape a = Some sh → seqs s !! t_strides a = Some st →
  bufs s !! t_storage a = Some av →
  sh ≠ [] → Forall (λ n, (0 < n)%Z) sh →
  (∀ c, in_bounds sh c → (0 ≤ index_to_position c st < Z.of_nat (length av))%Z) →
  ∃ t1 s1 o,
    TensorOps.map zero f a None s = Ret t1 s1 ∧
    tensor_value (TensorOps.map zero g t1 None s1) = Some (sh, o) ∧
    tensor_value (TensorOps.map zero (λ x, g (f x)) a None s) = Some (sh, o).
Proof.
  intros Hsh Hst Hav Hne Hdims Hpos.
  destruct (map_entry_cells zero f a s sh st av Hsh Hst Hav Hdims Hpos)
    as (t1 & s1 & o1 & Hrun1 & _ & _ & Hsh1 & Hst1 & Ho1 & Hlen1 & Hcells1).
  assert (∀ c, in_bounds sh c →
    (0 ≤ index_to_position c (strides_from_shape sh) < Z.of_nat (length o1))%Z)
    as Hpos1.
  { intros c Hc. pose proof (contiguous_pos_bounds sh c Hc). lia. }
  destruct (map_entry_cells zero g t1 s1 sh (strides_from_shape sh) o1
              Hsh1 Hst1 Ho1 Hdims Hpos1)
    as (t2 & s2 & o2 & Hrun2 & _ & _ & Hsh2 & _ & Ho2 & Hlen2 & Hcells2).
  destruct (map_entry_cells zero (λ x, g (f x)) a s sh st av
              Hsh Hst Hav Hdims Hpos)
    as (t3 & s3 & o3 & Hrun3 & _ & _ & Hsh3 & _ & Ho3 & Hlen3 & Hcells3).
  exists t1, s1, o2. split; [done|].
  rewrite Hrun2, Hrun3. simpl. rewrite Hsh2, Ho2, Hsh3, Ho3. simpl.
  split; [done|]. do 2 f_equal.
  apply list_eq. intros k.
  destruct (decide (k < Z.to_nat (foldr Z.mul 1%Z sh))) as [Hk|Hk].
  - destruct (contiguous_pos_surj sh Hdims (Z.of_nat k)) as (c & Hc & Hck); [lia|].
    pose proof (in_bounds_nonempty sh c Hne Hc) as Hc0.
    destruct (Hcells1 c Hc0 Hc) as (x & Hx & Ho1c).
    destruct (Hcells2 c Hc0 Hc) as (x1 & Hx1 & Ho2c).
    destruct (Hcells3 c Hc0 Hc) as (x' & Hx' & Ho3c).
    rewrite Hck, Nat2Z.id in *. simplify_eq. congruence.
  - rewrite !lookup_ge_None_2; [done|lia|lia].
Qed.

Lemma map_fusion_2x3 :
  ∃ t1 s1 o,
    TensorOps.map 0%float (λ x, x * 2)%float a_2x3 None store_2x3 = Ret t1 s1 ∧
    tensor_value (TensorOps.map 0%float (λ x, x + 1)%float t1 None s1)
    = Some ([2; 3]%Z, o) ∧
    tensor_value
      (TensorOps.map 0%float (λ x, x * 2 + 1)%float a_2x3 None store_2x3)
    = Some ([2; 3]%Z, o).
Proof.
  apply (map_fusion 0%float (λ x, x * 2)%float (λ x, x + 1)%float a_2x3
           store_2x3 [2; 3]%Z [3; 1]%Z [1; 2; 3; 4; 5; 6]%float).
  - reflexivity.
  - reflexivity.
  - reflexivity.
  - done.
  - repeat constructor.
  - intros c Hc. inv_bounds. cbn. lia.
Defined.

(** ** The traversal of [_map] and [_zip], once *)

Section TraverseEq.
Context {V : Type}.

Local Ltac peel :=
  rewrite bind_assoc_run; apply bind_ext_run; intros; cbv zeta.

Lemma map_recursive_set_traverse (fn : V → V)
    (out out_shape out_strides in_storage in_shape in_strides : loc) (len : nat) :
  ∀ (rem : nat) (cur : list Z) (idx : nat) (s : state V),
  map_recursive_set fn out out_shape out_strides in_storage in_shape in_strides
    len rem cur idx s
  = traverse out_shape
      (map_cell fn out out_shape out_strides in_storage in_shape in_strides len)
      rem cur idx s.
Proof.
  induction rem as [|rem IH]; intros cur idx s; [done|].
  cbn [map_recursive_set traverse].
  apply bind_ext_run. intros n s1 _.
  rewrite !run_bind.
  match goal with
  | |- match ?x with _ => _ end = match ?y with _ => _ end =>
    replace x with y; [done|]
  end.
  symmetry. apply for_in_ext. clear s s1. intros i st s.
  apply bind_ext_run. intros cur' s2 _. unfold map_cell.
  symmetry. do 5 peel.
  apply bind_ext_run. intros. by rewrite !run_bind, IH.
Qed.

Lemma zip_recursive_set_traverse (fn : V → V → V)
    (out out_shape out_strides a_storage a_shape a_strides
     b_storage b_shape b_strides : loc) (len : nat) :
  ∀ (rem : nat) (cur : list Z) (idx : nat) (s : state V),
  zip_recursive_set fn out out_shape out_strides a_storage a_shape a_strides
    b_storage b_shape b_strides len rem cur idx s
  = traverse out_shape
      (zip_cell fn out out_shape out_strides a_storage a_shape a_strides
         b_storage b_shape b_strides len)
      rem cur idx s.
Proof.
  induction rem as [|rem IH]; intros cur idx s; [done|].
  cbn [zip_recursive_set traverse].
  apply bind_ext_run. intros n s1 _.
  rewrite !run_bind.
  match goal with
  | |- match ?x with _ => _ end = match ?y with _ => _ end =>
    replace x with y; [done|]
  end.
  symmetry. apply for_in_ext. clear s s1. intros i st s.
  apply bind_ext_run. intros cur' s2 _. unfold zip_cell.
  symmetry. do 8 peel.
  apply bind_ext_run. intros. by rewrite !run_bind, IH.
Qed.

End TraverseEq.

Section TraverseRun.
Context {V : Type}.
Variable out_shape : loc.
Variable cell : list Z → M V unit.
Variable OSH : list Z.
Variable I : state V → Prop.
Variable T : list Z → state V → state V.

Hypothesis Hdims : Forall (λ n, (0 < n)%Z) OSH.
Hypothesis Hshape : ∀ s, I s → seqs s !! out_shape = Some OSH.
Hypothesis Hcell : ∀ c s,
  in_bounds OSH c → I s → cell c s = Ret tt (T c s) ∧ I (T c s).

Lemma traverse_run (rest : list Z) : ∀ (shp_pre pre : list Z) (s : state V),
  OSH = shp_pre ++ rest → in_bounds shp_pre pre → I s →
  traverse out_shape cell (length rest)
    (pre ++ replicate (length rest) 0%Z) (length pre) s
  = Ret tt (foldl (λ s c, T c s) s (map_visits pre rest)) ∧
  I (foldl (λ s c, T c s) s (map_visits pre rest)).
Proof.
  induction rest as [|n rest IH]; intros shp_pre pre s HO Hpre Hs; [done|].
  assert (length pre = length shp_pre) as Hlen by by eapply Forall2_length.
  assert (OSH !! length pre = Some n) as Hn.
  { rewrite HO, Hlen. by apply list_lookup_middle. }
  cbn [length traverse].
  rewrite run_bind, (run_seq_get _ _ _ _ _ (Hshape s Hs) Hn). cbv beta iota.
  rewrite run_bind.
  match goal with |- context [for_in _ ?b _ _] => set (body := b) end.
  set (block := λ i : Z,
    (pre ++ i :: replicate (length rest) 0%Z) :: map_visits (pre ++ [i]) rest).
  assert (∀ js x s, Forall (λ j, (0 ≤ j < n)%Z) js → I s →
    ∃ x', for_in js body (pre ++ x :: replicate (length rest) 0%Z) s
      = Ret (pre ++ x' :: replicate (length rest) 0%Z)
          (foldl (λ s c, T c s) s (js ≫= block)) ∧
      I (foldl (λ s c, T c s) s (js ≫= block))) as Hloop.
  { clear s Hs.
    induction js as [|j js IHjs]; intros x s Hjs Hs.
    - by exists x.
    - apply Forall_cons in Hjs as [Hj Hjs].
      pose proof (in_bounds_visit _ _ _ _ _ _ Hdims HO Hpre Hj) as Hc.
      destruct (Hcell _ s Hc Hs) as [Hrun Hs1].
      rewrite for_in_cons, run_bind. unfold body at 1.
      rewrite run_bind, (lst_set_middle pre). cbv beta iota.
      rewrite run_bind, Hrun. cbv beta iota.
      assert (OSH = (shp_pre ++ [n]) ++ rest) as HO' by by rewrite <- app_assoc.
      assert (in_bounds (shp_pre ++ [n]) (pre ++ [j])) as Hpre'.
      { apply Forall2_app; [done|]. by constructor. }
      destruct (IH _ _ _ HO' Hpre' Hs1) as [IH1 Hs2].
      rewrite <- app_assoc, <- cons_middle, length_app, Nat.add_1_r in IH1.
      rewrite run_bind, IH1. cbv beta iota. rewrite run_ret. cbv beta iota.
      destruct (IHjs j _ Hjs Hs2) as (x' & Hx' & Hs3).
      exists x'. rewrite Hx'. rewrite bind_cons, foldl_app. done. }
  destruct (Hloop (py_range 0 n) 0%Z s) as (x' & Hx' & Hs').
  { unfold py_range. apply Forall_seqZ. intros j Hj. lia. }
  { done. }
  change (replicate (S (length rest)) 0%Z) with (0%Z :: replicate (length rest) 0%Z).
  rewrite Hx'. done.
Qed.

End TraverseRun.

(** ** The run of [_zip] on well-formed arguments *)

Section ZipRun.
Context {V : Type}.
Variable fn : V → V → V.
Variables out out_shape out_strides : loc.
Variables a_storage a_shape a_strides b_storage b_shape b_strides : loc.
Variables OSH OSTR ASH ASTR BSH BSTR : list Z.
Variables a b : list V.
Variable N : nat.

Local Abbreviation out_pos := (map_out_pos OSTR).
Local Abbreviation a_pos := (map_in_pos OSH ASH ASTR).
Local Abbreviation b_pos := (map_in_pos OSH BSH BSTR).
Local Abbreviation cell_write := (zip_cell_write fn OSH OSTR ASH ASTR BSH BSTR a b).
Local Abbreviation cell_events :=
  (zip_cell_events fn out a_storage b_storage OSH OSTR ASH ASTR BSH BSTR a b).
Local Abbreviation store :=
  (zip_store out out_shape out_strides a_storage a_shape a_strides
     b_storage b_shape b_strides OSH OSTR ASH ASTR BSH BSTR a b N).

Hypothesis Hna : out ≠ a_storage.
Hypothesis Hnb : out ≠ b_storage.
Hypothesis Hdims : Forall (λ n, (0 < n)%Z) OSH.
Hypothesis Hopos : ∀ c, in_bounds OSH c → (0 ≤ out_pos c < Z.of_nat N)%Z.
Hypothesis Hapos : ∀ c, in_bounds OSH c → (0 ≤ a_pos c < Z.of_nat (length a))%Z.
Hypothesis Hbpos : ∀ c, in_bounds OSH c → (0 ≤ b_pos c < Z.of_nat (length b))%Z.

Lemma zip_cell_write_length o c : length (cell_write o c) = length o.
Proof. unfold zip_cell_write. repeat case_match; by rewrite ?length_insert. Qed.

Lemma zip_cells_length cs o : length (foldl cell_write o cs) = length o.
Proof.
  revert o. induction cs as [|c cs IH]; intros o; simpl; [done|].
  by rewrite IH, zip_cell_write_length.
Qed.

(** One pass through lines 184-198 at an in-bounds coordinate. *)
Lemma zip_cell_run (c : list Z) s :
  in_bounds OSH c → (∃ o, store s o) →
  zip_cell fn out out_shape out_strides a_storage a_shape a_strides
    b_storage b_shape b_strides (length OSH) c s
  = Ret tt (cell_step out cell_write (λ _, cell_events) c s) ∧
  ∃ o, store (cell_step out cell_write (λ _, cell_events) c s) o.
Proof.
  intros Hc (o & Hosh&Hostr&Hash&Hastr&Hbsh&Hbstr&Ha&Hb&Ho&HN).
  pose proof (Hopos c Hc) as Hop. pose proof (Hapos c Hc) as Hap.
  pose proof (Hbpos c Hc) as Hbp.
  destruct (lookup_lt_is_Some_2 a (Z.to_nat (a_pos c))) as [x Hx]; [lia|].
  destruct (lookup_lt_is_Some_2 b (Z.to_nat (b_pos c))) as [y Hy]; [lia|].
  unfold cell_step. rewrite Ho. split.
  - unfold zip_cell.
    rewrite run_bind, (run_call_broadcast_index _ _ _ _ _ _ _ Hosh Hash).
    cbv beta iota zeta.
    rewrite run_bind, (run_call_broadcast_index _ _ _ _ _ _ _ Hosh Hbsh).
    cbv beta iota zeta.
    rewrite run_bind, (run_call_index_to_position _ _ _ _ Hastr).
    rewrite run_bind, (run_call_index_to_position _ _ _ _ Hbstr).
    rewrite run_bind, (run_call_index_to_position _ _ _ _ Hostr).
    cbv beta iota.
    change (index_to_position (filter _ (broadcast_index c OSH ASH _)) ASTR)
      with (a_pos c).
    change (index_to_position (filter _ (broadcast_index c OSH BSH _)) BSTR)
      with (b_pos c).
    change (index_to_position c OSTR) with (out_pos c).
    rewrite run_bind, (run_buf_get _ _ _ _ _ Ha Hap Hx). cbv beta iota.
    rewrite run_bind, (run_buf_get _ b _ y) by (simpl; first [done|lia]).
    cbv beta iota.
    rewrite run_bind, run_call2. cbv beta iota.
    rewrite (run_buf_set _ o) by (simpl; first [done|lia]).
    unfold upd, zip_cell_write, zip_cell_events. rewrite Hx, Hy. simpl.
    by rewrite <- !app_assoc.
  - exists (cell_write o c). unfold zip_store, upd. simpl.
    rewrite lookup_insert_eq, !lookup_insert_ne by done.
    by rewrite zip_cell_write_length.
Qed.

Lemma zip_run s o :
  store s o →
  _zip fn out out_shape out_strides a_storage a_shape a_strides
    b_storage b_shape b_strides s
  = Ret tt (upd out s (foldl cell_write o (map_visits [] OSH))
              (map_visits [] OSH ≫= cell_events)).
Proof.
  intros Hs. unfold _zip.
  rewrite run_bind, (run_seq_len _ OSH) by by destruct Hs. cbv beta iota.
  rewrite zip_recursive_set_traverse.
  destruct (traverse_run out_shape
              (zip_cell fn out out_shape out_strides a_storage a_shape a_strides
                 b_storage b_shape b_strides (length OSH))
              OSH (λ s, ∃ o, store s o)
              (cell_step out cell_write (λ _, cell_events))
              Hdims) with (rest := OSH) (shp_pre := @nil Z) (pre := @nil Z) (s := s)
    as [Hrun _].
  - by intros s' (o' & ? & _).
  - intros c s' Hc Hs'. by apply zip_cell_run.
  - done.
  - constructor.
  - by exists o.
  - simpl in Hrun. rewrite Hrun.
    rewrite <- (upd_id out s o) at 1 by by destruct Hs as (?&?&?&?&?&?&?&?&?&?).
    by rewrite cells_fold, cells_events_const.
Qed.

Hypothesis Hinj : ∀ c c',
  in_bounds OSH c → in_bounds OSH c' → out_pos c = out_pos c' → c = c'.

Lemma zip_cells_lookup (cs : list (list Z)) (o : list V) (c : list Z) (x y : V) :
  Forall (in_bounds OSH) cs → in_bounds OSH c → c ∈ cs → length o = N →
  a !! Z.to_nat (a_pos c) = Some x → b !! Z.to_nat (b_pos c) = Some y →
  foldl cell_write o cs !! Z.to_nat (out_pos c) = Some (fn x y).
Proof.
  intros Hcs Hc Hin Ho Hx Hy. revert Hcs Hin.
  induction cs as [|c' cs IH] using rev_ind; intros Hcs Hin.
  - by apply elem_of_nil in Hin.
  - apply Forall_app in Hcs as [Hcs Hc']. apply Forall_inv in Hc'.
    rewrite foldl_app. simpl. unfold zip_cell_write at 1.
    destruct (lookup_lt_is_Some_2 a (Z.to_nat (a_pos c'))) as [x' Hx'].
    { pose proof (Hapos c' Hc'). lia. }
    destruct (lookup_lt_is_Some_2 b (Z.to_nat (b_pos c'))) as [y' Hy'].
    { pose proof (Hbpos c' Hc'). lia. }
    rewrite Hx', Hy'.
    destruct (decide (c' = c)) as [->|Hcc].
    + rewrite Hx in Hx'. injection Hx' as <-.
      rewrite Hy in Hy'. injection Hy' as <-.
      apply list_lookup_insert_eq. rewrite zip_cells_length, Ho.
      pose proof (Hopos c Hc). lia.
    + rewrite list_lookup_insert_ne.
      * apply IH; [done|]. apply elem_of_app in Hin as [?|Hin]; [done|].
        apply list_elem_of_singleton in Hin. congruence.
      * intros Heq. apply Hcc, Hinj; [done..|].
        pose proof (Hopos c Hc). pose proof (Hopos c' Hc'). lia.
Qed.



End ZipRun.



Lemma zip_cell_write_swap {V} (fn : V → V → V)
    (OSH OSTR ASH ASTR BSH BSTR : list Z) (a b o : list V) (c : list Z) :
  zip_cell_write (λ y x, fn x y) OSH OSTR BSH BSTR ASH ASTR b a o c
  = zip_cell_write fn OSH OSTR ASH ASTR BSH BSTR a b o c.
Proof. unfold zip_cell_write. by repeat case_match. Qed.

Lemma zip_cells_swap {V} (fn : V → V → V)
    (OSH OSTR ASH ASTR BSH BSTR : list Z) (a b : list V) (cs : list (list Z)) :
  ∀ o, foldl (zip_cell_write (λ y x, fn x y) OSH OSTR BSH BSTR ASH ASTR b a) o cs
       = foldl (zip_cell_write fn OSH OSTR ASH ASTR BSH BSTR a b) o cs.
Proof.
  induction cs as [|c cs IH]; intros o; [done|].
  simpl. by rewrite zip_cell_write_swap, IH.
Qed.

(** X9.  Under the same conditions (injectivity apart), exchanging the two
    operands of [_zip] and the two arguments of [fn] changes nothing of the
    result: both calls return, and leave the same output buffer. *)
Theorem zip_swap_operands {V} (fn : V → V → V)
    (out out_shape out_strides a_storage a_shape a_strides
     b_storage b_shape b_strides : loc)
    (OSH OSTR ASH ASTR BSH BSTR : list Z) (a b o : list V) (s : state V) :
  out ≠ a_storage → out ≠ b_storage →
  seqs s !! out_shape = Some OSH → seqs s !! out_strides = Some OSTR →
  seqs s !! a_shape = Some ASH → seqs s !! a_strides = Some ASTR →
  seqs s !! b_shape = Some BSH → seqs s !! b_strides = Some BSTR →
  bufs s !! a_storage = Some a → bufs s !! b_storage = Some b →
  bufs s !! out = Some o →
  Forall (λ n, (0 < n)%Z) OSH →
  (∀ c, in_bounds OSH c → (0 ≤ map_out_pos OSTR c < Z.of_nat (length o))%Z) →
  (∀ c, in_bounds OSH c →
        (0 ≤ map_in_pos OSH ASH ASTR c < Z.of_nat (length a))%Z) →
  (∀ c, in_bounds OSH c →
        (0 ≤ map_in_pos OSH BSH BSTR c < Z.of_nat (length b))%Z) →
  ∃ o',
    observe (_zip fn out out_shape out_strides a_storage a_shape a_strides
               b_storage b_shape b_strides s)
    = (inl tt, <[out := o']> (bufs s), seqs s) ∧
    observe (_zip (λ y x, fn x y) out out_shape out_strides
               b_storage b_shape b_strides a_storage a_shape a_strides s)
    = (inl tt, <[out := o']> (bufs s), seqs s).
Proof.
  intros Hna Hnb Hosh Hostr Hash Hastr Hbsh Hbstr Ha Hb Ho Hdims Hopos Hapos
    Hbpos.
  eexists. split.
  - rewrite (zip_run fn out out_shape out_strides a_storage a_shape a_strides
               b_storage b_shape b_strides OSH OSTR ASH ASTR BSH BSTR a b
               (length o) Hna Hnb Hdims Hopos Hapos Hbpos s o) by done.
    reflexivity.
  - rewrite (zip_run (λ y x, fn x y) out out_shape out_strides
               b_storage b_shape b_strides a_storage a_shape a_strides
               OSH OSTR BSH BSTR ASH ASTR b a (length o) Hnb Hna Hdims Hopos
               Hbpos Hapos s o) by done.
    simpl. by rewrite zip_cells_swap.
Qed.

Lemma zip_swap_operands_2x1_1x3 :
  ∃ o',
    observe (_zip PrimFloat.sub 3 5 4 1 1 2 2 3 4 store_zip_2x1_1x3)
    = (inl tt, <[3%positive := o']> (bufs store_zip_2x1_1x3),
       seqs store_zip_2x1_1x3) ∧
    observe (_zip (λ y x, PrimFloat.sub x y) 3 5 4 2 3 4 1 1 2
               store_zip_2x1_1x3)
    = (inl tt, <[3%positive := o']> (bufs store_zip_2x1_1x3),
       seqs store_zip_2x1_1x3).
Proof.
  apply (zip_swap_operands PrimFloat.sub 3 5 4 1 1 2 2 3 4
           [2; 3]%Z [3; 1]%Z [2; 1]%Z [1; 1]%Z [1; 3]%Z [3; 1]%Z
           [1; 2]%float [10; 20; 30]%float (replicate 6 0%float)
           store_zip_2x1_1x3).
  - done.
  - done.
  - reflexivity.
  - reflexivity.
  - reflexivity.
  - reflexivity.
  - reflexivity.
  - reflexivity.
  - reflexivity.
  - reflexivity.
  - reflexivity.
  - repeat constructor.
  - intros c Hc. inv_bounds. cbn. lia.
  - intros c Hc. inv_bounds. unfold map_in_pos, map_in_index. cbn.
    repeat (case_decide; try lia); cbn; lia.
  - intros c Hc. inv_bounds. unfold map_in_pos, map_in_index. cbn.
    repeat (case_decide; try lia); cbn; lia.
Defined.

(** ** Broadcast shapes *)

Lemma broadcast_aligned_refl (a : list Z) : broadcast_aligned a a = Some a.
Proof.
  induction a as [|x a IH]; [done|]. simpl.
  rewrite decide_True by done. simpl. by rewrite IH.
Qed.

Lemma shape_broadcast_refl (a : list Z) : shape_broadcast a a = Some a.
Proof.
  unfold shape_broadcast. rewrite broadcast_aligned_refl. simpl.
  by rewrite reverse_involutive.
Qed.

Lemma broadcast_aligned_comm (a : list Z) : ∀ b,
  broadcast_aligned a b = broadcast_aligned b a.
Proof.
  induction a as [|x a IH]; intros [|y b]; try done. simpl.
  rewrite (IH b). repeat case_decide; simplify_eq; done.
Qed.

Lemma shape_broadcast_comm (a b : list Z) :
  shape_broadcast a b = shape_broadcast b a.
Proof. unfold shape_broadcast. by rewrite broadcast_aligned_comm. Qed.

(** Every dimension of [a] is the dimension of the broadcast shape in the
    same position, or is 1. *)
Lemma broadcast_aligned_lookup (a : list Z) : ∀ b c,
  broadcast_aligned a b = Some c →
  length a ≤ length c ∧
  (∀ j y, c !! j = Some y → a !! j = Some y ∨ b !! j = Some y) ∧
  ∀ j x, a !! j = Some x → ∃ y, c !! j = Some y ∧ (x = y ∨ x = 1%Z).
Proof.
  induction a as [|x a IH]; intros b c Hc.
  - simpl in Hc. injection Hc as <-. split; [simpl; lia|]. split; [by right|done].
  - destruct b as [|y b]; simpl in Hc.
    + injection Hc as <-. split; [done|]. split; [by left|]. intros j z Hz. eauto.
    + destruct (broadcast_aligned a b) as [r|] eqn:Hr.
      2:{ repeat case_decide; done. }
      destruct (IH b r Hr) as (Hlen & Hor & Hlk).
      assert (∃ d, c = d :: r ∧ (d = x ∨ d = y) ∧ (x = d ∨ x = 1%Z))
        as (d & -> & Hd & Hx).
      { repeat case_decide; simpl in Hc; simplify_eq; eauto 10. }
      split; [simpl; lia|]. split.
      * intros [|j] z Hz; simpl in *; [|by apply Hor].
        injection Hz as <-. destruct Hd as [->| ->]; eauto.
      * intros [|j] z Hz; simpl in *; [|by apply Hlk].
        injection Hz as <-. eauto.
Qed.

Lemma shape_broadcast_dims (a b c : list Z) :
  shape_broadcast a b = Some c →
  Forall (λ n, (0 < n)%Z) a → Forall (λ n, (0 < n)%Z) b →
  Forall (λ n, (0 < n)%Z) c.
Proof.
  unfold shape_broadcast. intros Hc Ha Hb.
  destruct (broadcast_aligned (reverse a) (reverse b)) as [r|] eqn:Hr; [|done].
  injection Hc as <-. apply Forall_reverse.
  destruct (broadcast_aligned_lookup _ _ _ Hr) as (_ & Hor & _).
  apply Forall_lookup. intros j y Hy.
  destruct (Hor j y Hy) as [H|H]; apply list_elem_of_lookup_2 in H;
    rewrite elem_of_reverse in H.
  - rewrite Forall_forall in Ha. by apply Ha.
  - rewrite Forall_forall in Hb. by apply Hb.
Qed.

(** The projection of a coordinate of the broadcast shape is a coordinate of
    the operand's shape. *)
Lemma shape_broadcast_project (a b c idx : list Z) :
  shape_broadcast a b = Some c →
  Forall (λ n, (0 < n)%Z) a →
  in_bounds c idx →
  length a ≤ length c ∧ in_bounds a (broadcast_project idx a).
Proof.
  unfold shape_broadcast. intros Hc Ha Hidx.
  destruct (broadcast_aligned (reverse a) (reverse b)) as [r|] eqn:Hr; [|done].
  injection Hc as <-.
  destruct (broadcast_aligned_lookup _ _ _ Hr) as (Hlen & _ & Hlk).
  rewrite length_reverse in Hlen |- *. split; [done|].
  pose proof (Forall2_length _ _ _ Hidx) as Hl. rewrite length_reverse in Hl.
  unfold broadcast_project, in_bounds.
  apply Forall2_same_length_lookup. split.
  { rewrite length_zip_with, length_drop. lia. }
  intros j i n Hi Hn.
  apply lookup_zip_with_Some in Hi as (i0 & n' & -> & Hi0 & Hn').
  rewrite Hn in Hn'. injection Hn' as <-.
  rewrite lookup_drop in Hi0.
  pose proof (lookup_lt_Some _ _ _ Hn) as Hj.
  assert (0 < n)%Z as Hnpos.
  { rewrite Forall_forall in Ha. apply Ha. by eapply list_elem_of_lookup_2. }
  case_decide; [lia|].
  (* the dimension of [a] at [j] is the dimension of [c] aligned with it *)
  destruct (Hlk (length a - S j) n) as (y & Hy & Hny).
  { rewrite reverse_lookup by lia. rewrite <- Hn. f_equal. lia. }
  destruct Hny as [<-|?]; [|done].
  assert (reverse r !! (length idx - length a + j) = Some n) as Hcn.
  { rewrite reverse_lookup by lia.
    rewrite <- Hy. f_equal. lia. }
  unfold in_bounds in Hidx.
  by apply (Forall2_lookup_lr _ _ _ _ _ _ Hidx Hi0 Hcn).
Qed.

(** ** [zip] at the entry point *)

Section ZipEntry.
Context {V : Type}.
Variable zero : V.
Variable fn : V → V → V.
Variables a b : tensor.
Variables sa sta sb stb sc : list Z.
Variables av bv : list V.

Hypothesis Hbc : shape_broadcast sa sb = Some sc.
Hypothesis Hda : Forall (λ n, (0 < n)%Z) sa.
Hypothesis Hdb : Forall (λ n, (0 < n)%Z) sb.
Hypothesis Hwa : ∀ c,
  in_bounds sa c → (0 ≤ index_to_position c sta < Z.of_nat (length av))%Z.
Hypothesis Hwb : ∀ c,
  in_bounds sb c → (0 ≤ index_to_position c stb < Z.of_nat (length bv))%Z.

Lemma zip_entry_from (s : state V) :
  seqs s !! t_shape a = Some sa → seqs s !! t_strides a = Some sta →
  seqs s !! t_shape b = Some sb → seqs s !! t_strides b = Some stb →
  bufs s !! t_storage a = Some av → bufs s !! t_storage b = Some bv →
  ∃ out s' o',
    (out ← zeros zero sc;
     tensor_zip fn (t_storage out) (t_shape out) (t_strides out)
       (t_storage a) (t_shape a) (t_strides a)
       (t_storage b) (t_shape b) (t_strides b);;
     mret out) s = Ret out s' ∧
    bufs s !! t_storage out = None ∧
    bufs s' !! t_storage a = Some av ∧ bufs s' !! t_storage b = Some bv ∧
    seqs s' !! t_shape out = Some sc ∧
    seqs s' !! t_strides out = Some (strides_from_shape sc) ∧
    bufs s' !! t_storage out = Some o' ∧
    length o' = Z.to_nat (foldr Z.mul 1%Z sc) ∧
    ∀ c, c ≠ [] → in_bounds sc c →
      ∃ x y,
        av !! Z.to_nat (index_to_position (broadcast_project c sa) sta) = Some x ∧
        bv !! Z.to_nat (index_to_position (broadcast_project c sb) stb) = Some y ∧
        o' !! Z.to_nat (index_to_position c (strides_from_shape sc))
        = Some (fn x y).
Proof.
  intros Hsa Hsta Hsb Hstb Hav Hbv.
  assert (Forall (λ n, (0 < n)%Z) sc) as Hdims
    by by eapply shape_broadcast_dims.
  assert (shape_broadcast sb sa = Some sc) as Hbc'
    by by rewrite shape_broadcast_comm.
  rewrite run_bind, run_zeros. cbv beta iota.
  set (l0 := fresh (dom (bufs s))).
  set (l1 := fresh (dom (seqs s))).
  set (l2 := fresh (dom (<[l1 := sc]> (seqs s)))).
  set (o := replicate (Z.to_nat (foldr Z.mul 1%Z sc)) zero).
  set (s1 := State (<[l0 := o]> (bufs s))
               (<[l2 := strides_from_shape sc]> (<[l1 := sc]> (seqs s))) (trace s)).
  assert (l0 ≠ t_storage a) as Hl0a by (apply fresh_ne; by eexists).
  assert (l0 ≠ t_storage b) as Hl0b by (apply fresh_ne; by eexists).
  assert (l2 ≠ l1) as Hl21.
  { apply fresh_ne. rewrite lookup_insert_eq. by eexists. }
  assert (∀ l x, seqs s !! l = Some x → seqs s1 !! l = Some x) as Hkeep.
  { intros l x Hl. unfold s1. simpl.
    rewrite !lookup_insert_ne; [done| |].
    - apply fresh_ne. by eexists.
    - apply fresh_ne. rewrite lookup_insert_ne; [by eexists|].
      apply fresh_ne. by eexists. }
  assert (zip_store l0 l1 l2 (t_storage a) (t_shape a) (t_strides a)
            (t_storage b) (t_shape b) (t_strides b)
            sc (strides_from_shape sc) sa sta sb stb av bv (length o) s1 o)
    as Hstore.
  { unfold zip_store. repeat split; try by apply Hkeep.
    - unfold s1. simpl. by rewrite lookup_insert_ne, lookup_insert_eq.
    - unfold s1. simpl. by rewrite lookup_insert_eq.
    - unfold s1. simpl. by rewrite lookup_insert_ne.
    - unfold s1. simpl. by rewrite lookup_insert_ne.
    - unfold s1. simpl. by rewrite lookup_insert_eq. }
  assert (∀ c, in_bounds sc c →
    (0 ≤ map_out_pos (strides_from_shape sc) c < Z.of_nat (length o))%Z) as Hopos.
  { intros c Hc. unfold map_out_pos, o. rewrite length_replicate.
    pose proof (contiguous_pos_bounds sc c Hc). lia. }
  assert (∀ c, in_bounds sc c →
    (0 ≤ map_in_pos sc sa sta c < Z.of_nat (length av))%Z) as Hapos.
  { intros c Hc.
    destruct (shape_broadcast_project sa sb sc c Hbc Hda Hc) as [Hlen Hp].
    rewrite map_in_pos_project by done. by apply Hwa. }
  assert (∀ c, in_bounds sc c →
    (0 ≤ map_in_pos sc sb stb c < Z.of_nat (length bv))%Z) as Hbpos.
  { intros c Hc.
    destruct (shape_broadcast_project sb sa sc c Hbc' Hdb Hc) as [Hlen Hp].
    rewrite map_in_pos_project by done. by apply Hwb. }
  rewrite run_bind. unfold tensor_zip. cbn [t_storage t_shape t_strides].
  rewrite (zip_run fn l0 l1 l2 (t_storage a) (t_shape a) (t_strides a)
             (t_storage b) (t_shape b) (t_strides b)
             sc (strides_from_shape sc) sa sta sb stb av bv (length o)
             Hl0a Hl0b Hdims Hopos Hapos Hbpos s1 o Hstore).
  cbv beta iota. rewrite run_ret.
  eexists _, _, _. split; [reflexivity|]. unfold upd, s1. simpl.
  split; [apply fresh_lookup_None|].
  split; [by rewrite !lookup_insert_ne by done|].
  split; [by rewrite !lookup_insert_ne by done|].
  split; [by rewrite lookup_insert_ne, lookup_insert_eq by done|].
  split; [by rewrite lookup_insert_eq|].
  split; [apply lookup_insert_eq|]. split.
  { rewrite zip_cells_length. apply length_replicate. }
  intros c Hc0 Hc.
  destruct (shape_broadcast_project sa sb sc c Hbc Hda Hc) as [Hlena Hpa].
  destruct (shape_broadcast_project sb sa sc c Hbc' Hdb Hc) as [Hlenb Hpb].
  pose proof (Hapos c Hc) as Hap. pose proof (Hbpos c Hc) as Hbp.
  rewrite map_in_pos_project in Hap, Hbp by done.
  destruct (lookup_lt_is_Some_2 av
    (Z.to_nat (index_to_position (broadcast_project c sa) sta))) as [x Hx]; [lia|].
  destruct (lookup_lt_is_Some_2 bv
    (Z.to_nat (index_to_position (broadcast_project c sb) stb))) as [y Hy]; [lia|].
  exists x, y. split; [done|]. split; [done|].
  apply (zip_cells_lookup fn l0 (t_storage a) (t_storage b)
           sc (strides_from_shape sc) sa sta sb stb av bv (length o));
    try done.
  - intros c1 c2 H1 H2. by apply contiguous_pos_inj.
  - by apply map_visits_all_in_bounds.
  - by apply (map_visits_elem sc []).
  - by rewrite map_in_pos_project.
  - by rewrite map_in_pos_project.
Qed.

End ZipEntry.

(** X4.  Let [a] and [b] be tensors with positive dimensions whose shapes
    broadcast to [sc], each coordinate of each addressing a cell of its
    storage.  Then [zip(fn)(a, b)] returns a tensor with a new storage, of
    shape [sc] and with row-major strides, that holds at every coordinate [c]
    of [sc] the value [fn(a[c_a], b[c_b])], where [c_a] and [c_b] are the
    projections of [c] on the shapes of [a] and [b]; the storages of [a] and
    [b] are as they were. *)
Theorem zip_returns_fn_of_cells {V} (zero : V) (fn : V → V → V) (a b : tensor)
    (s : state V) (sa sta sb stb sc : list Z) (av bv : list V) :
  seqs s !! t_shape a = Some sa → seqs s !! t_strides a = Some sta →
  seqs s !! t_shape b = Some sb → seqs s !! t_strides b = Some stb →
  bufs s !! t_storage a = Some av → bufs s !! t_storage b = Some bv →
  shape_broadcast sa sb = Some sc →
  Forall (λ n, (0 < n)%Z) sa → Forall (λ n, (0 < n)%Z) sb →
  (∀ c, in_bounds sa c →
        (0 ≤ index_to_position c sta < Z.of_nat (length av))%Z) →
  (∀ c, in_bounds sb c →
        (0 ≤ index_to_position c stb < Z.of_nat (length bv))%Z) →
  ∃ out s' o',
    TensorOps.zip zero fn a b s = Ret out s' ∧
    bufs s !! t_storage out = None ∧
    bufs s' !! t_storage a = Some av ∧ bufs s' !! t_storage b = Some bv ∧
    seqs s' !! t_shape out = Some sc ∧
    seqs s' !! t_strides out = Some (strides_from_shape sc) ∧
    bufs s' !! t_storage out = Some o' ∧
    length o' = Z.to_nat (foldr Z.mul 1%Z sc) ∧
    ∀ c, c ≠ [] → in_bounds sc c →
      ∃ x y,
        av !! Z.to_nat (index_to_position (broadcast_project c sa) sta) = Some x ∧
        bv !! Z.to_nat (index_to_position (broadcast_project c sb) stb) = Some y ∧
        o' !! Z.to_nat (index_to_position c (strides_from_shape sc))
        = Some (fn x y).
Proof.
  intros Hsa Hsta Hsb Hstb Hav Hbv Hbc Hda Hdb Hwa Hwb.
  unfold TensorOps.zip, shape.
  rewrite run_bind, (run_seq_load _ _ _ Hsa). cbv beta iota zeta.
  rewrite run_bind, (run_seq_load _ _ _ Hsb). cbv beta iota.
  rewrite run_bind.
  destruct (decide (sa ≠ sb)) as [Hne|Heq].
  - assert (call_shape_broadcast sa sb s
            = Ret sc (State (bufs s) (seqs s) (trace s ++ [EvBroadcast]))) as ->.
    { unfold call_shape_broadcast. rewrite run_bind. simpl. by rewrite Hbc. }
    apply (zip_entry_from zero fn a b sa sta sb stb sc av bv Hbc Hda Hdb Hwa Hwb
             (State (bufs s) (seqs s) (trace s ++ [EvBroadcast]))); done.
  - assert (sa = sb) as <- by (destruct (decide (sa = sb)); [done|by destruct Heq]).
    rewrite shape_broadcast_refl in Hbc. injection Hbc as <-.
    rewrite run_ret. cbv beta iota.
    apply (zip_entry_from zero fn a b sa sta sa stb sa av bv
             (shape_broadcast_refl sa) Hda Hdb Hwa Hwb s); done.
Qed.

Lemma zip_returns_fn_of_cells_2x1_1x3 :
  ∃ out s' o',
    TensorOps.zip 0%float PrimFloat.add a_2x1 b_1x3 store_2x1_1x3 = Ret out s' ∧
    bufs store_2x1_1x3 !! t_storage out = None ∧
    bufs s' !! t_storage a_2x1 = Some [1; 2]%float ∧
    bufs s' !! t_storage b_1x3 = Some [10; 20; 30]%float ∧
    seqs s' !! t_shape out = Some [2; 3]%Z ∧
    seqs s' !! t_strides out = Some (strides_from_shape [2; 3]%Z) ∧
    bufs s' !! t_storage out = Some o' ∧
    length o' = Z.to_nat (foldr Z.mul 1%Z [2; 3]%Z) ∧
    ∀ c, c ≠ [] → in_bounds [2; 3]%Z c →
      ∃ x y,
        [1; 2]%float
          !! Z.to_nat (index_to_position (broadcast_project c [2; 1]%Z) [1; 1]%Z)
        = Some x ∧
        [10; 20; 30]%float
          !! Z.to_nat (index_to_position (broadcast_project c [1; 3]%Z) [3; 1]%Z)
        = Some y ∧
        o' !! Z.to_nat (index_to_position c (strides_from_shape [2; 3]%Z))
        = Some (PrimFloat.add x y).
Proof.
  apply (zip_returns_fn_of_cells 0%float PrimFloat.add a_2x1 b_1x3
           store_2x1_1x3 [2; 1]%Z [1; 1]%Z [1; 3]%Z [3; 1]%Z [2; 3]%Z
           [1; 2]%float [10; 20; 30]%float).
  - reflexivity.
  - reflexivity.
  - reflexivity.
  - reflexivity.
  - reflexivity.
  - reflexivity.
  - reflexivity.
  - repeat constructor.
  - repeat constructor.
  - intros c Hc. unfold in_bounds in Hc.
    apply Forall2_cons_inv_r in Hc as (?&?&?&Hc&->).
    apply Forall2_cons_inv_r in Hc as (?&?&?&Hc&->).
    apply Forall2_nil_inv_r in Hc as ->. cbn. lia.
  - intros c Hc. unfold in_bounds in Hc.
    apply Forall2_cons_inv_r in Hc as (?&?&?&Hc&->).
    apply Forall2_cons_inv_r in Hc as (?&?&?&Hc&->).
    apply Forall2_nil_inv_r in Hc as ->. cbn. lia.
Defined.

(** ** [map] in place *)

Section MapInPlace.
Context {V : Type}.
Variable fn : V → V.
Variables storage shape strides : loc.
Variables SH STR : list Z.
Variable N : nat.

Local Abbreviation pos := (λ c, index_to_position c STR).
Local Abbreviation cell_write := (inplace_cell_write fn STR).
Local Abbreviation cell_events := (inplace_cell_events fn storage STR).
Local Abbreviation store := (inplace_store storage shape strides SH STR N).

Hypothesis Hdims : Forall (λ n, (0 < n)%Z) SH.
Hypothesis Hpos : ∀ c, in_bounds SH c → (0 ≤ pos c < Z.of_nat N)%Z.

Lemma inplace_cell_write_length o c : length (cell_write o c) = length o.
Proof. unfold inplace_cell_write. case_match; by rewrite ?length_insert. Qed.

Lemma inplace_cell_run (c : list Z) s :
  in_bounds SH c → (∃ o, store s o) →
  map_cell fn storage shape strides storage shape strides (length SH) c s
  = Ret tt (cell_step storage cell_write cell_events c s) ∧
  ∃ o, store (cell_step storage cell_write cell_events c s) o.
Proof.
  intros Hc (o & Hsh & Hstr & Ho & HN).
  pose proof (Hpos c Hc) as Hp.
  destruct (lookup_lt_is_Some_2 o (Z.to_nat (pos c))) as [x Hx]; [lia|].
  unfold cell_step. rewrite Ho. split.
  - unfold map_cell.
    rewrite run_bind, (run_call_broadcast_index _ _ _ _ _ _ _ Hsh Hsh).
    cbv beta iota zeta.
    change (filter _ (broadcast_index c SH SH _)) with (map_in_index SH SH c).
    rewrite map_in_index_id by done.
    rewrite run_bind, (run_call_index_to_position _ _ _ _ Hstr).
    rewrite run_bind, (run_call_index_to_position _ _ _ _ Hstr).
    cbv beta iota.
    rewrite run_bind, (run_buf_get _ _ _ _ _ Ho) by (first [done|lia]).
    cbv beta iota.
    rewrite run_bind, run_call1. cbv beta iota.
    rewrite (run_buf_set _ o) by (simpl; first [done|lia]).
    unfold upd, inplace_cell_write, inplace_cell_events. rewrite Hx. simpl.
    by rewrite <- !app_assoc.
  - exists (cell_write o c). unfold inplace_store, upd. simpl.
    rewrite lookup_insert_eq. by rewrite inplace_cell_write_length.
Qed.

Lemma inplace_run s o :
  store s o →
  _map fn storage shape strides storage shape strides s
  = Ret tt (upd storage s (foldl cell_write o (map_visits [] SH))
              (cells_events cell_write cell_events o (map_visits [] SH))).
Proof.
  intros Hs. unfold _map.
  rewrite run_bind, (run_seq_len _ SH) by by destruct Hs. cbv beta iota.
  rewrite map_recursive_set_traverse.
  destruct (traverse_run shape
              (map_cell fn storage shape strides storage shape strides (length SH))
              SH (λ s, ∃ o, store s o)
              (cell_step storage cell_write cell_events)
              Hdims) with (rest := SH) (shp_pre := @nil Z) (pre := @nil Z) (s := s)
    as [Hrun _].
  - by intros s' (o' & ? & _).
  - intros c s' Hc Hs'. by apply inplace_cell_run.
  - done.
  - constructor.
  - by exists o.
  - simpl in Hrun. rewrite Hrun.
    rewrite <- (upd_id storage s o) at 1 by by destruct Hs as (?&?&?&?).
    by rewrite cells_fold.
Qed.

Hypothesis Hinj : ∀ c c',
  in_bounds SH c → in_bounds SH c' → pos c = pos c' → c = c'.

Lemma inplace_cells_lookup (c : list Z) (cs : list (list Z)) :
  in_bounds SH c → Forall (in_bounds SH) cs →
  ∀ (o : list V) (x : V), length o = N →
  o !! Z.to_nat (pos c) = Some x →
  foldl cell_write o cs !! Z.to_nat (pos c)
  = Some (Nat.iter (length (filter (λ c', c' = c) cs)) fn x).
Proof.
  intros Hc Hcs. induction Hcs as [|c' cs Hc' Hcs IH]; intros o x Ho Hx; [done|].
  simpl foldl. rewrite filter_cons.
  destruct (decide (c' = c)) as [->|Hne].
  - simpl length. rewrite Nat.iter_succ_r.
    apply IH; [by rewrite inplace_cell_write_length|].
    unfold inplace_cell_write. rewrite Hx.
    apply list_lookup_insert_eq. pose proof (Hpos c Hc). lia.
  - apply IH; [by rewrite inplace_cell_write_length|].
    unfold inplace_cell_write. case_match; [|done].
    rewrite list_lookup_insert_ne; [done|].
    intros Heq. apply Hne, Hinj; [done..|].
    pose proof (Hpos c Hc). pose proof (Hpos c' Hc'). lia.
Qed.

End MapInPlace.

(** X7.  [map(fn)(a, out=a)] writes into the tensor it reads.  For a tensor of
    positive dimensions whose coordinates address distinct cells of its
    storage, the call returns [a], and the cell of every coordinate [c] then
    holds [fn] applied [nvisits c] times to the value it held: once for a
    coordinate whose last entry is not 0, and once more for every trailing
    zero (up to the rank), because the traversal visits such a coordinate at
    several levels and each visit reads what the previous one wrote.  For
    rank 1 every cell holds [fn] of its value. *)
Theorem map_in_place_repeats_fn {V} (zero : V) (fn : V → V) (a : tensor)
    (s : state V) (sh st : list Z) (av : list V) :
  seqs s !! t_shape a = Some sh → seqs s !! t_strides a = Some st →
  bufs s !! t_storage a = Some av →
  Forall (λ n, (0 < n)%Z) sh →
  (∀ c, in_bounds sh c → (0 ≤ index_to_position c st < Z.of_nat (length av))%Z) →
  (∀ c c', in_bounds sh c → in_bounds sh c' →
           index_to_position c st = index_to_position c' st → c = c') →
  ∃ o' evs,
    TensorOps.map zero fn a (Some a) s
    = Ret a (State (<[t_storage a := o']> (bufs s)) (seqs s) (trace s ++ evs)) ∧
    ∀ c, in_bounds sh c →
      ∃ x, av !! Z.to_nat (index_to_position c st) = Some x ∧
           o' !! Z.to_nat (index_to_position c st)
           = Some (Nat.iter (nvisits c) fn x).
Proof.
  intros Hsh Hst Hav Hdims Hpos Hinj.
  unfold TensorOps.map. rewrite run_bind, run_ret. cbv beta iota.
  rewrite run_bind. unfold tensor_map.
  rewrite (inplace_run fn (t_storage a) (t_shape a) (t_strides a) sh st
             (length av) Hdims Hpos s av) by done.
  cbv beta iota. rewrite run_ret.
  eexists _, _. split; [reflexivity|].
  intros c Hc.
  destruct (lookup_lt_is_Some_2 av (Z.to_nat (index_to_position c st)))
    as [x Hx].
  { pose proof (Hpos c Hc). lia. }
  exists x. split; [done|].
  rewrite (inplace_cells_lookup fn sh st (length av) Hpos Hinj c _ Hc
             (map_visits_all_in_bounds sh Hdims) av x eq_refl Hx).
  do 2 f_equal. apply (map_visits_count sh [] c Hc).
Qed.

Lemma map_in_place_repeats_fn_2x3 :
  ∃ o' evs,
    TensorOps.map 0%float (λ x, x * 2)%float a_2x3 (Some a_2x3) store_2x3
    = Ret a_2x3 (State (<[t_storage a_2x3 := o']> (bufs store_2x3))
                   (seqs store_2x3) (trace store_2x3 ++ evs)) ∧
    ∀ c, in_bounds [2; 3]%Z c →
      ∃ x, [1; 2; 3; 4; 5; 6]%float !! Z.to_nat (index_to_position c [3; 1]%Z)
           = Some x ∧
           o' !! Z.to_nat (index_to_position c [3; 1]%Z)
           = Some (Nat.iter (nvisits c) (λ x, x * 2)%float x).
Proof.
  apply (map_in_place_repeats_fn 0%float (λ x, x * 2)%float a_2x3 store_2x3
           [2; 3]%Z [3; 1]%Z [1; 2; 3; 4; 5; 6]%float).
  - reflexivity.
  - reflexivity.
  - reflexivity.
  - repeat constructor.
  - intros c Hc. inv_bounds. cbn. lia.
  - intros c c' Hc Hc'. inv_bounds. cbn. intros Heq.
    f_equal; [|f_equal]; lia.
Defined.

(** In place, doubling the (2,3) tensor with storage 1..6 gives
    [4,4,6,16,10,12]: the cells of (0,0) and (1,0) are doubled twice. *)
Example map_in_place_2x3 :
  tensor_value
    (TensorOps.map 0%float (λ x, x * 2)%float a_2x3 (Some a_2x3) store_2x3)
  = Some ([2; 3]%Z, [4; 4; 6; 16; 10; 12]%float).
Proof. vm_compute. reflexivity. Qed.

(** ** How often [fn] is called *)

Lemma length_bind_const {A B} (f : A → list B) (k : nat) (l : list A) :
  (∀ x, length (f x) = k) → length (l ≫= f) = length l * k.
Proof.
  intros Hf. induction l as [|x l IH]; [done|].
  rewrite bind_cons, length_app, IH, Hf. simpl. lia.
Qed.

Lemma map_visits_length (shape : list Z) : ∀ pre,
  Forall (λ n, (0 < n)%Z) shape →
  Z.of_nat (length (map_visits pre shape)) = traversal_steps shape.
Proof.
  induction shape as [|n rest IH]; intros pre Hdims; [done|].
  apply Forall_cons in Hdims as [Hn Hdims]. simpl.
  rewrite (length_bind_const _ (S (Z.to_nat (traversal_steps rest)))).
  - unfold py_range. rewrite length_seqZ.
    pose proof (IH [] Hdims). lia.
  - intros i. simpl. f_equal. rewrite <- (IH (pre ++ [i])) by done. lia.
Qed.

Lemma traversal_steps_cells (shape : list Z) :
  Forall (λ n, (0 < n)%Z) shape →
  (foldr Z.mul 1 shape ≤ 1 + traversal_steps shape)%Z ∧
  (0 ≤ traversal_steps shape)%Z.
Proof.
  induction 1 as [|n rest Hn Hdims [IH1 IH2]]; simpl; [lia|].
  fold (traversal_steps rest). nia.
Qed.

Lemma map_events_calls {V} (fn : V → V) (out in_storage : loc)
    (OSH OSTR ISH ISTR : list Z) (a : list V) (cs : list (list Z)) :
  (∀ c, in_bounds OSH c →
        (0 ≤ map_in_pos OSH ISH ISTR c < Z.of_nat (length a))%Z) →
  Forall (in_bounds OSH) cs →
  length (filter (λ ev, is_call ev = true)
            (cs ≫= map_cell_events fn out in_storage OSH OSTR ISH ISTR a))
  = length cs.
Proof.
  intros Hipos Hcs. induction Hcs as [|c cs Hc Hcs IH]; [done|].
  rewrite bind_cons, filter_app, length_app, IH. unfold map_cell_events.
  destruct (lookup_lt_is_Some_2 a (Z.to_nat (map_in_pos OSH ISH ISTR c)))
    as [x Hx].
  { pose proof (Hipos c Hc). lia. }
  by rewrite Hx.
Qed.

(** X8.  On well-formed arguments [_map] calls [fn] once per stop of the
    traversal, [n0 + n0*n1 + n0*n1*n2 + ...] times for the output shape
    [(n0, n1, n2, ...)]: as often as the output has cells for rank 1, and more
    often for every higher rank (8 calls for the 6 cells of shape (2,3)). *)
Theorem map_kernel_call_count {V} (fn : V → V)
    (out out_shape out_strides in_storage in_shape in_strides : loc)
    (OSH OSTR ISH ISTR : list Z) (a o : list V) (s : state V) :
  out ≠ in_storage →
  seqs s !! out_shape = Some OSH → seqs s !! out_strides = Some OSTR →
  seqs s !! in_shape = Some ISH → seqs s !! in_strides = Some ISTR →
  bufs s !! in_storage = Some a → bufs s !! out = Some o →
  Forall (λ n, (0 < n)%Z) OSH →
  (∀ c, in_bounds OSH c → (0 ≤ map_out_pos OSTR c < Z.of_nat (length o))%Z) →
  (∀ c, in_bounds OSH c →
        (0 ≤ map_in_pos OSH ISH ISTR c < Z.of_nat (length a))%Z) →
  ∃ o' evs,
    _map fn out out_shape out_strides in_storage in_shape in_strides s
    = Ret tt (State (<[out := o']> (bufs s)) (seqs s) (trace s ++ evs)) ∧
    Z.of_nat (length (filter (λ ev, is_call ev = true) evs))
    = traversal_steps OSH ∧
    (length OSH = 1 → traversal_steps OSH = foldr Z.mul 1%Z OSH) ∧
    (2 ≤ length OSH → (foldr Z.mul 1 OSH < traversal_steps OSH)%Z).
Proof.
  intros Hne Hosh Hostr Hish Histr Ha Ho Hdims Hopos Hipos.
  eexists _, _. split; [|split; [|split]].
  - apply (map_run fn out out_shape out_strides in_storage in_shape in_strides
             OSH OSTR ISH ISTR a (length o)); done.
  - rewrite map_events_calls by (done || by apply map_visits_all_in_bounds).
    by apply map_visits_length.
  - intros Hlen.
    destruct OSH as [|n [|m rest]];
      first [done | unfold traversal_steps; simpl; lia].
  - intros Hlen. destruct OSH as [|n [|m rest]]; [simpl in Hlen; lia..|].
    apply Forall_cons in Hdims as [Hn Hdims].
    apply Forall_cons in Hdims as [Hm Hdims].
    destruct (traversal_steps_cells rest Hdims) as [H1 H2].
    simpl. fold (traversal_steps rest). nia.
Qed.

Lemma map_kernel_call_count_2x3 :
  ∃ o' evs,
    _map (λ x, x * 2)%float 2 1 2 1 1 2 store_map_2x3
    = Ret tt (State (<[2%positive := o']> (bufs store_map_2x3))
                (seqs store_map_2x3) (trace store_map_2x3 ++ evs)) ∧
    Z.of_nat (length (filter (λ ev, is_call ev = true) evs))
    = traversal_steps [2; 3]%Z ∧
    (length [2; 3]%Z = 1 →
     traversal_steps [2; 3]%Z = foldr Z.mul 1%Z [2; 3]%Z) ∧
    (2 ≤ length [2; 3]%Z → (foldr Z.mul 1 [2; 3] < traversal_steps [2; 3])%Z).
Proof.
  apply (map_kernel_call_count (λ x, x * 2)%float 2 1 2 1 1 2
           [2; 3]%Z [3; 1]%Z [2; 3]%Z [3; 1]%Z
           [1; 2; 3; 4; 5; 6]%float (replicate 6 0%float) store_map_2x3).
  - done.
  - reflexivity.
  - reflexivity.
  - reflexivity.
  - reflexivity.
  - reflexivity.
  - reflexivity.
  - repeat constructor.
  - intros c Hc. inv_bounds. cbn. lia.
  - intros c Hc. inv_bounds. unfold map_in_pos, map_in_index. cbn.
    repeat (case_decide; try lia); cbn; lia.
Defined.

(** ** [reduce] at the entry point *)

Lemma in_bounds_reduced (sh c : list Z) (d : nat) :
  in_bounds sh c → in_bounds (<[d := 1%Z]> sh) (<[d := 0%Z]> c).
Proof. intros H. apply Forall2_insert; [done|lia]. Qed.

Lemma run_buf_fill {V} (l : loc) (b : list V) (v : V) (s : state V) :
  bufs s !! l = Some b →
  buf_fill l v s
  = Ret tt (State (<[l := replicate (length b) v]> (bufs s)) (seqs s) (trace s)).
Proof. intros H. unfold buf_fill, buf_load. by rewrite run_bind, H. Qed.

(** X2.  Let [a] be a tensor of rank 1 or 2 with positive dimensions whose
    every coordinate addresses a cell of its storage, and [d] one of its
    dimensions, of size [n].  Then [reduce(fn, start)(a, d)] returns a tensor
    with a new storage, of [a]'s shape with entry [d] set to 1, that holds at
    every coordinate [g] with [g[d] = 0] the left fold of [fn] over the
    elements of [a] at indices 1, ..., n-1 of dimension [d], started from the
    element at index 0.  [start] has no part in the result: the docstring's
    [out = start; out = fn(out, a[i, j])] (lines 325-328) is not what is
    computed. *)
Theorem reduce_returns_fold_from_first {V} (zero : V) (fn : V → V → V)
    (start : V) (a : tensor) (s : state V) (sh st : list Z) (av : list V)
    (d : nat) (n : Z) :
  seqs s !! t_shape a = Some sh → seqs s !! t_strides a = Some st →
  bufs s !! t_storage a = Some av →
  1 ≤ length sh ≤ 2 → Forall (λ n, (0 < n)%Z) sh → sh !! d = Some n →
  (∀ c, in_bounds sh c → (0 ≤ index_to_position c st < Z.of_nat (length av))%Z) →
  ∃ out s' o',
    TensorOps.reduce zero fn start a (Z.of_nat d) s = Ret out s' ∧
    bufs s !! t_storage out = None ∧
    bufs s' !! t_storage a = Some av ∧
    seqs s' !! t_shape out = Some (<[d := 1%Z]> sh) ∧
    seqs s' !! t_strides out = Some (strides_from_shape (<[d := 1%Z]> sh)) ∧
    bufs s' !! t_storage out = Some o' ∧
    ∀ g, in_bounds sh g → g !! d = Some 0%Z →
      ∃ x0 xs,
        av !! Z.to_nat (index_to_position g st) = Some x0 ∧
        mapM (λ i, av !! Z.to_nat (index_to_position (<[d := i]> g) st))
          (py_range 1 n) = Some xs ∧
        o' !! Z.to_nat (index_to_position g
                          (strides_from_shape (<[d := 1%Z]> sh)))
        = Some (foldl fn x0 xs).
Proof.
  intros Hsh Hst Hav Hrank Hdims Hn Hwf.
  assert (d < length sh) as Hd by by eapply lookup_lt_Some.
  unfold TensorOps.reduce, shape.
  rewrite run_bind, (run_seq_load _ _ _ Hsh). cbv beta iota zeta.
  rewrite run_bind, (run_lst_set _ _ _ d) by by apply py_index_nat.
  cbv beta iota. rewrite run_bind, run_zeros. cbv beta iota.
  set (osh := <[d := 1%Z]> sh).
  set (l0 := fresh (dom (bufs s))).
  set (l1 := fresh (dom (seqs s))).
  set (l2 := fresh (dom (<[l1 := osh]> (seqs s)))).
  cbn [t_storage t_shape t_strides].
  rewrite run_bind, (run_buf_fill _ (replicate (Z.to_nat (foldr Z.mul 1%Z osh)) zero))
    by apply lookup_insert_eq.
  cbv beta iota. cbn [bufs seqs trace].
  rewrite length_replicate, insert_insert_eq.
  set (o := replicate (Z.to_nat (foldr Z.mul 1%Z osh)) start).
  set (s1 := State (<[l0 := o]> (bufs s))
               (<[l2 := strides_from_shape osh]> (<[l1 := osh]> (seqs s)))
               (trace s)).
  assert (l0 ≠ t_storage a) as Hl0 by (apply fresh_ne; by eexists).
  assert (l2 ≠ l1) as Hl21.
  { apply fresh_ne. rewrite lookup_insert_eq. by eexists. }
  assert (∀ l x, seqs s !! l = Some x → seqs s1 !! l = Some x) as Hkeep.
  { intros l x Hl. unfold s1. simpl.
    rewrite !lookup_insert_ne; [done| |].
    - apply fresh_ne. by eexists.
    - apply fresh_ne. rewrite lookup_insert_ne; [by eexists|].
      apply fresh_ne. by eexists. }
  destruct (reduce_fold_cells fn l0 l1 l2 (t_storage a) (t_shape a) (t_strides a)
              sh st (strides_from_shape osh) av o s1 d n)
    as (o' & evs & Hrun & Hcells); try done.
  - by apply Hkeep.
  - by apply Hkeep.
  - unfold s1. simpl. by rewrite lookup_insert_eq.
  - unfold s1. simpl. by rewrite lookup_insert_ne.
  - unfold s1. simpl. by rewrite lookup_insert_eq.
  - intros c Hc. unfold reduce_out_pos, o. rewrite length_replicate.
    pose proof (contiguous_pos_bounds osh _ (in_bounds_reduced sh c d Hc)). lia.
  - intros c c' Hc Hc'. unfold reduce_out_pos.
    apply contiguous_pos_inj; by apply in_bounds_reduced.
  - unfold tensor_reduce. rewrite run_bind.
    fold o. fold s1. rewrite Hrun. cbv beta iota. rewrite run_ret.
    eexists _, _, _. split; [reflexivity|]. unfold s1. simpl.
    split; [apply fresh_lookup_None|].
    split; [by rewrite !lookup_insert_ne by done|].
    split; [by rewrite lookup_insert_ne, lookup_insert_eq by done|].
    split; [by rewrite lookup_insert_eq|].
    split; [apply lookup_insert_eq|].
    intros g Hg Hg0.
    destruct (Hcells g Hg Hg0) as (x0 & xs & Hx0 & Hxs & Ho').
    exists x0, xs. split; [done|]. split; [done|].
    unfold reduce_out_pos in Ho'. by rewrite list_insert_id in Ho'.
Qed.

Lemma reduce_returns_fold_from_first_2x3 :
  ∃ out s' o',
    TensorOps.reduce 0%float PrimFloat.add 10%float a_2x3 (Z.of_nat 1) store_2x3
    = Ret out s' ∧
    bufs store_2x3 !! t_storage out = None ∧
    bufs s' !! t_storage a_2x3 = Some [1; 2; 3; 4; 5; 6]%float ∧
    seqs s' !! t_shape out = Some (<[1 := 1%Z]> [2; 3]%Z) ∧
    seqs s' !! t_strides out
    = Some (strides_from_shape (<[1 := 1%Z]> [2; 3]%Z)) ∧
    bufs s' !! t_storage out = Some o' ∧
    ∀ g, in_bounds [2; 3]%Z g → g !! 1 = Some 0%Z →
      ∃ x0 xs,
        [1; 2; 3; 4; 5; 6]%float !! Z.to_nat (index_to_position g [3; 1]%Z)
        = Some x0 ∧
        mapM (λ i, [1; 2; 3; 4; 5; 6]%float
                     !! Z.to_nat (index_to_position (<[1 := i]> g) [3; 1]%Z))
          (py_range 1 3) = Some xs ∧
        o' !! Z.to_nat (index_to_position g
                          (strides_from_shape (<[1 := 1%Z]> [2; 3]%Z)))
        = Some (foldl PrimFloat.add x0 xs).
Proof.
  apply (reduce_returns_fold_from_first 0%float PrimFloat.add 10%float a_2x3
           store_2x3 [2; 3]%Z [3; 1]%Z [1; 2; 3; 4; 5; 6]%float 1 3).
  - reflexivity.
  - reflexivity.
  - reflexivity.
  - simpl. lia.
  - repeat constructor.
  - reflexivity.
  - intros c Hc. inv_bounds. cbn. lia.
Defined.

(** ** The input cells [_reduce] reads *)









(** Of the (1,2,2) tensor, the coordinate (0,0,1) is not visited and
    (0,1,1) is. *)
Example reduce_1x2x2_skips :
  reduce_visited [0; 0; 1]%Z = false ∧ reduce_visited [0; 1; 1]%Z = true.
Proof. done. Qed.

